(** * Row-selection strategies of the Kaczmarz solvers

    A shallow embedding of [src/kaczmarz/_variants.py].

    - Python [int]s (row indices, the [-1] "no projection" value) are [Z].
    - numpy [float64] values are elements of a type carrying the [Scalar]
      operations.  Two instances are given: IEEE-754 binary64
      ([PrimFloat.float]), the arithmetic the program runs in, with its
      rounding, overflow to infinity and NaN, and exact rational arithmetic
      ([Q]), the arithmetic in which the specification states its
      properties.  The quantile family is embedded once in each (the module
      [Binary64] holds the binary64 one); a statement says which arithmetic
      it is about.
    - one-dimensional arrays are lists, matrices are lists of rows.
    - a Python exception is the [Error] branch of [result].
    - the state of an object is threaded explicitly: a method that mutates
      [self] returns the new state next to its value.
    - draws of [np.random.choice] are inputs of the model (the outcome of the
      generator is supplied by the caller); numpy's validation of the
      probabilities it is given is not modelled.
    - shapes are taken to agree, as numpy requires: on lists, the
      elementwise operations and the products stop at the shorter operand
      where numpy would raise. *)

From stdpp Require Import gmap list sorting.
From Stdlib Require Import QArith Qround Qabs Lqa Floats.
From Stdlib Require Uint63.

Close Scope Q_scope.
Local Open Scope Z_scope.

(** ** Exceptions and the error monad *)

Inductive exn : Type :=
| ZeroDivisionError
| ValueError
| IndexError
| KeyError.

Definition py (A : Type) : Type := result A exn.

#[export] Instance py_ret : MRet py := λ A x, Ok x.
#[export] Instance py_bind : MBind py :=
  λ A B f m, match m with Ok x => f x | Error e => Error e end.
#[export] Instance py_fmap : FMap py :=
  λ A B f m, match m with Ok x => Ok (f x) | Error e => Error e end.

(** ** Scalars: the arithmetic of numpy's [float64] *)

Class Scalar (R : Type) : Type := {
  s_zero : R;
  s_add : R → R → R;
  s_sub : R → R → R;
  s_mul : R → R → R;
  s_div : R → R → R;
  s_abs : R → R;
  s_leb : R → R → bool;
  s_ltb : R → R → bool;
  s_eqb : R → R → bool;
  s_inf : option R          (* float("inf"), where the arithmetic has one *)
}.

#[export] Instance Q_scalar : Scalar Q := {|
  s_zero := 0%Q;
  s_add := Qplus;
  s_sub := Qminus;
  s_mul := Qmult;
  s_div := Qdiv;
  s_abs := Qabs;
  s_leb := Qle_bool;
  s_ltb := λ x y, negb (Qle_bool y x);
  s_eqb := Qeq_bool;
  s_inf := None
|}.

#[export] Instance float_scalar : Scalar float := {|
  s_zero := 0%float;
  s_add := PrimFloat.add;
  s_sub := PrimFloat.sub;
  s_mul := PrimFloat.mul;
  s_div := PrimFloat.div;
  s_abs := PrimFloat.abs;
  s_leb := PrimFloat.leb;
  s_ltb := PrimFloat.ltb;
  s_eqb := PrimFloat.eqb;
  s_inf := Some infinity
|}.

(** ** Python and numpy primitives *)

(** The value [-1] with which a strategy asks for no projection. *)
Definition SKIP : Z := -1.

(** [a % b] on Python integers: the sign follows the divisor, as [Z.modulo]
    does; a zero divisor raises. *)
Definition py_mod (a b : Z) : py Z :=
  if b =? 0 then Error ZeroDivisionError else Ok (a `mod` b).

(** [range(n)] *)
Definition py_range (n : Z) : list Z := seqZ 0 n.

(** [l[i]] : negative indices count from the end, anything else out of range
    raises. *)
Definition getitem {A : Type} (l : list A) (i : Z) : py A :=
  let n := Z.of_nat (length l) in
  let j := if i <? 0 then i + n else i in
  if (0 <=? j) && (j <? n)
  then match l !! Z.to_nat j with Some x => Ok x | None => Error IndexError end
  else Error IndexError.

Section numpy.
Context {R : Type} `{Scalar R}.

(** [np.isnan]: NaN is the one value that differs from itself. *)
Definition s_isnan (x : R) : bool := negb (s_eqb x x).

(** [a.sum()] and the accumulation of the products [@] : from zero, left
    to right.  numpy adds a contiguous array of eight entries or more in
    pairwise blocks, and BLAS accumulates a product in an order of its own:
    the same number in exact arithmetic, possibly another one in the last
    bits in binary64.  The statements about binary64 below take the sums as
    this accumulation gives them; those about [SVRandom] are on arrays of
    zeros and on two entries, where the order does not matter. *)
Definition np_sum (a : list R) : R := foldl s_add s_zero a.

(** [u @ v] for two vectors. *)
Definition dot (u v : list R) : R := np_sum (zip_with s_mul u v).

(** [M @ v] for a matrix (list of rows) and a vector. *)
Definition matvec (M : list (list R)) (v : list R) : list R :=
  (λ row, dot row v) <$> M.

(** [M @ N.T] : entry [(i, j)] is the product of row [i] of [M] with row
    [j] of [N]. *)
Definition matmul_T (M N : list (list R)) : list (list R) :=
  (λ row, (λ row', dot row row') <$> N) <$> M.

(** [u - v], elementwise. *)
Definition np_sub (u v : list R) : list R := zip_with s_sub u v.

(** [np.abs(u)] *)
Definition np_abs (u : list R) : list R := s_abs <$> u.

(** [np.argmax]: a left-to-right scan that replaces the running maximum only
    by an entry that is not below-or-equal to it, so that the first
    occurrence of the maximum wins; the scan stops at the first NaN, whose
    position is the result.  The empty sequence raises. *)
Fixpoint argmax_scan (best_i : Z) (best : R) (i : Z) (l : list R) : Z :=
  match l with
  | [] => best_i
  | x :: l' =>
      if negb (s_leb x best)
      then (if s_isnan x then i else argmax_scan i x (i + 1) l')
      else argmax_scan best_i best (i + 1) l'
  end.

Definition np_argmax (l : list R) : py Z :=
  match l with
  | [] => Error ValueError
  | x :: l' => if s_isnan x then Ok 0 else Ok (argmax_scan 0 x 1 l')
  end.

(** [np.argwhere(u).flatten()] : the positions of the non-zero entries, in
    increasing order. *)
Fixpoint argwhere_from (i : Z) (u : list R) : list Z :=
  match u with
  | [] => []
  | x :: u' =>
      if s_eqb x s_zero then argwhere_from (i + 1) u'
      else i :: argwhere_from (i + 1) u'
  end.

Definition np_argwhere (u : list R) : list Z := argwhere_from 0 u.

End numpy.

(** ** The base solver

    [kaczmarz.Base] is not part of the module; the attributes the strategies
    read are the fields of this record, and the row update
    [_update_iterate] is a parameter wherever a strategy calls it. *)

Record Base (R : Type) : Type := MkBase {
  A_ : list (list R);       (* self._A *)
  b_ : list R;              (* self._b *)
  x0_ : list R;             (* self._x0 *)
  xk_ : list R;             (* self._xk, the stored iterate *)
  n_rows_ : Z;              (* self._n_rows *)
  row_norms_ : list R       (* self._row_norms *)
}.
Arguments MkBase {R}.
Arguments A_ {R}.
Arguments b_ {R}.
Arguments x0_ {R}.
Arguments xk_ {R}.
Arguments n_rows_ {R}.
Arguments row_norms_ {R}.

(** The invariant of the linear system: [m = len(b) = A.shape[0]]. *)
Definition well_formed {R : Type} (s : Base R) : Prop :=
  n_rows_ s = Z.of_nat (length (A_ s)) ∧ length (b_ s) = length (A_ s).

(** Successive calls of a selection method, threading the strategy's state;
    the first exception ends the run. *)
Fixpoint run_calls {S I : Type} (step : S → I → py (Z * S))
    (st : S) (inputs : list I) : py (list Z * S) :=
  match inputs with
  | [] => Ok ([], st)
  | i :: inputs' =>
      '(ik, st') ← step st i;
      '(iks, st'') ← run_calls step st' inputs';
      Ok (ik :: iks, st'')
  end.

(** ** Cyclic *)

Module Cyclic.

Record t : Type := Mk { base_n_rows : Z; row_index : Z }.

(** [__init__] *)
Definition init (n_rows : Z) : t :=
  {| base_n_rows := n_rows; row_index := -1 |}.

(** [_select_row_index] *)
Definition select_row_index {R : Type} (self : t) (xk : list R) : py (Z * t) :=
  r ← py_mod (1 + row_index self) (base_n_rows self);
  Ok (r, {| base_n_rows := base_n_rows self; row_index := r |}).

End Cyclic.

(** ** MaxDistance *)

Module MaxDistance.
Section defs.
Context {R : Type} `{Scalar R}.

(** [_select_row_index] : the residual is taken at the stored iterate
    [self._xk]. *)
Definition select_row_index (self : Base R) (xk : list R) : py Z :=
  let residual := np_sub (b_ self) (matvec (A_ self) (xk_ self)) in
  np_argmax (np_abs residual).

End defs.
End MaxDistance.

(** ** Lookahead *)

(** Values compared against [float("inf")]: [Inf] is that value itself.  In
    binary64 it is an ordinary double, which an overflowing norm equals and
    a NaN norm is not below; in exact arithmetic it is above every
    number. *)
Inductive ext (R : Type) : Type :=
| Fin (r : R)
| Inf.
Arguments Fin {R}.
Arguments Inf {R}.

Module Lookahead.
Section defs.
Context {R : Type} `{Scalar R}.

(** [self._update_iterate(xk, ik)] of the base solver. *)
Variable update_iterate : Base R → list R → Z → list R.
(** [np.linalg.norm] *)
Variable norm : list R → R.

Definition ext_ltb (x y : ext R) : bool :=
  match x, y with
  | Fin a, Fin c => s_ltb a c
  | Fin a, Inf => match s_inf with Some i => s_ltb a i | None => true end
  | Inf, Fin c => match s_inf with Some i => s_ltb i c | None => false end
  | Inf, Inf => false
  end.

Definition ext_eqb (x y : ext R) : bool :=
  match x, y with
  | Fin a, Fin c => s_eqb a c
  | Fin a, Inf => match s_inf with Some i => s_eqb a i | None => false end
  | Inf, Fin c => match s_inf with Some i => s_eqb i c | None => false end
  | Inf, Inf => true
  end.

(** Python's [<] on pairs: the first components that differ decide. *)
Definition tuple_ltb (p q : ext R * ext R) : bool :=
  if ext_eqb p.1 q.1
  then (if ext_eqb p.2 q.2 then false else ext_ltb p.2 q.2)
  else ext_ltb p.1 q.1.

(** One candidate [ik] of the search: the greedy continuation [ik2] and the
    pair [(next_residual_norm, norm(residual))]. *)
Definition candidate (self : Base R) (ik : Z) : py (Z * (R * R)) :=
  let next_xk := update_iterate self (xk_ self) ik in
  let residual := np_sub (b_ self) (matvec (A_ self) next_xk) in
  ik2 ← np_argmax (np_abs residual);
  let next_next_xk := update_iterate self next_xk ik2 in
  let next_residual_norm :=
    norm (np_sub (b_ self) (matvec (A_ self) next_next_xk)) in
  Ok (ik2, (next_residual_norm, norm residual)).

(** The loop variables [(best_i, self._next_i, best_residual_norms)]. *)
Definition search_state : Type := Z * Z * (ext R * ext R).

(** The body of the [for] loop. *)
Definition search_step (self : Base R) (acc : search_state) (ik : Z)
    : py search_state :=
  '(ik2, (n2, n1)) ← candidate self ik;
  let residual_norms := (Fin n2, Fin n1) in
  if tuple_ltb residual_norms acc.2
  then Ok (ik, ik2, residual_norms)
  else Ok acc.

Fixpoint for_each {S I : Type} (body : S → I → py S) (acc : S) (l : list I)
    : py S :=
  match l with
  | [] => Ok acc
  | i :: l' => acc' ← body acc i; for_each body acc' l'
  end.

Definition search (self : Base R) : py search_state :=
  for_each (search_step self) (-1, -1, (Inf, Inf)) (py_range (n_rows_ self)).

(** [_select_row_index]; the state is the cache [self._next_i]. *)
Definition select_row_index (self : Base R) (next_i : option Z) (xk : list R)
    : py (Z * option Z) :=
  match next_i with
  | Some temp => Ok (temp, None)
  | None =>
      '(best_i, next_i', _) ← search self;
      Ok (best_i, Some next_i')
  end.

End defs.
End Lookahead.

(** ** Random and its specialisations *)

Module Random.
Section defs.
Context {R : Type} `{Scalar R}.

(** [np.random.choice(n, p=p)] : [draw] is the index the generator
    produces; sampling from an empty population raises. *)
Definition choice (n : Z) (p : option (list R)) (draw : Z) : py Z :=
  if n <=? 0 then Error ValueError else Ok draw.

(** [_select_row_index] *)
Definition select_row_index (self : Base R) (p : option (list R))
    (draw : Z) (xk : list R) : py Z :=
  choice (n_rows_ self) p draw.

End defs.
End Random.

Module SVRandom.
Section defs.
Context {R : Type} `{Scalar R}.

(** [__init__] : the distribution stored in [self._p]. *)
Definition init (self : Base R) : list R :=
  let squared_row_norms := (λ r, s_mul r r) <$> row_norms_ self in
  let total := np_sum squared_row_norms in
  (λ s, s_div s total) <$> squared_row_norms.

End defs.
End SVRandom.

(** ** The quantile family in exact arithmetic

    The same methods as in the module [Binary64] below, with every
    operation exact: no rounding, no overflow, no NaN. *)

#[export] Instance Qle_dec : RelDecision Qle := λ x y,
  match Qlt_le_dec y x with
  | left Hlt => right (Qlt_not_le _ _ Hlt)
  | right Hle => left Hle
  end.

(** [np.sort] *)
Definition np_sort (a : list Q) : list Q := merge_sort Qle a.

(** [np.quantile(a, q)] with the default linear interpolation: with
    [i + g = q * (n - 1)], [i] an integer and [0 <= g < 1], the result is
    [s[i] + (s[i+1] - s[i]) * g] over the sorted values [s] (the upper index
    clipped to the last position).  [q] outside [[0, 1]] raises, and so does
    an empty [a], which has no order statistic. *)
Definition np_quantile (a : list Q) (q : Q) : py Q :=
  if negb (Qle_bool 0 q && Qle_bool q 1) then Error ValueError
  else
    let s := np_sort a in
    let n := Z.of_nat (length a) in
    if n =? 0 then Error IndexError
    else
      let virtual := (q * inject_Z (n - 1))%Q in
      let previous := Qfloor virtual in
      let next := Z.min (previous + 1) (n - 1) in
      let gamma := (virtual - inject_Z previous)%Q in
      lo ← getitem s previous;
      hi ← getitem s next;
      Ok (lo + (hi - lo) * gamma)%Q.

(** [np.isclose(a, b)] with the default tolerances:
    [|a - b| <= atol + rtol * |b|].  The tolerances are the values of the
    doubles nearest to [1e-5] and [1e-8]. *)
Definition rtol : Q := 5902958103587057 # 590295810358705651712.
Definition atol : Q := 3022314549036573 # 302231454903657293676544.
Definition np_isclose (a c : Q) : bool :=
  Qle_bool (Qabs (a - c)) (atol + rtol * Qabs c).

(** The two methods a subclass of [Quantile] overrides, over the state [S]
    the subclass adds to the solver. *)
Class QuantileHooks (S : Type) : Type := {
  hook_distance : Base Q → S → list Q → Z → py (Q * S);
  hook_threshold_distances : Base Q → S → list Q → list Q
}.

Module Quantile.

(** [_distance] *)
Definition distance (self : Base Q) (xk : list Q) (ik : Z) : py Q :=
  bi ← getitem (b_ self) ik;
  row ← getitem (A_ self) ik;
  Ok (s_abs (s_sub bi (dot row xk))).

(** [_threshold_distances] *)
Definition threshold_distances (self : Base Q) (xk : list Q) : list Q :=
  np_abs (np_sub (b_ self) (matvec (A_ self) xk)).

#[global] Instance hooks : QuantileHooks unit := {|
  hook_distance := λ self _ xk ik, d ← distance self xk ik; Ok (d, tt);
  hook_threshold_distances := λ self _ xk, threshold_distances self xk
|}.

Section template.
Context {S : Type} `{QuantileHooks S}.

(** [_threshold] *)
Definition threshold (self : Base Q) (quantile : Q) (st : S) (xk : list Q)
    : py Q :=
  let distances := hook_threshold_distances self st xk in
  np_quantile distances quantile.

(** [_select_row_index]; [p] and [quantile] are the attributes [self._p] and
    [self._quantile]. *)
Definition select_row_index (self : Base Q) (p : option (list Q))
    (quantile : Q) (st : S) (draw : Z) (xk : list Q) : py (Z * S) :=
  ik ← Random.select_row_index self p draw xk;
  '(distance, st') ← hook_distance self st xk ik;
  threshold ← threshold self quantile st' xk;
  if s_ltb distance threshold || np_isclose distance threshold
  then Ok (ik, st')
  else Ok (-1, st').

End template.
End Quantile.

Module WindowedQuantile.

(** [collections.deque] with a [maxlen]: appending to a full deque drops the
    oldest item. *)
Record deque : Type := MkDeque { maxlen : Z; items : list Q }.

Definition deque_new (maxlen : Z) : py deque :=
  if maxlen <? 0 then Error ValueError
  else Ok {| maxlen := maxlen; items := [] |}.

Definition deque_append (d : deque) (x : Q) : deque :=
  let items' := items d ++ [x] in
  {| maxlen := maxlen d;
     items := if maxlen d <? Z.of_nat (length items')
              then tail items' else items' |}.

(** [__init__] : the window [self._window]. *)
Definition init (self : Base Q) (window_size : option Z) : py deque :=
  let window_size :=
    match window_size with None => n_rows_ self | Some w => w end in
  deque_new window_size.

(** [_distance] *)
Definition distance (self : Base Q) (window : deque) (xk : list Q) (ik : Z)
    : py (Q * deque) :=
  distance ← Quantile.distance self xk ik;
  Ok (distance, deque_append window distance).

(** [_threshold_distances] *)
Definition threshold_distances (self : Base Q) (window : deque)
    (xk : list Q) : list Q :=
  items window.

#[global] Instance hooks : QuantileHooks deque := {|
  hook_distance := distance;
  hook_threshold_distances := threshold_distances
|}.

(** [_select_row_index], inherited from [Quantile]. *)
Definition select_row_index (self : Base Q) (p : option (list Q))
    (quantile : Q) (window : deque) (draw : Z) (xk : list Q)
    : py (Z * deque) :=
  Quantile.select_row_index self p quantile window draw xk.

End WindowedQuantile.

(** ** RandomOrthoGraph *)

(** [np.unique] on integers: sort, then keep one of each run of equal
    neighbours. *)
Fixpoint drop_repeats (l : list Z) : list Z :=
  match l with
  | [] => []
  | x :: l' =>
      match l' with
      | [] => [x]
      | y :: _ => if x =? y then drop_repeats l' else x :: drop_repeats l'
      end
  end.

Definition np_unique (l : list Z) : list Z := drop_repeats (merge_sort Z.le l).

(** [np.union1d(a, c)] *)
Definition np_union1d (a c : list Z) : list Z := np_unique (a ++ c).

(** [np.setdiff1d(a, c, assume_unique=True)] : the entries of [a] that are
    not in [c], in the order of [a]. *)
Definition np_setdiff1d (a c : list Z) : list Z :=
  filter (λ x, x ∉ c) a.

Module RandomOrthoGraph.
Section defs.
Context {R : Type} `{Scalar R}.

Record t : Type := Mk {
  ortho_graph : list (list R);               (* self._ortho_graph *)
  i_to_newly_selectable : gmap Z (list Z);   (* self._i_to_newly_selectable *)
  selectable : list Z;                       (* self._selectable *)
  p : list R                                 (* self._p *)
}.

(** [_newly_selectable], reading the graph [G]. *)
Definition newly_selectable (G : list (list R)) (i : Z) : py (list Z) :=
  row ← getitem G i;
  Ok (np_argwhere row).

(** The dictionary comprehension of [__init__]. *)
Fixpoint build_dict (G : list (list R)) (keys : list Z)
    : py (gmap Z (list Z)) :=
  match keys with
  | [] => Ok ∅
  | i :: keys' =>
      v ← newly_selectable G i;
      d ← build_dict G keys';
      Ok (<[i := v]> d)
  end.

(** [np.ones((n,))] *)
Definition np_ones (one : R) (n : Z) : list R := replicate (Z.to_nat n) one.

(** [__init__]; [one] is the scalar [1.0] of the default weights. *)
Definition init (self : Base R) (one : R) (p : option (list R)) : py t :=
  let G := matmul_T (A_ self) (A_ self) in
  d ← build_dict G (py_range (n_rows_ self));
  let sel := np_argwhere (np_sub (matvec (A_ self) (x0_ self)) (b_ self)) in
  let p := match p with None => np_ones one (n_rows_ self) | Some p => p end in
  Ok {| ortho_graph := G; i_to_newly_selectable := d;
        selectable := sel; p := p |}.

(** [_update_selectable] *)
Definition update_selectable (st : t) (ik : Z) : py t :=
  newly ← match i_to_newly_selectable st !! ik with
          | Some v => Ok v
          | None => Error KeyError
          end;
  let selectable_with_ik := np_union1d (selectable st) newly in
  Ok {| ortho_graph := ortho_graph st;
        i_to_newly_selectable := i_to_newly_selectable st;
        selectable := np_setdiff1d selectable_with_ik [ik];
        p := p st |}.

(** [self._p[self._selectable]] *)
Fixpoint take_indices (w : list R) (idx : list Z) : py (list R) :=
  match idx with
  | [] => Ok []
  | i :: idx' => x ← getitem w i; xs ← take_indices w idx'; Ok (x :: xs)
  end.

(** [np.random.choice(a, p=p)] over an array [a]: [pick] is the position in
    [a] the generator lands on; an empty [a] raises. *)
Definition choice_of (a : list Z) (weights : list R) (pick : nat) : py Z :=
  match a !! pick with
  | Some ik => Ok ik
  | None => Error ValueError
  end.

(** [_select_row_index] *)
Definition select_row_index (st : t) (pick : nat) (xk : list R) : py (Z * t) :=
  unnormalized_p ← take_indices (p st) (selectable st);
  let total := np_sum unnormalized_p in
  let weights := (λ x, s_div x total) <$> unnormalized_p in
  ik ← choice_of (selectable st) weights pick;
  st' ← update_selectable st ik;
  Ok (ik, st').

End defs.
Arguments t R : clear implicits.
End RandomOrthoGraph.

(** ** SampledQuantile *)

(** [a[idxs]] for an array of indices [idxs]. *)
Fixpoint np_take {A : Type} (a : list A) (idxs : list Z) : py (list A) :=
  match idxs with
  | [] => Ok []
  | i :: idxs' => x ← getitem a i; xs ← np_take a idxs'; Ok (x :: xs)
  end.

Module SampledQuantile.

(** [__init__] : the attribute [self._n_samples]. *)
Definition init (self : Base Q) (n_samples : option Z) : Z :=
  match n_samples with None => n_rows_ self | Some n => n end.

(** [np.random.choice(n, size, replace=False)] : [sample] is the array the
    generator produces ([size] distinct indices below [n]); a negative size
    and a size above the population raise. *)
Definition choice_without_replacement (n size : Z) (sample : list Z)
    : py (list Z) :=
  if (size <? 0) || (n <? size) then Error ValueError else Ok sample.

(** [_threshold_distances] *)
Definition threshold_distances (self : Base Q) (n_samples : Z)
    (sample : list Z) (xk : list Q) : py (list Q) :=
  idxs ← choice_without_replacement (n_rows_ self) n_samples sample;
  bs ← np_take (b_ self) idxs;
  rows ← np_take (A_ self) idxs;
  Ok (np_abs (np_sub bs (matvec rows xk))).

(** [_threshold], inherited from [Quantile]. *)
Definition threshold (self : Base Q) (quantile : Q) (n_samples : Z)
    (sample : list Z) (xk : list Q) : py Q :=
  distances ← threshold_distances self n_samples sample xk;
  np_quantile distances quantile.

(** [_select_row_index], inherited from [Quantile]. *)
Definition select_row_index (self : Base Q) (p : option (list Q))
    (quantile : Q) (n_samples : Z) (draw : Z) (sample : list Z)
    (xk : list Q) : py Z :=
  ik ← Random.select_row_index self p draw xk;
  distance ← Quantile.distance self xk ik;
  threshold ← threshold self quantile n_samples sample xk;
  if s_ltb distance threshold || np_isclose distance threshold
  then Ok ik
  else Ok (-1).

End SampledQuantile.

(** ** The quantile family in binary64 *)

Module Binary64.

(** [np.isfinite] *)
Definition isfinite (x : float) : bool := (abs x <? infinity)%float.

(** The order of [np.sort]: by [<=], NaN after every number. *)
Definition sort_le (x y : float) : Prop :=
  s_isnan y = true ∨ (s_isnan x = false ∧ (x <=? y)%float = true).

#[global] Instance sort_le_dec : RelDecision sort_le.
Proof. intros x y. unfold sort_le. apply _. Defined.

(** [np.sort] *)
Definition np_sort (a : list float) : list float := merge_sort sort_le a.

(** Conversion of the fractional part of a position ([0 <= q < 1], so both
    the numerator and the denominator are non-negative integers). *)
Definition of_Z (z : Z) : float := of_uint63 (Uint63.of_Z z).
Definition of_Q (q : Q) : float :=
  (of_Z (Qnum q) / of_Z (Z.pos (Qden q)))%float.

(** numpy's [_lerp]: [a + (b - a) * t], computed from [b] when
    [t >= 0.5]. *)
Definition lerp (a b t : float) : float :=
  if (0.5 <=? t)%float
  then (b - (b - a) * (1 - t))%float
  else (a + (b - a) * t)%float.

(** [np.quantile(a, q)] with the default linear interpolation.  The
    quantile [q] is given by its exact value; the position [q * (n - 1)] is
    split into its integer and fractional parts exactly, which is what
    numpy's binary64 computation gives whenever that product is a double
    (always for [q = 0] and [q = 1]); the interpolation between the two
    order statistics is numpy's, in binary64.  An array holding a NaN has
    the quantile NaN. *)
Definition np_quantile (a : list float) (q : Q) : py float :=
  if negb (Qle_bool 0 q && Qle_bool q 1) then Error ValueError
  else
    let n := Z.of_nat (length a) in
    if n =? 0 then Error IndexError
    else if existsb s_isnan a then Ok nan
    else
      let s := np_sort a in
      let virtual := (q * inject_Z (n - 1))%Q in
      let previous := Qfloor virtual in
      let next := Z.min (previous + 1) (n - 1) in
      let gamma := of_Q (virtual - inject_Z previous) in
      lo ← getitem s previous;
      hi ← getitem s next;
      Ok (lerp lo hi gamma).

(** [np.isclose(a, b)] with the default tolerances, the doubles nearest to
    [1e-5] and [1e-8]: [|a - b| <= atol + rtol * |b|] for a finite [b], and
    equality otherwise. *)
Definition rtol : float := 0x1.4f8b588e368f1p-17%float.
Definition atol : float := 0x1.5798ee2308c3ap-27%float.
Definition np_isclose (a c : float) : bool :=
  ((abs (a - c) <=? atol + rtol * abs c)%float && isfinite c)
  || (a =? c)%float.

Module Quantile.

(** [_distance] *)
Definition distance (self : Base float) (xk : list float) (ik : Z)
    : py float :=
  bi ← getitem (b_ self) ik;
  row ← getitem (A_ self) ik;
  Ok (s_abs (s_sub bi (dot row xk))).

(** [_threshold_distances] *)
Definition threshold_distances (self : Base float) (xk : list float)
    : list float :=
  np_abs (np_sub (b_ self) (matvec (A_ self) xk)).

(** [_threshold] *)
Definition threshold (self : Base float) (quantile : Q) (xk : list float)
    : py float :=
  let distances := threshold_distances self xk in
  np_quantile distances quantile.

(** [_select_row_index] *)
Definition select_row_index (self : Base float) (p : option (list float))
    (quantile : Q) (draw : Z) (xk : list float) : py Z :=
  ik ← Random.select_row_index self p draw xk;
  distance ← distance self xk ik;
  threshold ← threshold self quantile xk;
  if s_ltb distance threshold || np_isclose distance threshold
  then Ok ik
  else Ok (-1).

End Quantile.
End Binary64.

(** ** Definitions used to state the properties *)

(** The residual of row [i] at the iterate [x]: [b[i] - A[i] @ x]. *)
Definition row_residual (self : Base Q) (x : list Q) (i : nat) : option Q :=
  bi ← b_ self !! i;
  row ← A_ self !! i;
  Some (bi - dot row x)%Q.

(** The residual magnitude of row [i] at the iterate [x], as the program
    computes it: [|b[i] - A[i] @ x|]. *)
Definition row_magnitude {R : Type} `{Scalar R} (self : Base R)
    (x : list R) (i : nat) : option R :=
  bi ← b_ self !! i;
  row ← A_ self !! i;
  Some (s_abs (s_sub bi (dot row x))).

(** The lexicographic order on pairs of norms. *)
Definition lex_lt (p q : Q * Q) : Prop :=
  (p.1 < q.1)%Q ∨ (p.1 == q.1 ∧ p.2 < q.2)%Q.

Definition lex_le (p q : Q * Q) : Prop :=
  (p.1 < q.1)%Q ∨ (p.1 == q.1 ∧ p.2 <= q.2)%Q.

(** The loop invariant of the search of [Lookahead]: among the candidates
    [0 .. s-1], [best_i] is the first one with the least key, and [next_i]
    is its greedy continuation. *)
Definition best_so_far (update_iterate : Base Q → list Q → Z → list Q)
    (norm : list Q → Q) (self : Base Q) (s : Z)
    (acc : Lookahead.search_state) : Prop :=
  ∃ best_i next_i key,
    acc = (best_i, next_i, (Fin key.1, Fin key.2))
    ∧ 0 ≤ best_i < s
    ∧ Lookahead.candidate update_iterate norm self best_i = Ok (next_i, key)
    ∧ ∀ j, 0 ≤ j < s →
        ∃ j2 key',
          Lookahead.candidate update_iterate norm self j = Ok (j2, key')
          ∧ lex_le key key' ∧ (j < best_i → lex_lt key key').

(** Modelled from the spec: the row update of the base solver, which
    "returns the unique point obtained by orthogonally projecting [x] onto
    the hyperplane [A[i]·x = b[i]]"; it instantiates the parameter
    [update_iterate] in examples. *)
Definition project (self : Base Q) (x : list Q) (i : Z) : list Q :=
  match getitem (A_ self) i, getitem (b_ self) i with
  | Ok row, Ok bi =>
      let c := ((bi - dot row x) / dot row row)%Q in
      zip_with (λ xj aj, (xj + c * aj)%Q) x row
  | _, _ => x
  end.

(** The square of the Euclidean norm; on exact values it orders vectors as
    the norm does, and instantiates the parameter [norm] in examples. *)
Definition sq_norm (v : list Q) : Q := dot v v.

(** The [w] most recent of the values [ds] (oldest first), all of them when
    there are fewer than [w]. *)
Definition recent (w : Z) (ds : list Q) : list Q :=
  drop (length ds - Z.to_nat w) ds.

(** The acceptance test of the quantile family on a distance and a
    threshold. *)
Definition accept (d threshold : Q) (ik : Z) : Z :=
  if negb (Qle_bool threshold d) || np_isclose d threshold then ik else SKIP.

(** One call of [WindowedQuantile] on the pair (argument [xk], draw). *)
Definition windowed_call (self : Base Q) (p : option (list Q)) (quantile : Q)
    (window : WindowedQuantile.deque) (c : list Q * Z)
    : py (Z * WindowedQuantile.deque) :=
  WindowedQuantile.select_row_index self p quantile window c.2 c.1.

Section ortho_graph_spec.
Context {R : Type} `{Scalar R}.

(** Rows [i] and [j] of [A] are neighbours in the orthogonality graph
    [G = A·Aᵀ] when the entry [G[i,j] = A[i]·A[j]] is not zero. *)
Definition is_neighbour (A : list (list R)) (i j : nat) : bool :=
  match A !! i, A !! j with
  | Some ri, Some rj => negb (s_eqb (dot ri rj) s_zero)
  | _, _ => false
  end.

(** The neighbour set of row [i]. *)
Definition neighbours (A : list (list R)) (i : Z) : gset Z :=
  list_to_set
    (filter (λ j, is_neighbour A (Z.to_nat i) (Z.to_nat j) = true)
       (seqZ 0 (Z.of_nat (length A)))).

(** The state [st] with another array as its selectable rows. *)
Definition with_selectable (st : RandomOrthoGraph.t R) (sel : list Z)
    : RandomOrthoGraph.t R :=
  {| RandomOrthoGraph.ortho_graph := RandomOrthoGraph.ortho_graph st;
     RandomOrthoGraph.i_to_newly_selectable :=
       RandomOrthoGraph.i_to_newly_selectable st;
     RandomOrthoGraph.selectable := sel;
     RandomOrthoGraph.p := RandomOrthoGraph.p st |}.

(** What holds of every state of a [RandomOrthoGraph] built on the matrix
    [A]: the dictionary maps each row to its neighbours, and the selectable
    rows are rows. *)
Definition graph_inv (A : list (list R)) (st : RandomOrthoGraph.t R) : Prop :=
  (∀ i, 0 ≤ i < Z.of_nat (length A) →
     ∃ v, RandomOrthoGraph.i_to_newly_selectable st !! i = Some v
          ∧ (list_to_set v : gset Z) = neighbours A i)
  ∧ (∀ i, i ∈ RandomOrthoGraph.selectable st → 0 ≤ i < Z.of_nat (length A)).

End ortho_graph_spec.

(** One call of [RandomOrthoGraph] on the pair (position drawn in the
    selectable array, argument [xk]). *)
Definition ortho_call {R : Type} `{Scalar R} (st : RandomOrthoGraph.t R)
    (c : nat * list R) : py (Z * RandomOrthoGraph.t R) :=
  RandomOrthoGraph.select_row_index st c.1 c.2.

(** The sum [Σ_j row_norm[j]²] of the squared row norms. *)
Definition sum_of_squares (norms : list Q) : Q :=
  foldr (λ r acc, (r * r + acc)%Q) 0%Q norms.

(** ** Concrete systems used in the examples *)

Definition max_distance_example : Base Q :=
  MkBase [[1; 0]; [0; 1]; [1; 1]]%Q [1; 5; -5]%Q [0; 0]%Q [0; 0]%Q 3 [].

Definition identity_example : Base Q :=
  MkBase [[1; 0]; [0; 1]]%Q [1; 1]%Q [0; 0]%Q [0; 0]%Q 2 [].

Definition quantile_example : Base Q :=
  MkBase [[1; 0]; [0; 1]; [1; 1]]%Q [1; 5; -5]%Q [0; 0]%Q [0; 0]%Q 3 [].

Definition quantile_tolerance_example : Base Q :=
  MkBase [[1]; [1]]%Q [1; 1000001 # 1000000]%Q [0]%Q [0]%Q 2 [].

Definition quantile_far_example : Base Q :=
  MkBase [[1]; [1]]%Q [1; 2]%Q [0]%Q [0]%Q 2 [].

Definition windowed_example : Base Q :=
  MkBase [[1]; [1]; [1]]%Q [1; 2; 4]%Q [0]%Q [0]%Q 3 [].

Definition windowed_example_calls : list (list Q * Z) :=
  [([0]%Q, 0); ([0]%Q, 2); ([0]%Q, 2)].

Definition ortho_example : Base Q :=
  MkBase [[1; 0]; [0; 1]; [1; 1]]%Q [1; 5; 2]%Q [1; 0]%Q [1; 0]%Q 3 [].

Definition ortho_empty : RandomOrthoGraph.t Q :=
  RandomOrthoGraph.Mk [] ∅ [] [].

Definition ortho_example_st0 : RandomOrthoGraph.t Q :=
  match RandomOrthoGraph.init ortho_example 1%Q None with
  | Ok st => st
  | Error _ => ortho_empty
  end.

Definition ortho_example_st1 : RandomOrthoGraph.t Q :=
  match ortho_call ortho_example_st0 (0%nat, []) with
  | Ok (_, st) => st
  | Error _ => ortho_empty
  end.

Definition sv_random_example : Base Q :=
  MkBase [[1; 0]; [0; 2]]%Q [1; 1]%Q [0; 0]%Q [0; 0]%Q 2 [1; 2]%Q.

(** Binary64 systems: residual magnitudes [1, 3, 3] at the stored iterate,
    and a system in which the product [A[1] @ x] is [inf - inf]. *)
Definition max_distance_float_example : Base float :=
  MkBase [[1; 0]; [0; 1]; [1; 1]]%float [1; 3; 3]%float [0; 0]%float
    [0; 0]%float 3 [].

Definition max_distance_nan_example : Base float :=
  MkBase [[1; 0]; [0x1p1023; -0x1p1023]; [0; 1]]%float [0; 0; 92]%float
    [2; 2]%float [2; 2]%float 3 [].

(** Binary64 systems for the quantile family: residual magnitudes [1, 2] at
    the iterate [[0]]; a system whose first residual at the iterate
    [[-2^1023]] is [2^1023 + 2^1023], which overflows; and a system whose
    second residual magnitude at [[0]] is the double nearest [1e-8], the
    first being zero. *)
Definition quantile_float_example : Base float :=
  MkBase [[1]; [1]]%float [1; 2]%float [0]%float [0]%float 2 [].

Definition quantile_overflow_example : Base float :=
  MkBase [[1]; [1]]%float [0x1p1023; 1]%float [0]%float [0]%float 2 [].

Definition quantile_boundary_example : Base float :=
  MkBase [[1]; [1]]%float [0; 0x1.5798ee2308c3ap-27]%float [0]%float
    [0]%float 2 [].

(** Python's [<] on pairs of numbers: the first components that differ
    decide. *)
Definition pair_ltb {R : Type} `{Scalar R} (p q : R * R) : bool :=
  if s_eqb p.1 q.1
  then (if s_eqb p.2 q.2 then false else s_ltb p.2 q.2)
  else s_ltb p.1 q.1.

(** Whether a key compares below [(float("inf"), float("inf"))], the
    initial value of [best_residual_norms]. *)
Definition below_inf {R : Type} `{Scalar R} (k : R * R) : bool :=
  Lookahead.tuple_ltb (Fin k.1, Fin k.2) (Inf, Inf).

(** The loop invariant of the search of [Lookahead] after the candidates
    [0 .. s-1]: either no key compared below the initial one and nothing is
    selected, or [best_i] is the first candidate no key is below, and
    [next_i] is its greedy continuation. *)
Definition search_inv {R : Type} `{Scalar R}
    (update_iterate : Base R → list R → Z → list R) (norm : list R → R)
    (self : Base R) (s : Z) (acc : Lookahead.search_state) : Prop :=
  (acc = (-1, -1, (Inf, Inf))
   ∧ ∀ j, 0 ≤ j < s →
       ∃ j2 key, Lookahead.candidate update_iterate norm self j = Ok (j2, key)
                 ∧ below_inf key = false)
  ∨ ∃ best_i next_i key,
      acc = (best_i, next_i, (Fin key.1, Fin key.2))
      ∧ 0 ≤ best_i < s
      ∧ Lookahead.candidate update_iterate norm self best_i = Ok (next_i, key)
      ∧ below_inf key = true
      ∧ ∀ j, 0 ≤ j < s →
          ∃ j2 key',
            Lookahead.candidate update_iterate norm self j = Ok (j2, key')
            ∧ pair_ltb key' key = false
            ∧ (j < best_i → pair_ltb key key' = true).

(** What the search has selected, with no assumption on the comparisons:
    nothing, or a candidate [best_i] together with its second-step index
    [next_i]. *)
Definition selected {R : Type} `{Scalar R}
    (update_iterate : Base R → list R → Z → list R) (norm : list R → R)
    (self : Base R) (s : Z) (acc : Lookahead.search_state) : Prop :=
  acc = (-1, -1, (Inf, Inf))
  ∨ ∃ best_i next_i key,
      acc = (best_i, next_i, (Fin key.1, Fin key.2))
      ∧ 0 ≤ best_i < s
      ∧ Lookahead.candidate update_iterate norm self best_i
        = Ok (next_i, key).

(** Both components of a key lie in [K]. *)
Definition in_K {R : Type} (K : R → Prop) (p : R * R) : Prop :=
  K p.1 ∧ K p.2.

(** Modelled from the spec, in binary64: the row update of the base solver
    (orthogonal projection onto the hyperplane of row [i]) and the
    Euclidean norm [sqrt(v @ v)]; they instantiate the parameters
    [update_iterate] and [norm] in binary64 examples. *)
Definition project_float (self : Base float) (x : list float) (i : Z)
    : list float :=
  match getitem (A_ self) i, getitem (b_ self) i with
  | Ok row, Ok bi =>
      let c := ((bi - dot row x) / dot row row)%float in
      zip_with (λ xj aj, (xj + c * aj)%float) x row
  | _, _ => x
  end.

Definition norm_float (v : list float) : float := sqrt (dot v v).

(** Binary64 systems for [Lookahead]: the identity system with right-hand
    side [[1, 2]], and a system whose projections overflow. *)
Definition lookahead_float_example : Base float :=
  MkBase [[1; 0]; [0; 1]]%float [1; 2]%float [0; 0]%float [0; 0]%float 2 [].

Definition lookahead_overflow_example : Base float :=
  MkBase [[1]; [1]]%float [0x1p1023; -0x1p1023]%float [0]%float [0]%float
    2 [].

(** ** Further definitions used to state properties *)

(** One call of [Lookahead] on the pair (solver state, argument [xk]). *)
Definition lookahead_call (update_iterate : Base Q → list Q → Z → list Q)
    (norm : list Q → Q) (next_i : option Z) (c : Base Q * list Q)
    : py (Z * option Z) :=
  Lookahead.select_row_index update_iterate norm c.1 next_i c.2.

(** Whether the call number [k] of a run that starts with the cache
    [next_i] finds the cache empty. *)
Definition searches (next_i : option Z) (k : nat) : bool :=
  match next_i with None => Nat.even k | Some _ => Nat.odd k end.

(** What [np.random.choice(n, size, replace=False)] can produce. *)
Definition valid_sample (n size : Z) (sample : list Z) : Prop :=
  Z.of_nat (length sample) = size
  ∧ NoDup sample
  ∧ ∀ i, i ∈ sample → 0 ≤ i < n.

(** ** Further concrete systems used in the examples *)

(** A system that its initial iterate solves. *)
Definition solved_example : Base Q :=
  MkBase [[1; 0]; [0; 1]]%Q [1; 1]%Q [1; 1]%Q [1; 1]%Q 2 [].

Definition identity_ortho_st0 : RandomOrthoGraph.t Q :=
  match RandomOrthoGraph.init identity_example 1%Q None with
  | Ok st => st
  | Error _ => ortho_empty
  end.

Definition identity_ortho_st1 : RandomOrthoGraph.t Q :=
  match ortho_call identity_ortho_st0 (0%nat, []) with
  | Ok (_, st) => st
  | Error _ => ortho_empty
  end.

Definition identity_ortho_st2 : RandomOrthoGraph.t Q :=
  match ortho_call identity_ortho_st1 (0%nat, []) with
  | Ok (_, st) => st
  | Error _ => ortho_empty
  end.

Definition ortho_example_st2 : RandomOrthoGraph.t Q :=
  match ortho_call ortho_example_st1 (0%nat, []) with
  | Ok (_, st) => st
  | Error _ => ortho_empty
  end.

(** * Binary64: the order of the comparisons *)

Ltac cmp_cases :=
  repeat match goal with
  | H : context [Z.compare ?a ?b] |- _ =>
      destruct (Z.compare_spec a b); simpl in H
  | H : context [Pos.compare_cont Eq ?a ?b] |- _ =>
      change (Pos.compare_cont Eq a b) with (Pos.compare a b) in H;
      destruct (Pos.compare_spec a b); simpl in H
  | |- context [Z.compare ?a ?b] =>
      destruct (Z.compare_spec a b); simpl
  | |- context [Pos.compare_cont Eq ?a ?b] =>
      change (Pos.compare_cont Eq a b) with (Pos.compare a b);
      destruct (Pos.compare_spec a b); simpl
  end.

Ltac sf_cases :=
  repeat match goal with s : bool |- _ => destruct s end; simpl; try done.

Lemma SFleb_trans (a b c : spec_float) :
  SFleb a b = true → SFleb b c = true → SFleb a c = true.
Proof.
  unfold SFleb.
  destruct a as [sa|sa| |sa ma ea], b as [sb|sb| |sb mb eb],
    c as [sc|sc| |sc mc ec]; simpl; try done; sf_cases;
    intros Hab Hbc; cmp_cases; subst; try done; try lia.
Qed.

Lemma SFleb_total (a b : spec_float) :
  SFeqb a a = true → SFeqb b b = true →
  SFleb a b = true ∨ SFleb b a = true.
Proof.
  unfold SFleb, SFeqb.
  destruct a as [sa|sa| |sa ma ea], b as [sb|sb| |sb mb eb]; simpl; try done;
    sf_cases; auto; intros _ _; cmp_cases; subst; auto; try lia.
Qed.

Lemma SFltb_leb (a b : spec_float) :
  SFeqb a a = true → SFeqb b b = true → SFltb a b = negb (SFleb b a).
Proof.
  unfold SFleb, SFltb, SFeqb.
  destruct a as [sa|sa| |sa ma ea], b as [sb|sb| |sb mb eb]; simpl; try done;
    sf_cases; intros _ _; cmp_cases; subst; try done; try lia.
Qed.

Lemma SFeqb_leb (a b : spec_float) :
  SFeqb a b = SFleb a b && SFleb b a.
Proof.
  unfold SFleb, SFeqb.
  destruct a as [sa|sa| |sa ma ea], b as [sb|sb| |sb mb eb]; simpl; try done;
    sf_cases; cmp_cases; subst; try done; try lia.
Qed.

Lemma SFleb_nan (a b : spec_float) :
  SFeqb a a = false → SFleb a b = false ∧ SFleb b a = false.
Proof.
  unfold SFleb, SFeqb.
  destruct a as [sa|sa| |sa ma ea]; simpl; sf_cases.
  - by destruct b.
  - rewrite Z.compare_refl, Pos.compare_cont_refl. done.
  - rewrite Z.compare_refl, Pos.compare_cont_refl. done.
Qed.

Lemma float_isnan_eqb (x : float) :
  s_isnan x = negb (SFeqb (Prim2SF x) (Prim2SF x)).
Proof. unfold s_isnan. simpl. by rewrite eqb_spec. Qed.

Lemma float_leb_trans (x y z : float) :
  (x <=? y)%float = true → (y <=? z)%float = true → (x <=? z)%float = true.
Proof. rewrite !leb_spec. apply SFleb_trans. Qed.

Lemma float_leb_total (x y : float) :
  s_isnan x = false → s_isnan y = false →
  (x <=? y)%float = true ∨ (y <=? x)%float = true.
Proof.
  rewrite !float_isnan_eqb, !leb_spec, !negb_false_iff. apply SFleb_total.
Qed.

Lemma float_ltb_leb (x y : float) :
  s_isnan x = false → s_isnan y = false →
  (x <? y)%float = negb (y <=? x)%float.
Proof.
  rewrite !float_isnan_eqb, !leb_spec, ltb_spec, !negb_false_iff.
  apply SFltb_leb.
Qed.

Lemma float_eqb_leb (x y : float) :
  (x =? y)%float = (x <=? y)%float && (y <=? x)%float.
Proof. rewrite eqb_spec, !leb_spec. apply SFeqb_leb. Qed.

Lemma float_leb_nan (x y : float) :
  s_isnan x = true →
  (x <=? y)%float = false ∧ (y <=? x)%float = false.
Proof.
  rewrite float_isnan_eqb, !leb_spec, negb_true_iff. apply SFleb_nan.
Qed.

(** * Cyclic *)

Section cyclic_facts.
Context {R : Type}.

Lemma cyclic_select_ok (m r : Z) (xk : list R) :
  0 < m →
  Cyclic.select_row_index (Cyclic.Mk m r) xk
  = Ok ((1 + r) `mod` m, Cyclic.Mk m ((1 + r) `mod` m)).
Proof.
  intros Hm. unfold Cyclic.select_row_index, py_mod. simpl.
  destruct (m =? 0) eqn:E; [lia | reflexivity].
Qed.

Lemma cyclic_run_lookup (xks : list (list R)) (m r : Z) :
  0 < m →
  ∃ outs st',
    run_calls Cyclic.select_row_index (Cyclic.Mk m r) xks = Ok (outs, st')
    ∧ length outs = length xks
    ∧ ∀ j : nat, (j < length xks)%nat →
        outs !! j = Some ((r + 1 + Z.of_nat j) `mod` m).
Proof.
  intros Hm. revert r. induction xks as [|xk xks IH]; intros r.
  - exists [], (Cyclic.Mk m r). simpl. split; [done|]. split; [done|]. intros; lia.
  - destruct (IH ((1 + r) `mod` m)) as (outs & st' & Hrun & Hlen & Hlk).
    exists ((1 + r) `mod` m :: outs), st'. simpl.
    rewrite cyclic_select_ok by done. simpl. rewrite Hrun. simpl.
    split; [done|]. split; [by rewrite Hlen|].
    intros [|j] Hj; simpl.
    + f_equal. f_equal. lia.
    + rewrite Hlk by lia. f_equal.
      replace ((1 + r) `mod` m + 1 + Z.of_nat j)
        with ((1 + r) `mod` m + (1 + Z.of_nat j)) by lia.
      rewrite Zplus_mod_idemp_l. f_equal. lia.
Qed.

End cyclic_facts.

Lemma rotation_lookup (m k : Z) (j : nat) :
  0 < m → 0 ≤ k → (Z.of_nat j < m) →
  (drop (Z.to_nat (k `mod` m)) (seqZ 0 m) ++ take (Z.to_nat (k `mod` m)) (seqZ 0 m)) !! j
  = Some ((k + Z.of_nat j) `mod` m).
Proof.
  intros Hm Hk Hj.
  pose proof (Z.mod_pos_bound k m Hm) as Hr.
  set (r := k `mod` m) in *.
  assert (Hkj : (k + Z.of_nat j) `mod` m = (r + Z.of_nat j) `mod` m).
  { unfold r. by rewrite Zplus_mod_idemp_l. }
  rewrite Hkj.
  destruct (decide (r + Z.of_nat j < m)) as [Hlt|Hge].
  - rewrite lookup_app_l by (rewrite length_drop, length_seqZ; lia).
    rewrite lookup_drop, lookup_seqZ_lt by lia.
    rewrite Z.mod_small by lia. f_equal. lia.
  - rewrite lookup_app_r by (rewrite length_drop, length_seqZ; lia).
    rewrite length_drop, length_seqZ.
    rewrite lookup_take_lt by lia. rewrite lookup_seqZ_lt by lia.
    f_equal.
    replace (r + Z.of_nat j) with ((r + Z.of_nat j - m) + 1 * m) by lia.
    rewrite Z_mod_plus_full. rewrite Z.mod_small by lia. lia.
Qed.

Lemma rotation_window (m k : Z) :
  0 < m → 0 ≤ k →
  (λ j : nat, (k + Z.of_nat j) `mod` m) <$> seq 0 (Z.to_nat m)
  = drop (Z.to_nat (k `mod` m)) (seqZ 0 m) ++ take (Z.to_nat (k `mod` m)) (seqZ 0 m).
Proof.
  intros Hm Hk. apply list_eq. intros j.
  pose proof (Z.mod_pos_bound k m Hm) as Hr.
  destruct (decide (Z.of_nat j < m)) as [Hlt|Hge].
  - rewrite rotation_lookup by done.
    rewrite list_lookup_fmap, lookup_seq_lt by lia. done.
  - rewrite !lookup_ge_None_2; [done| |].
    + rewrite length_app, length_drop, length_take, length_seqZ. lia.
    + rewrite length_fmap, length_seq. lia.
Qed.

(** C1. With [m > 0] rows, the calls of [Cyclic] never raise and the [k]-th
    call (from zero) returns [k mod m]: every index returned is a row and
    none is [SKIP]; any [m] consecutive calls return a permutation of
    [0, ..., m-1]; each call returns the successor of the previous index,
    wrapping from [m-1] to [0]; and the call [k+m] returns what the call [k]
    returned. *)
Theorem cyclic_round_robin {R : Type} (m : Z) (xks : list (list R)) :
  0 < m →
  ∃ outs st',
    run_calls Cyclic.select_row_index (Cyclic.init m) xks = Ok (outs, st')
    ∧ length outs = length xks
    ∧ (∀ k : nat, (k < length xks)%nat → outs !! k = Some (Z.of_nat k `mod` m))
    ∧ Forall (λ i, 0 ≤ i < m ∧ i ≠ SKIP) outs
    ∧ (∀ k : nat, (k + Z.to_nat m ≤ length xks)%nat →
         take (Z.to_nat m) (drop k outs) ≡ₚ seqZ 0 m)
    ∧ (∀ (k : nat) (i i' : Z), outs !! k = Some i → outs !! S k = Some i' →
         i' = if decide (i = m - 1) then 0 else i + 1)
    ∧ (∀ (k : nat) (i : Z), outs !! k = Some i →
         (k + Z.to_nat m < length xks)%nat →
         outs !! (k + Z.to_nat m)%nat = Some i).
Proof.
  intros Hm.
  destruct (cyclic_run_lookup xks m (-1) Hm) as (outs & st' & Hrun & Hlen & Hlk).
  assert (Hnth : ∀ k : nat, (k < length xks)%nat →
            outs !! k = Some (Z.of_nat k `mod` m)).
  { intros k Hk. by rewrite Hlk. }
  exists outs, st'. split; [exact Hrun|]. split; [exact Hlen|].
  split; [exact Hnth|]. repeat split.
  - apply Forall_lookup_2. intros k i Hi.
    assert (Hk : (k < length xks)%nat).
    { rewrite <- Hlen. by eapply lookup_lt_Some. }
    rewrite Hnth in Hi by done. injection Hi as <-.
    pose proof (Z.mod_pos_bound (Z.of_nat k) m Hm). unfold SKIP. lia.
  - intros k Hk.
    assert (Hwin : take (Z.to_nat m) (drop k outs)
              = (λ j : nat, (Z.of_nat k + Z.of_nat j) `mod` m) <$> seq 0 (Z.to_nat m)).
    { apply list_eq. intros j.
      destruct (decide (j < Z.to_nat m)%nat) as [Hj|Hj].
      - rewrite lookup_take_lt, lookup_drop by done.
        rewrite Hnth by lia.
        rewrite list_lookup_fmap, lookup_seq_lt by done. simpl.
        f_equal. f_equal. lia.
      - rewrite !lookup_ge_None_2; [done| |].
        + rewrite length_fmap, length_seq. lia.
        + rewrite length_take, length_drop. lia. }
    rewrite Hwin, rotation_window by lia.
    rewrite Permutation_app_comm. by rewrite take_drop.
  - intros k i i' Hi Hi'.
    assert (Hk : (S k < length xks)%nat).
    { rewrite <- Hlen. by eapply lookup_lt_Some. }
    rewrite Hnth in Hi, Hi' by lia. injection Hi as <-. injection Hi' as <-.
    pose proof (Z.mod_pos_bound (Z.of_nat k) m Hm) as Hr.
    replace (Z.of_nat (S k)) with (Z.of_nat k + 1) by lia.
    rewrite <- Zplus_mod_idemp_l.
    case_decide as Hw.
    + rewrite Hw. replace (m - 1 + 1) with (0 + 1 * m) by lia.
      by rewrite Z_mod_plus_full.
    + apply Z.mod_small. lia.
  - intros k i Hi Hk.
    rewrite Hnth in Hi by lia. injection Hi as <-.
    rewrite Hnth by lia. f_equal.
    replace (Z.of_nat (k + Z.to_nat m)) with (Z.of_nat k + 1 * m) by lia.
    by rewrite Z_mod_plus_full.
Qed.

Lemma cyclic_round_robin_witness :
  0 < 3 ∧
  ∃ outs st',
    run_calls Cyclic.select_row_index (Cyclic.init 3) (replicate 7 ([] : list Q))
    = Ok (outs, st')
    ∧ length outs = 7%nat
    ∧ (∀ k : nat, (k < 7)%nat → outs !! k = Some (Z.of_nat k `mod` 3))
    ∧ Forall (λ i, 0 ≤ i < 3 ∧ i ≠ SKIP) outs
    ∧ (∀ k : nat, (k + Z.to_nat 3 ≤ 7)%nat →
         take (Z.to_nat 3) (drop k outs) ≡ₚ seqZ 0 3)
    ∧ (∀ (k : nat) (i i' : Z), outs !! k = Some i → outs !! S k = Some i' →
         i' = if decide (i = 3 - 1) then 0 else i + 1)
    ∧ (∀ (k : nat) (i : Z), outs !! k = Some i →
         (k + Z.to_nat 3 < 7)%nat →
         outs !! (k + Z.to_nat 3)%nat = Some i).
Proof.
  split; [lia|].
  apply (cyclic_round_robin 3 (replicate 7 ([] : list Q))). lia.
Defined.

Example cyclic_first_calls :
  run_calls Cyclic.select_row_index (Cyclic.init 3) (replicate 7 ([] : list Q))
  = Ok ([0; 1; 2; 0; 1; 2; 0], Cyclic.Mk 3 0).
Proof. reflexivity. Qed.

(** The scenario [A = [[1,0],[0,1]]], [b = [1,1]], [x0 = [0,0]]: [Cyclic]
    selects row [0] then row [1], and the projections give [[1,0]] then
    [[1,1]]. *)
Example cyclic_end_to_end :
  run_calls Cyclic.select_row_index (Cyclic.init 2) [[0; 0]; [1; 0]]%Q
  = Ok ([0; 1], Cyclic.Mk 2 1)
  ∧ project identity_example [0; 0]%Q 0 = [1; 0]%Q
  ∧ project identity_example [1; 0]%Q 1 = [1; 1]%Q.
Proof. repeat split; reflexivity. Qed.

(** * MaxDistance *)

Lemma Q_leb_false (x y : Q) : Qle_bool x y = false ↔ (y < x)%Q.
Proof.
  split.
  - intros E. apply Qnot_le_lt. intros Hle. apply Qle_bool_iff in Hle. congruence.
  - intros Hlt. destruct (Qle_bool x y) eqn:E; [|done].
    apply Qle_bool_iff in E. lra.
Qed.

(** The scan under a comparison that is a total preorder on the entries
    it meets, none of them NaN. *)
Section argmax_ordered.
Context {R : Type} `{Scalar R}.
Variable L : list R.
Hypothesis Hnan : ∀ x, x ∈ L → s_isnan x = false.
Hypothesis Htotal :
  ∀ x y, x ∈ L → y ∈ L → s_leb x y = true ∨ s_leb y x = true.
Hypothesis Htrans :
  ∀ x y z, x ∈ L → y ∈ L → z ∈ L →
    s_leb x y = true → s_leb y z = true → s_leb x z = true.

Lemma leb_false_trans (x y z : R) :
  x ∈ L → y ∈ L → z ∈ L →
  s_leb x y = false → s_leb y z = false → s_leb x z = false.
Proof.
  intros Hx Hy Hz Hxy Hyz.
  destruct (s_leb x z) eqn:Hxz; [|done].
  destruct (Htotal y x Hy Hx) as [Hyx|Hxy']; [|congruence].
  rewrite (Htrans y x z) in Hyz; done.
Qed.

Lemma argmax_scan_ordered (l : list R) (best_i i : Z) (best : R) :
  best ∈ L → (∀ w, w ∈ l → w ∈ L) →
  let r := argmax_scan best_i best i l in
  (r = best_i ∧ ∀ w, w ∈ l → s_leb w best = true)
  ∨ (∃ (j : nat) (v : R),
        r = i + Z.of_nat j ∧ l !! j = Some v ∧ s_leb v best = false
        ∧ (∀ (j' : nat) w, (j' < j)%nat → l !! j' = Some w →
             s_leb v w = false)
        ∧ ∀ w, w ∈ l → s_leb w v = true).
Proof.
  revert best_i i best.
  induction l as [|x l IH]; intros best_i i best Hbest Hsub; simpl.
  - left. split; [done|]. intros w Hw. by apply elem_of_nil in Hw.
  - assert (Hx : x ∈ L) by (apply Hsub; left).
    assert (Hsub' : ∀ w, w ∈ l → w ∈ L) by (intros w Hw; apply Hsub; by right).
    destruct (s_leb x best) eqn:E; simpl.
    + destruct (IH best_i (i + 1) best Hbest Hsub')
        as [[Hr Hall]|(j & v & Hr & Hv & Hlt & Hbefore & Hall)].
      * left. split; [done|]. intros w [->|Hw]%elem_of_cons; auto.
      * assert (Hv' : v ∈ L) by (apply Hsub'; by eapply list_elem_of_lookup_2).
        assert (Hvx : s_leb v x = false).
        { destruct (s_leb v x) eqn:Hvx; [|done].
          rewrite (Htrans v x best) in Hlt; done. }
        right. exists (S j), v. repeat split; simpl; auto.
        -- rewrite Hr. lia.
        -- intros [|j'] w Hj' Hw; simpl in Hw.
           ++ by injection Hw as <-.
           ++ eapply Hbefore; [|done]. lia.
        -- intros w [->|Hw]%elem_of_cons; [|auto].
           destruct (Htotal x v Hx Hv'); [done|congruence].
    + rewrite (Hnan x Hx).
      destruct (IH i (i + 1) x Hx Hsub')
        as [[Hr Hall]|(j & v & Hr & Hv & Hlt & Hbefore & Hall)].
      * right. exists 0%nat, x. repeat split; simpl; auto.
        -- rewrite Hr. lia.
        -- intros; lia.
        -- intros w [->|Hw]%elem_of_cons; [|auto].
           by destruct (Htotal x x Hx Hx).
      * assert (Hv' : v ∈ L) by (apply Hsub'; by eapply list_elem_of_lookup_2).
        right. exists (S j), v. repeat split; simpl; auto.
        -- rewrite Hr. lia.
        -- by apply (leb_false_trans v x best).
        -- intros [|j'] w Hj' Hw; simpl in Hw.
           ++ by injection Hw as <-.
           ++ eapply Hbefore; [|done]. lia.
        -- intros w [->|Hw]%elem_of_cons; [|auto].
           destruct (Htotal x v Hx Hv'); [done|congruence].
Qed.

End argmax_ordered.

(** [np.argmax] on a sequence without NaN that its comparison orders
    totally: the position of the first entry no other entry exceeds. *)
Lemma np_argmax_ordered {R : Type} `{Scalar R} (l : list R) :
  l ≠ [] →
  (∀ x, x ∈ l → s_isnan x = false) →
  (∀ x y, x ∈ l → y ∈ l → s_leb x y = true ∨ s_leb y x = true) →
  (∀ x y z, x ∈ l → y ∈ l → z ∈ l →
     s_leb x y = true → s_leb y z = true → s_leb x z = true) →
  ∃ (i : nat) (v : R),
    np_argmax l = Ok (Z.of_nat i) ∧ l !! i = Some v
    ∧ (∀ (j : nat) w, l !! j = Some w → s_leb w v = true)
    ∧ (∀ (j : nat) w, (j < i)%nat → l !! j = Some w → s_leb v w = false).
Proof.
  destruct l as [|x l]; [done|]. intros _ Hnan Htotal Htrans. simpl.
  assert (Hx : x ∈ x :: l) by left.
  rewrite (Hnan x Hx).
  destruct (argmax_scan_ordered (x :: l) Hnan Htotal Htrans l 0 1 x Hx)
    as [[Hr Hall]|(j & v & Hr & Hv & Hlt & Hbefore & Hall)].
  { intros w Hw. by right. }
  - exists 0%nat, x. rewrite Hr. repeat split; auto.
    + intros [|j] w Hw; simpl in Hw.
      * injection Hw as <-. by destruct (Htotal x x Hx Hx).
      * apply Hall. by eapply list_elem_of_lookup_2.
    + intros; lia.
  - assert (Hv' : v ∈ x :: l) by (right; by eapply list_elem_of_lookup_2).
    exists (S j), v. rewrite Hr. repeat split; auto.
    + do 2 f_equal. lia.
    + intros [|j'] w Hw; simpl in Hw.
      * injection Hw as <-. destruct (Htotal x v Hx Hv'); [done|congruence].
      * apply Hall. by eapply list_elem_of_lookup_2.
    + intros [|j'] w Hj' Hw; simpl in Hw.
      * by injection Hw as <-.
      * eapply Hbefore; [|done]. lia.
Qed.

Lemma np_argmax_spec (l : list Q) :
  l ≠ [] →
  ∃ (i : nat) (v : Q),
    np_argmax l = Ok (Z.of_nat i) ∧ l !! i = Some v
    ∧ (∀ (j : nat) w, l !! j = Some w → (w <= v)%Q)
    ∧ (∀ (j : nat) w, (j < i)%nat → l !! j = Some w → (w < v)%Q).
Proof.
  intros Hne.
  destruct (np_argmax_ordered l Hne) as (i & v & Hsel & Hv & Hmax & Hfirst).
  - intros x _. unfold s_isnan. simpl. by rewrite Qeq_bool_refl.
  - intros x y _ _. simpl. destruct (Qlt_le_dec y x) as [Hlt|Hle].
    + right. apply Qle_bool_iff. lra.
    + left. by apply Qle_bool_iff.
  - intros x y z _ _ _. simpl. rewrite !Qle_bool_iff. lra.
  - exists i, v. repeat split; auto.
    + intros j w Hw. apply Qle_bool_iff. by eapply Hmax.
    + intros j w Hj Hw. apply Q_leb_false. by eapply Hfirst.
Qed.

Lemma magnitude_lookup {R : Type} `{Scalar R} (self : Base R) (x : list R)
    (i : nat) :
  np_abs (np_sub (b_ self) (matvec (A_ self) x)) !! i = row_magnitude self x i.
Proof.
  unfold np_abs, np_sub, matvec, row_magnitude.
  rewrite list_lookup_fmap, lookup_zip_with, list_lookup_fmap.
  destruct (b_ self !! i); simpl; [|done].
  by destruct (A_ self !! i).
Qed.

Lemma residual_lookup (self : Base Q) (x : list Q) (i : nat) :
  np_abs (np_sub (b_ self) (matvec (A_ self) x)) !! i
  = Qabs <$> row_residual self x i.
Proof.
  unfold np_abs, np_sub, matvec, row_residual.
  rewrite list_lookup_fmap, lookup_zip_with, list_lookup_fmap.
  destruct (b_ self !! i); simpl; [|done].
  by destruct (A_ self !! i).
Qed.

Lemma residual_length {R : Type} `{Scalar R} (self : Base R) (x : list R) :
  length (b_ self) = length (A_ self) →
  length (np_abs (np_sub (b_ self) (matvec (A_ self) x))) = length (A_ self).
Proof.
  intros Hlen. unfold np_abs, np_sub, matvec.
  rewrite length_fmap, length_zip_with, length_fmap. lia.
Qed.

(** In exact arithmetic the residual has no NaN: the returned row is the
    first one of largest residual magnitude, for every iterate. *)
Lemma max_distance_exact (self : Base Q) (xk : list Q) :
  well_formed self → 0 < n_rows_ self →
  ∃ (i : nat) (ri : Q),
    MaxDistance.select_row_index self xk = Ok (Z.of_nat i)
    ∧ 0 ≤ Z.of_nat i < n_rows_ self
    ∧ row_residual self (xk_ self) i = Some ri
    ∧ ∀ j : nat, Z.of_nat j < n_rows_ self →
        ∃ rj, row_residual self (xk_ self) j = Some rj
              ∧ (Qabs rj <= Qabs ri)%Q
              ∧ ((j < i)%nat → (Qabs rj < Qabs ri)%Q).
Proof.
  intros [Hn Hb] Hpos.
  set (l := np_abs (np_sub (b_ self) (matvec (A_ self) (xk_ self)))).
  assert (Hlen : length l = length (A_ self)) by by apply residual_length.
  destruct (np_argmax_spec l) as (i & v & Hsel & Hv & Hmax & Hfirst).
  { intros E. rewrite E in Hlen. simpl in Hlen. lia. }
  assert (Hi : (i < length l)%nat) by by eapply lookup_lt_Some.
  unfold l in Hv. rewrite residual_lookup in Hv.
  destruct (row_residual self (xk_ self) i) as [ri|] eqn:Hri; [|done].
  injection Hv as <-.
  exists i, ri. split; [exact Hsel|]. split; [lia|]. split; [done|].
  intros j Hj.
  destruct (lookup_lt_is_Some_2 l j) as [w Hw]; [lia|].
  pose proof Hw as Hw'. unfold l in Hw'. rewrite residual_lookup in Hw'.
  destruct (row_residual self (xk_ self) j) as [rj|] eqn:Hrj; [|done].
  injection Hw' as <-.
  exists rj. split; [done|]. split; [by eapply Hmax|].
  intros Hlt. by eapply Hfirst.
Qed.

(** In binary64 the scan stops at the first NaN. *)
Lemma argmax_scan_first_nan (pre post : list float) (x : float)
    (best_i i : Z) (best : float) :
  (∀ w, w ∈ pre → s_isnan w = false) → s_isnan x = true →
  argmax_scan best_i best i (pre ++ x :: post) = i + Z.of_nat (length pre).
Proof.
  intros Hpre Hx. revert best_i i best.
  induction pre as [|w pre IH]; intros best_i i best; simpl.
  - destruct (float_leb_nan x best Hx) as [-> _]. simpl.
    rewrite Hx. lia.
  - assert (Hw : s_isnan w = false) by (apply Hpre; left).
    assert (Hpre' : ∀ w', w' ∈ pre → s_isnan w' = false)
      by (intros w' Hw'; apply Hpre; by right).
    rewrite Hw. destruct (negb (w <=? best)%float);
      rewrite (IH Hpre'); lia.
Qed.

Lemma np_argmax_first_nan (l : list float) (i : nat) (x : float) :
  l !! i = Some x → s_isnan x = true →
  (∀ (j : nat) w, (j < i)%nat → l !! j = Some w → s_isnan w = false) →
  np_argmax l = Ok (Z.of_nat i).
Proof.
  intros Hx Hnan Hbefore.
  destruct l as [|y l]; [done|]. simpl.
  destruct i as [|i]; simpl in Hx.
  - injection Hx as ->. by rewrite Hnan.
  - rewrite (Hbefore 0%nat y) by (done || lia).
    rewrite <- (take_drop_middle l i x Hx).
    rewrite argmax_scan_first_nan; [| |done].
    + rewrite length_take_le; [do 2 f_equal; lia|].
      apply lookup_lt_Some in Hx. lia.
    + intros w Hw. apply list_elem_of_lookup_1 in Hw as [j Hj].
      pose proof (lookup_lt_Some _ _ _ Hj) as Hlt.
      rewrite length_take in Hlt.
      rewrite lookup_take_lt in Hj by lia.
      apply (Hbefore (S j) w); [lia|done].
Qed.

(** C2 (binary64).  On a well-formed system with at least one row,
    [MaxDistance] returns, when no residual magnitude
    [|b[i] - A[i] @ x|] at the stored iterate is NaN, a row whose magnitude
    is at least that of every row and strictly above that of every row
    before it (the first occurrence of the maximum); and when some
    magnitude is NaN, the first row whose magnitude is NaN. *)
Theorem max_distance_selects_largest_residual (self : Base float)
    (xk : list float) :
  well_formed self → 0 < n_rows_ self →
  ((∀ (j : nat) w, row_magnitude self (xk_ self) j = Some w →
      s_isnan w = false) →
   ∃ (i : nat) (v : float),
     MaxDistance.select_row_index self xk = Ok (Z.of_nat i)
     ∧ 0 ≤ Z.of_nat i < n_rows_ self
     ∧ row_magnitude self (xk_ self) i = Some v
     ∧ ∀ j : nat, Z.of_nat j < n_rows_ self →
         ∃ w, row_magnitude self (xk_ self) j = Some w
              ∧ (w <=? v)%float = true
              ∧ ((j < i)%nat → (w <? v)%float = true))
  ∧ (∀ (i : nat) (v : float),
       row_magnitude self (xk_ self) i = Some v → s_isnan v = true →
       (∀ (j : nat) w, (j < i)%nat →
          row_magnitude self (xk_ self) j = Some w → s_isnan w = false) →
       MaxDistance.select_row_index self xk = Ok (Z.of_nat i)).
Proof.
  intros [Hn Hb] Hpos.
  unfold MaxDistance.select_row_index.
  set (l := np_abs (np_sub (b_ self) (matvec (A_ self) (xk_ self)))).
  assert (Hlen : length l = length (A_ self)) by by apply residual_length.
  assert (Hl : ∀ j, l !! j = row_magnitude self (xk_ self) j)
    by (intros j; apply magnitude_lookup).
  split.
  - intros Hnan.
    assert (Hnan' : ∀ x, x ∈ l → s_isnan x = false).
    { intros x [j Hj]%list_elem_of_lookup_1. rewrite Hl in Hj.
      by eapply Hnan. }
    destruct (np_argmax_ordered l) as (i & v & Hsel & Hv & Hmax & Hfirst).
    + intros E. rewrite E in Hlen. simpl in Hlen. lia.
    + exact Hnan'.
    + intros x y Hx Hy. apply float_leb_total; auto.
    + intros x y z _ _ _. apply float_leb_trans.
    + assert (Hi : (i < length l)%nat) by by eapply lookup_lt_Some.
      exists i, v. split; [exact Hsel|]. split; [lia|].
      split; [by rewrite <- Hl|].
      intros j Hj.
      destruct (lookup_lt_is_Some_2 l j) as [w Hw]; [lia|].
      exists w. split; [by rewrite <- Hl|]. split; [by eapply Hmax|].
      intros Hlt. rewrite float_ltb_leb.
      * simpl in Hfirst. by rewrite (Hfirst j w Hlt Hw).
      * apply Hnan'. by eapply list_elem_of_lookup_2.
      * apply Hnan'. by eapply list_elem_of_lookup_2.
  - intros i v Hv Hnan Hbefore.
    apply (np_argmax_first_nan l i v); [by rewrite Hl|done|].
    intros j w Hj Hw. rewrite Hl in Hw. by eapply Hbefore.
Qed.

Lemma max_distance_selects_largest_residual_witness :
  well_formed max_distance_float_example
  ∧ 0 < n_rows_ max_distance_float_example
  ∧ ∃ (i : nat) (v : float),
     MaxDistance.select_row_index max_distance_float_example []
     = Ok (Z.of_nat i)
     ∧ 0 ≤ Z.of_nat i < n_rows_ max_distance_float_example
     ∧ row_magnitude max_distance_float_example
         (xk_ max_distance_float_example) i = Some v
     ∧ ∀ j : nat, Z.of_nat j < n_rows_ max_distance_float_example →
         ∃ w, row_magnitude max_distance_float_example
                (xk_ max_distance_float_example) j = Some w
              ∧ (w <=? v)%float = true
              ∧ ((j < i)%nat → (w <? v)%float = true).
Proof.
  assert (Hwf : well_formed max_distance_float_example)
    by (split; reflexivity).
  assert (Hpos : 0 < n_rows_ max_distance_float_example) by (simpl; lia).
  split; [exact Hwf|]. split; [exact Hpos|].
  apply (max_distance_selects_largest_residual max_distance_float_example []
           Hwf Hpos).
  intros [|[|[|j]]] w Hw; vm_compute in Hw; try discriminate;
    injection Hw as <-; reflexivity.
Defined.

(** C2, counterexample: with [A[1] @ x = inf - inf] the residual of row 1 is
    NaN; row 1 is returned, and its magnitude is not at least that, [90], of
    row 2. *)
Lemma max_distance_nan_row_selected :
  MaxDistance.select_row_index max_distance_nan_example [] = Ok 1
  ∧ row_magnitude max_distance_nan_example
      (xk_ max_distance_nan_example) 1 = Some nan
  ∧ row_magnitude max_distance_nan_example
      (xk_ max_distance_nan_example) 2 = Some 90%float
  ∧ (90 <=? nan)%float = false.
Proof. repeat split; vm_compute; reflexivity. Qed.

Example max_distance_first_of_ties :
  MaxDistance.select_row_index max_distance_example [] = Ok 1
  ∧ MaxDistance.select_row_index max_distance_float_example [] = Ok 1.
Proof. split; reflexivity. Qed.

(** * Lookahead *)

Lemma lex_lt_le_trans (p q r : Q * Q) : lex_lt p q → lex_le q r → lex_lt p r.
Proof.
  unfold lex_lt, lex_le. destruct p, q, r; simpl.
  intros [?|[? ?]] [?|[? ?]]; [left; lra|left; lra|left; lra|right; split; lra].
Qed.

Lemma lex_lt_le (p q : Q * Q) : lex_lt p q → lex_le p q.
Proof.
  unfold lex_lt, lex_le. intros [?|[? ?]]; [by left|right; split; [done|lra]].
Qed.

Lemma lex_le_refl (p : Q * Q) : lex_le p p.
Proof. right. split; [reflexivity|lra]. Qed.

Lemma lex_not_lt_le (p q : Q * Q) : ¬ lex_lt p q → lex_le q p.
Proof.
  unfold lex_lt, lex_le. destruct p as [a c], q as [a' c']; simpl. intros Hn.
  destruct (Qlt_le_dec a' a) as [?|Hle]; [by left|].
  right. destruct (Qlt_le_dec a a') as [?|Hle']; [exfalso; apply Hn; by left|].
  assert (Heq : (a == a')%Q) by lra. split; [lra|].
  destruct (Qlt_le_dec c c') as [?|?]; [exfalso; apply Hn; by right|lra].
Qed.

Section lookahead_facts.
Variable update_iterate : Base Q → list Q → Z → list Q.
Variable norm : list Q → Q.

Lemma tuple_ltb_fin (p q : Q * Q) :
  Lookahead.tuple_ltb (Fin p.1, Fin p.2) (Fin q.1, Fin q.2) = true ↔ lex_lt p q.
Proof.
  destruct p as [a c], q as [a' c']. unfold Lookahead.tuple_ltb, lex_lt. simpl.
  destruct (Qeq_bool a a') eqn:Ea.
  - apply Qeq_bool_iff in Ea.
    destruct (Qeq_bool c c') eqn:Ec.
    + apply Qeq_bool_iff in Ec. split; [done|]. intros [?|[? ?]]; lra.
    + apply Qeq_bool_neq in Ec.
      destruct (Qle_bool c' c) eqn:El; simpl.
      * apply Qle_bool_iff in El. split; [done|]. intros [?|[? ?]]; lra.
      * apply Q_leb_false in El. split; [|done]. intros _. right. split; [done|lra].
  - apply Qeq_bool_neq in Ea.
    destruct (Qle_bool a' a) eqn:El; simpl.
    + apply Qle_bool_iff in El. split; [done|]. intros [?|[? ?]]; [lra|done].
    + apply Q_leb_false in El. split; [|done]. intros _. by left.
Qed.

Lemma candidate_ok (self : Base Q) (ik : Z) :
  well_formed self → 0 < n_rows_ self →
  ∃ ik2 key, Lookahead.candidate update_iterate norm self ik = Ok (ik2, key).
Proof.
  intros [Hn Hb] Hpos. unfold Lookahead.candidate.
  set (next_xk := update_iterate self (xk_ self) ik).
  set (l := np_abs (np_sub (b_ self) (matvec (A_ self) next_xk))).
  destruct (np_argmax_spec l) as (i & v & Hsel & _).
  { intros E. pose proof (residual_length self next_xk Hb) as Hlen.
    fold l in Hlen. rewrite E in Hlen. simpl in Hlen. lia. }
  rewrite Hsel. simpl. eauto.
Qed.

Lemma search_step_invariant (self : Base Q) (s : Z)
    (acc : Lookahead.search_state) :
  well_formed self → 0 < n_rows_ self →
  best_so_far update_iterate norm self s acc →
  ∃ acc',
    Lookahead.search_step update_iterate norm self acc s = Ok acc'
    ∧ best_so_far update_iterate norm self (s + 1) acc'.
Proof.
  intros Hwf Hpos (best_i & next_i & key & -> & Hbi & Hcand & Hmin).
  destruct (candidate_ok self s Hwf Hpos) as (s2 & ks & Hs).
  unfold Lookahead.search_step. rewrite Hs. simpl.
  destruct ks as [n2 n1]. simpl.
  destruct (Lookahead.tuple_ltb (Fin n2, Fin n1) (Fin key.1, Fin key.2)) eqn:E.
  - apply (tuple_ltb_fin (n2, n1) key) in E.
    eexists. split; [reflexivity|].
    exists s, s2, (n2, n1). split; [done|]. split; [lia|]. split; [done|].
    intros j Hj. destruct (decide (j = s)) as [->|Hne].
    + exists s2, (n2, n1). split; [done|]. split; [apply lex_le_refl|lia].
    + destruct (Hmin j) as (j2 & kj & Hj2 & Hle & _); [lia|].
      exists j2, kj. split; [done|].
      assert (lex_lt (n2, n1) kj) by by eapply lex_lt_le_trans.
      split; [by apply lex_lt_le|done].
  - eexists. split; [reflexivity|].
    exists best_i, next_i, key. split; [done|]. split; [lia|]. split; [done|].
    intros j Hj. destruct (decide (j = s)) as [->|Hne].
    + exists s2, (n2, n1). split; [done|]. split; [|lia].
      apply lex_not_lt_le. intros Hlt. apply (tuple_ltb_fin (n2, n1) key) in Hlt.
      simpl in Hlt. congruence.
    + apply Hmin. lia.
Qed.

Lemma for_each_invariant (self : Base Q) (k : nat) (s : Z)
    (acc : Lookahead.search_state) :
  well_formed self → 0 < n_rows_ self →
  best_so_far update_iterate norm self s acc →
  ∃ acc',
    Lookahead.for_each (Lookahead.search_step update_iterate norm self) acc
      (seqZ s (Z.of_nat k)) = Ok acc'
    ∧ best_so_far update_iterate norm self (s + Z.of_nat k) acc'.
Proof.
  intros Hwf Hpos. revert s acc. induction k as [|k IH]; intros s acc Hinv.
  - exists acc. split; [done|]. by rewrite Z.add_0_r.
  - rewrite seqZ_cons by lia.
    destruct (search_step_invariant self s acc Hwf Hpos Hinv)
      as (acc1 & Hstep & Hinv1).
    simpl. rewrite Hstep. simpl.
    replace (Z.pred (Z.of_nat (S k))) with (Z.of_nat k) by lia.
    destruct (IH (Z.succ s) acc1) as (acc' & Hrun & Hinv').
    { by replace (Z.succ s) with (s + 1) by lia. }
    exists acc'. split; [done|].
    by replace (s + Z.of_nat (S k)) with (Z.succ s + Z.of_nat k) by lia.
Qed.

Lemma search_finds_first_least (self : Base Q) :
  well_formed self → 0 < n_rows_ self →
  ∃ acc, Lookahead.search update_iterate norm self = Ok acc
         ∧ best_so_far update_iterate norm self (n_rows_ self) acc.
Proof.
  intros Hwf Hpos. unfold Lookahead.search, py_range.
  rewrite seqZ_cons by lia.
  destruct (candidate_ok self 0 Hwf Hpos) as (i2 & key & Hc).
  assert (Hfirst :
    Lookahead.search_step update_iterate norm self (-1, -1, (Inf, Inf)) 0
    = Ok (0, i2, (Fin key.1, Fin key.2))).
  { unfold Lookahead.search_step. rewrite Hc. simpl. by destruct key. }
  simpl. rewrite Hfirst. simpl.
  destruct (for_each_invariant self (Z.to_nat (Z.pred (n_rows_ self))) 1
              (0, i2, (Fin key.1, Fin key.2)) Hwf Hpos) as (acc & Hrun & Hinv).
  { exists 0, i2, key. split; [done|]. split; [lia|]. split; [done|].
    intros j Hj. assert (j = 0) as -> by lia.
    exists i2, key. split; [done|]. split; [apply lex_le_refl|lia]. }
  rewrite Z2Nat.id in Hrun, Hinv by lia.
  replace (1 + Z.pred (n_rows_ self)) with (n_rows_ self) in Hinv by lia.
  exists acc. split; [exact Hrun|exact Hinv].
Qed.

(** In exact arithmetic, on a well-formed system with at least one row, a
    call of [Lookahead] that finds its cache empty returns the first
    candidate [i] whose key [(norm after two steps, norm after one step)]
    is lexicographically least, and caches the second-step index [i2]
    computed for that candidate; the following call returns exactly [i2]
    and leaves the cache empty, without searching. *)
Lemma lookahead_exact (self : Base Q) (xk : list Q) :
  well_formed self → 0 < n_rows_ self →
  ∃ (i i2 : Z) (key : Q * Q),
    Lookahead.select_row_index update_iterate norm self None xk
    = Ok (i, Some i2)
    ∧ 0 ≤ i < n_rows_ self
    ∧ Lookahead.candidate update_iterate norm self i = Ok (i2, key)
    ∧ (∀ j, 0 ≤ j < n_rows_ self →
         ∃ j2 key',
           Lookahead.candidate update_iterate norm self j = Ok (j2, key')
           ∧ lex_le key key' ∧ (j < i → lex_lt key key'))
    ∧ ∀ (self' : Base Q) (xk' : list Q),
        Lookahead.select_row_index update_iterate norm self' (Some i2) xk'
        = Ok (i2, None).
Proof.
  intros Hwf Hpos.
  destruct (search_finds_first_least self Hwf Hpos)
    as (acc & Hsearch & best_i & next_i & key & -> & Hbi & Hcand & Hmin).
  exists best_i, next_i, key.
  split; [|split; [done|split; [done|split; [done|done]]]].
  unfold Lookahead.select_row_index. by rewrite Hsearch.
Qed.

End lookahead_facts.

Example lookahead_two_calls :
  Lookahead.select_row_index project sq_norm identity_example None []
  = Ok (0, Some 1)
  ∧ Lookahead.select_row_index project sq_norm identity_example (Some 1) []
    = Ok (1, None).
Proof. split; reflexivity. Qed.

(** * Lookahead: the order of the keys *)

(** Python's [<] on pairs is a strict weak order wherever [<=] is a total
    preorder with which [<] and [==] agree. *)
Section lex_order.
Context {R : Type} `{Scalar R}.
Variable K : R → Prop.
Hypothesis Htotal :
  ∀ x y, K x → K y → s_leb x y = true ∨ s_leb y x = true.
Hypothesis Htrans :
  ∀ x y z, K x → K y → K z →
    s_leb x y = true → s_leb y z = true → s_leb x z = true.
Hypothesis Hlt : ∀ x y, K x → K y → s_ltb x y = negb (s_leb y x).
Hypothesis Heq : ∀ x y, K x → K y → s_eqb x y = s_leb x y && s_leb y x.

Lemma leb_lt_trans (x y z : R) :
  K x → K y → K z →
  s_leb y x = false → s_leb z y = false → s_leb z x = false.
Proof.
  intros Hx Hy Hz Hyx Hzy. destruct (s_leb z x) eqn:E; [|done].
  destruct (Htotal x y Hx Hy) as [Hxy|Hyx']; [|congruence].
  rewrite (Htrans z x y) in Hzy; done.
Qed.

Lemma leb_lt_le_trans (x y z : R) :
  K x → K y → K z →
  s_leb y x = false → s_leb y z = true → s_leb z x = false.
Proof.
  intros Hx Hy Hz Hyx Hyz. destruct (s_leb z x) eqn:E; [|done].
  rewrite (Htrans y z x) in Hyx; done.
Qed.

Lemma leb_le_lt_trans (x y z : R) :
  K x → K y → K z →
  s_leb x y = true → s_leb z y = false → s_leb z x = false.
Proof.
  intros Hx Hy Hz Hxy Hzy. destruct (s_leb z x) eqn:E; [|done].
  rewrite (Htrans z x y) in Hzy; done.
Qed.

Lemma pair_ltb_true (p q : R * R) :
  in_K K p → in_K K q →
  pair_ltb p q = true ↔
  s_leb q.1 p.1 = false
  ∨ (s_leb p.1 q.1 = true ∧ s_leb q.1 p.1 = true ∧ s_leb q.2 p.2 = false).
Proof.
  intros [Hp1 Hp2] [Hq1 Hq2]. unfold pair_ltb.
  rewrite !Heq, !Hlt by done.
  destruct (s_leb p.1 q.1) eqn:E1, (s_leb q.1 p.1) eqn:E2,
    (s_leb p.2 q.2) eqn:E3, (s_leb q.2 p.2) eqn:E4; simpl;
    split; try done; auto; intros [?|(? & ? & ?)]; done.
Qed.

Lemma pair_ltb_false (p q : R * R) :
  in_K K p → in_K K q →
  pair_ltb p q = false ↔
  s_leb q.1 p.1 = true ∧ (s_leb p.1 q.1 = false ∨ s_leb q.2 p.2 = true).
Proof.
  intros [Hp1 Hp2] [Hq1 Hq2]. unfold pair_ltb.
  rewrite !Heq, !Hlt by done.
  destruct (s_leb p.1 q.1) eqn:E1, (s_leb q.1 p.1) eqn:E2,
    (s_leb p.2 q.2) eqn:E3, (s_leb q.2 p.2) eqn:E4; simpl;
    split; try done; auto; intros [? [?|?]]; done.
Qed.

Lemma pair_ltb_irrefl (p : R * R) : in_K K p → pair_ltb p p = false.
Proof.
  intros Hp. apply pair_ltb_false; [done|done|]. destruct Hp as [Hp1 Hp2].
  split; [by destruct (Htotal p.1 p.1)|right; by destruct (Htotal p.2 p.2)].
Qed.

Lemma pair_ltb_trans (p q r : R * R) :
  in_K K p → in_K K q → in_K K r →
  pair_ltb p q = true → pair_ltb q r = true → pair_ltb p r = true.
Proof.
  intros Hp Hq Hr. rewrite !pair_ltb_true by done.
  destruct Hp as [Hp1 Hp2], Hq as [Hq1 Hq2], Hr as [Hr1 Hr2].
  intros [Hpq|(Hpq & Hqp & Hpq2)] [Hqr|(Hqr & Hrq & Hqr2)].
  - left. by apply (leb_lt_trans p.1 q.1 r.1).
  - left. by apply (leb_lt_le_trans p.1 q.1 r.1).
  - left. by apply (leb_le_lt_trans p.1 q.1 r.1).
  - right. split; [by apply (Htrans p.1 q.1 r.1)|].
    split; [by apply (Htrans r.1 q.1 p.1)|].
    by apply (leb_lt_trans p.2 q.2 r.2).
Qed.

Lemma pair_ltb_neg_trans (p q r : R * R) :
  in_K K p → in_K K q → in_K K r →
  pair_ltb p q = true → pair_ltb r q = false → pair_ltb p r = true.
Proof.
  intros Hp Hq Hr.
  rewrite !pair_ltb_true, pair_ltb_false by done.
  destruct Hp as [Hp1 Hp2], Hq as [Hq1 Hq2], Hr as [Hr1 Hr2].
  intros [Hpq|(Hpq & Hqp & Hpq2)] [Hqr Hcase].
  - left. by apply (leb_lt_le_trans p.1 q.1 r.1).
  - destruct (s_leb r.1 q.1) eqn:Hrq.
    + destruct Hcase as [?|Hqr2]; [done|].
      right. split; [by apply (Htrans p.1 q.1 r.1)|].
      split; [by apply (Htrans r.1 q.1 p.1)|].
      by apply (leb_lt_le_trans p.2 q.2 r.2).
    + left. by apply (leb_le_lt_trans p.1 q.1 r.1).
Qed.

End lex_order.

Lemma np_argmax_total {R : Type} `{Scalar R} (l : list R) :
  l ≠ [] → ∃ i, np_argmax l = Ok i.
Proof.
  destruct l as [|x l]; [done|]. intros _. simpl.
  destruct (s_isnan x); eauto.
Qed.

(** The search of [Lookahead] over the candidates of a well-formed system,
    where the keys lie in a set [K] on which the comparisons are a total
    preorder; [below_inf] is compatible with the order of the keys. *)
Section lookahead_search.
Context {R : Type} `{Scalar R}.
Variable update_iterate : Base R → list R → Z → list R.
Variable norm : list R → R.
Variable self : Base R.
Hypothesis Hwf : well_formed self.
Hypothesis Hpos : 0 < n_rows_ self.

Lemma candidate_total (j : Z) :
  ∃ i2 key, Lookahead.candidate update_iterate norm self j = Ok (i2, key).
Proof.
  unfold Lookahead.candidate. cbv zeta.
  destruct Hwf as [Hn Hb].
  destruct (np_argmax_total
    (np_abs (np_sub (b_ self)
       (matvec (A_ self) (update_iterate self (xk_ self) j)))))
    as [i2 Hi2].
  { intros E. apply (f_equal length) in E.
    rewrite residual_length in E by done. simpl in E. lia. }
  rewrite Hi2. simpl. eauto.
Qed.

Lemma search_step_unfold (acc : Lookahead.search_state) (s i2 : Z)
    (key : R * R) :
  Lookahead.candidate update_iterate norm self s = Ok (i2, key) →
  Lookahead.search_step update_iterate norm self acc s
  = Ok (if Lookahead.tuple_ltb (Fin key.1, Fin key.2) acc.2
        then (s, i2, (Fin key.1, Fin key.2)) else acc).
Proof.
  intros Hc. unfold Lookahead.search_step. rewrite Hc. destruct key. simpl.
  by destruct (Lookahead.tuple_ltb _ _).
Qed.

(** Without any assumption on the comparisons: what is selected is a
    candidate, and what is cached is its second-step index. *)
Lemma search_step_selected (s : Z) (acc : Lookahead.search_state) :
  0 ≤ s → selected update_iterate norm self s acc →
  ∃ acc', Lookahead.search_step update_iterate norm self acc s = Ok acc'
          ∧ selected update_iterate norm self (s + 1) acc'.
Proof.
  intros Hs Hacc.
  destruct (candidate_total s) as (i2 & ks & Hc).
  rewrite (search_step_unfold acc s i2 ks Hc).
  destruct (Lookahead.tuple_ltb (Fin ks.1, Fin ks.2) acc.2).
  - eexists. split; [done|]. right. exists s, i2, ks.
    split; [done|]. split; [lia|done].
  - exists acc. split; [done|].
    destruct Hacc as [->|(bi & ni & key & -> & Hbi & Hcand)]; [by left|].
    right. exists bi, ni, key. split; [done|]. split; [lia|done].
Qed.

Lemma for_each_selected (k : nat) (s : Z) (acc : Lookahead.search_state) :
  0 ≤ s → selected update_iterate norm self s acc →
  ∃ acc',
    Lookahead.for_each (Lookahead.search_step update_iterate norm self) acc
      (seqZ s (Z.of_nat k)) = Ok acc'
    ∧ selected update_iterate norm self (s + Z.of_nat k) acc'.
Proof.
  revert s acc. induction k as [|k IH]; intros s acc Hs Hinv.
  - exists acc. split; [done|]. by rewrite Z.add_0_r.
  - rewrite seqZ_cons by lia.
    destruct (search_step_selected s acc Hs Hinv) as (acc1 & Hstep & Hinv1).
    simpl. rewrite Hstep. simpl.
    replace (Z.pred (Z.of_nat (S k))) with (Z.of_nat k) by lia.
    destruct (IH (Z.succ s) acc1) as (acc' & Hrun & Hinv'); [lia| |].
    { by replace (Z.succ s) with (s + 1) by lia. }
    exists acc'. split; [done|].
    by replace (s + Z.of_nat (S k)) with (Z.succ s + Z.of_nat k) by lia.
Qed.

Lemma search_selected :
  ∃ acc, Lookahead.search update_iterate norm self = Ok acc
         ∧ selected update_iterate norm self (n_rows_ self) acc.
Proof.
  unfold Lookahead.search, py_range.
  destruct (for_each_selected (Z.to_nat (n_rows_ self)) 0 (-1, -1, (Inf, Inf)))
    as (acc & Hrun & Hinv); [lia|by left|].
  rewrite Z2Nat.id in Hrun, Hinv by lia.
  exists acc. split; [exact Hrun|]. by rewrite Z.add_0_l in Hinv.
Qed.

(** With ordered keys. *)
Variable K : R → Prop.
Hypothesis Htotal :
  ∀ x y, K x → K y → s_leb x y = true ∨ s_leb y x = true.
Hypothesis Htrans :
  ∀ x y z, K x → K y → K z →
    s_leb x y = true → s_leb y z = true → s_leb x z = true.
Hypothesis Hlt : ∀ x y, K x → K y → s_ltb x y = negb (s_leb y x).
Hypothesis Heq : ∀ x y, K x → K y → s_eqb x y = s_leb x y && s_leb y x.
Hypothesis Hkeys :
  ∀ j j2 key, 0 ≤ j < n_rows_ self →
    Lookahead.candidate update_iterate norm self j = Ok (j2, key) →
    in_K K key.
Hypothesis Hinf_trans :
  ∀ k k', in_K K k → in_K K k' →
    pair_ltb k k' = true → below_inf k' = true → below_inf k = true.
Hypothesis Hinf_neg :
  ∀ k k', in_K K k → in_K K k' →
    below_inf k = true → below_inf k' = false → pair_ltb k k' = true.

Lemma search_step_inv (s : Z) (acc : Lookahead.search_state) :
  0 ≤ s < n_rows_ self → search_inv update_iterate norm self s acc →
  ∃ acc', Lookahead.search_step update_iterate norm self acc s = Ok acc'
          ∧ search_inv update_iterate norm self (s + 1) acc'.
Proof.
  intros Hs Hacc.
  destruct (candidate_total s) as (i2 & ks & Hc).
  assert (Hks : in_K K ks) by (eapply (Hkeys s); [lia|done]).
  rewrite (search_step_unfold acc s i2 ks Hc).
  destruct Hacc as [[-> Hall]|(bi & ni & key & -> & Hbi & Hcand & Hbelow & Hall)].
  - assert (E : Lookahead.tuple_ltb (Fin ks.1, Fin ks.2)
                  ((-1, -1, (Inf, Inf)) : Lookahead.search_state).2
                = below_inf ks) by reflexivity.
    rewrite E. clear E.
    destruct (below_inf ks) eqn:Hb.
    + eexists. split; [done|]. right. exists s, i2, ks.
      split; [done|]. split; [lia|]. split; [done|]. split; [done|].
      intros j Hj. destruct (decide (j = s)) as [->|Hne].
      * exists i2, ks. split; [done|].
        split; [by apply (pair_ltb_irrefl K)|lia].
      * destruct (Hall j) as (j2 & key' & Hcj & Hbj); [lia|].
        assert (Hkj : in_K K key') by (eapply (Hkeys j); [lia|done]).
        exists j2, key'. split; [done|]. split.
        -- destruct (pair_ltb key' ks) eqn:E; [|done].
           rewrite (Hinf_trans key' ks) in Hbj; done.
        -- intros _. by apply Hinf_neg.
    + exists (-1, -1, (Inf, Inf)). split; [done|]. left. split; [done|].
      intros j Hj. destruct (decide (j = s)) as [->|Hne].
      * by exists i2, ks.
      * apply Hall. lia.
  - assert (Hk : in_K K key) by (eapply (Hkeys bi); [lia|done]).
    assert (E : Lookahead.tuple_ltb (Fin ks.1, Fin ks.2)
                  ((bi, ni, (Fin key.1, Fin key.2))
                     : Lookahead.search_state).2
                = pair_ltb ks key) by reflexivity.
    rewrite E. clear E.
    destruct (pair_ltb ks key) eqn:Hb.
    + eexists. split; [done|]. right. exists s, i2, ks.
      split; [done|]. split; [lia|]. split; [done|].
      split; [by apply (Hinf_trans ks key)|].
      intros j Hj. destruct (decide (j = s)) as [->|Hne].
      * exists i2, ks. split; [done|].
        split; [by apply (pair_ltb_irrefl K)|lia].
      * destruct (Hall j) as (j2 & key' & Hcj & Hnb & _); [lia|].
        assert (Hkj : in_K K key') by (eapply (Hkeys j); [lia|done]).
        exists j2, key'. split; [done|]. split.
        -- destruct (pair_ltb key' ks) eqn:E; [|done].
           rewrite (pair_ltb_trans K Htotal Htrans Hlt Heq key' ks key)
             in Hnb; done.
        -- intros _.
           by apply (pair_ltb_neg_trans K Htrans Hlt Heq ks key).
    + exists (bi, ni, (Fin key.1, Fin key.2)). split; [done|]. right.
      exists bi, ni, key. split; [done|]. split; [lia|]. split; [done|].
      split; [done|].
      intros j Hj. destruct (decide (j = s)) as [->|Hne].
      * exists i2, ks. split; [done|]. split; [done|lia].
      * apply Hall. lia.
Qed.

Lemma for_each_inv (k : nat) (s : Z) (acc : Lookahead.search_state) :
  0 ≤ s → s + Z.of_nat k ≤ n_rows_ self →
  search_inv update_iterate norm self s acc →
  ∃ acc',
    Lookahead.for_each (Lookahead.search_step update_iterate norm self) acc
      (seqZ s (Z.of_nat k)) = Ok acc'
    ∧ search_inv update_iterate norm self (s + Z.of_nat k) acc'.
Proof.
  revert s acc. induction k as [|k IH]; intros s acc Hs Hk Hinv.
  - exists acc. split; [done|]. by rewrite Z.add_0_r.
  - rewrite seqZ_cons by lia.
    destruct (search_step_inv s acc) as (acc1 & Hstep & Hinv1); [lia|done|].
    simpl. rewrite Hstep. simpl.
    replace (Z.pred (Z.of_nat (S k))) with (Z.of_nat k) by lia.
    destruct (IH (Z.succ s) acc1) as (acc' & Hrun & Hinv'); [lia|lia| |].
    { by replace (Z.succ s) with (s + 1) by lia. }
    exists acc'. split; [done|].
    by replace (s + Z.of_nat (S k)) with (Z.succ s + Z.of_nat k) by lia.
Qed.

Lemma search_ordered :
  ∃ acc, Lookahead.search update_iterate norm self = Ok acc
         ∧ search_inv update_iterate norm self (n_rows_ self) acc.
Proof.
  unfold Lookahead.search, py_range.
  destruct (for_each_inv (Z.to_nat (n_rows_ self)) 0 (-1, -1, (Inf, Inf)))
    as (acc & Hrun & Hinv); [lia|lia| |].
  { left. split; [done|]. intros j Hj. lia. }
  rewrite Z2Nat.id in Hrun, Hinv by lia.
  exists acc. split; [exact Hrun|]. by rewrite Z.add_0_l in Hinv.
Qed.

End lookahead_search.

(** In binary64 the comparison with [(inf, inf)] is the comparison of
    pairs. *)
Lemma below_inf_float (k : float * float) :
  below_inf k = pair_ltb k (infinity, infinity).
Proof. reflexivity. Qed.

Section lookahead_binary64.
Variable update_iterate : Base float → list float → Z → list float.
Variable norm : list float → float.

(** C3 (binary64).  On a well-formed system with at least one row, a call
    of [Lookahead] that finds its cache empty returns a pair [(i, i2)] and
    caches [i2]: either [i = i2 = -1], or [i] is a row and [i2] the
    second-step index computed for the candidate [i] in this search; the
    following call, whatever the solver state and its argument, returns
    exactly [i2] and leaves the cache empty, without searching.  When no
    norm among the keys [(norm after two steps, norm after one step)] is
    NaN: [i = -1] exactly when no key compares below [(inf, inf)], and
    otherwise [i] is the first candidate whose key no key is below. *)
Theorem lookahead_cache_is_second_step (self : Base float)
    (xk : list float) :
  well_formed self → 0 < n_rows_ self →
  ∃ i i2 : Z,
    Lookahead.select_row_index update_iterate norm self None xk
    = Ok (i, Some i2)
    ∧ ((i = -1 ∧ i2 = -1)
       ∨ (0 ≤ i < n_rows_ self
          ∧ ∃ key, Lookahead.candidate update_iterate norm self i
                   = Ok (i2, key)))
    ∧ (∀ (self' : Base float) (xk' : list float),
         Lookahead.select_row_index update_iterate norm self' (Some i2) xk'
         = Ok (i2, None))
    ∧ ((∀ j j2 key,
          0 ≤ j < n_rows_ self →
          Lookahead.candidate update_iterate norm self j = Ok (j2, key) →
          s_isnan key.1 = false ∧ s_isnan key.2 = false) →
       (i = -1 ∧ i2 = -1
        ∧ ∀ j, 0 ≤ j < n_rows_ self →
            ∃ j2 key,
              Lookahead.candidate update_iterate norm self j = Ok (j2, key)
              ∧ below_inf key = false)
       ∨ (0 ≤ i < n_rows_ self
          ∧ ∃ key,
              Lookahead.candidate update_iterate norm self i = Ok (i2, key)
              ∧ below_inf key = true
              ∧ ∀ j, 0 ≤ j < n_rows_ self →
                  ∃ j2 key',
                    Lookahead.candidate update_iterate norm self j
                    = Ok (j2, key')
                    ∧ pair_ltb key' key = false
                    ∧ (j < i → pair_ltb key key' = true))).
Proof.
  intros Hwf Hpos.
  destruct (search_selected update_iterate norm self Hwf Hpos)
    as (acc & Hsearch & Hsel).
  destruct acc as [[i i2] best].
  exists i, i2.
  split; [unfold Lookahead.select_row_index; by rewrite Hsearch|].
  split.
  { destruct Hsel as [[= -> -> _]|(bi & ni & key & [= -> -> _] & Hbi & Hc)].
    - by left.
    - right. split; [done|]. by exists key. }
  split; [done|].
  intros Hnan.
  pose (K := λ x : float, s_isnan x = false).
  assert (HinfK : in_K K (infinity, infinity)) by (split; reflexivity).
  assert (Htotal : ∀ x y, K x → K y → s_leb x y = true ∨ s_leb y x = true)
    by (intros x y; apply float_leb_total).
  assert (Htrans : ∀ x y z, K x → K y → K z →
            s_leb x y = true → s_leb y z = true → s_leb x z = true)
    by (intros x y z _ _ _; apply float_leb_trans).
  assert (Hlt : ∀ x y, K x → K y → s_ltb x y = negb (s_leb y x))
    by (intros x y; apply float_ltb_leb).
  assert (Heq : ∀ x y, K x → K y → s_eqb x y = s_leb x y && s_leb y x)
    by (intros x y _ _; apply float_eqb_leb).
  destruct (search_ordered update_iterate norm self Hwf Hpos K
              Htotal Htrans Hlt Heq) as (acc' & Hsearch' & Hinv).
  - intros j j2 key Hj Hc. by apply (Hnan j j2 key).
  - intros k k' Hk Hk'. rewrite !below_inf_float.
    by apply (pair_ltb_trans K Htotal Htrans Hlt Heq).
  - intros k k' Hk Hk'. rewrite !below_inf_float.
    by apply (pair_ltb_neg_trans K Htrans Hlt Heq).
  - rewrite Hsearch in Hsearch'. injection Hsearch' as <-.
    destruct Hinv as [[[= -> -> _] Hall]
                     |(bi & ni & key & [= -> -> _] & Hbi & Hc & Hb & Hall)].
    + by left.
    + right. split; [done|]. by exists key.
Qed.

End lookahead_binary64.

Lemma lookahead_cache_is_second_step_witness :
  well_formed lookahead_float_example ∧ 0 < n_rows_ lookahead_float_example
  ∧ ∃ i i2 : Z,
    Lookahead.select_row_index project_float norm_float
      lookahead_float_example None [] = Ok (i, Some i2)
    ∧ (∀ (self' : Base float) (xk' : list float),
         Lookahead.select_row_index project_float norm_float self'
           (Some i2) xk' = Ok (i2, None))
    ∧ ((i = -1 ∧ i2 = -1
        ∧ ∀ j, 0 ≤ j < n_rows_ lookahead_float_example →
            ∃ j2 key,
              Lookahead.candidate project_float norm_float
                lookahead_float_example j = Ok (j2, key)
              ∧ below_inf key = false)
       ∨ (0 ≤ i < n_rows_ lookahead_float_example
          ∧ ∃ key,
              Lookahead.candidate project_float norm_float
                lookahead_float_example i = Ok (i2, key)
              ∧ below_inf key = true
              ∧ ∀ j, 0 ≤ j < n_rows_ lookahead_float_example →
                  ∃ j2 key',
                    Lookahead.candidate project_float norm_float
                      lookahead_float_example j = Ok (j2, key')
                    ∧ pair_ltb key' key = false
                    ∧ (j < i → pair_ltb key key' = true))).
Proof.
  assert (Hwf : well_formed lookahead_float_example) by (split; reflexivity).
  assert (Hpos : 0 < n_rows_ lookahead_float_example) by (simpl; lia).
  split; [exact Hwf|]. split; [exact Hpos|].
  destruct (lookahead_cache_is_second_step project_float norm_float
              lookahead_float_example [] Hwf Hpos)
    as (i & i2 & Hsel & _ & Hnext & Hordered).
  exists i, i2. split; [exact Hsel|]. split; [exact Hnext|].
  apply Hordered. intros j j2 key Hj Hc.
  assert (j = 0 ∨ j = 1) as [-> | ->] by (simpl in Hj; lia);
    vm_compute in Hc; injection Hc as _ <-; split; reflexivity.
Defined.

(** C3, counterexample: with [b = [2^1023, -2^1023]] the projections
    overflow and both candidates have the key [(inf, inf)], which is not
    below the initial [(inf, inf)]: the search returns [-1] and caches
    [-1], and the following call returns [-1], the second-step index of no
    candidate (these are [1] and [0]). *)
Lemma lookahead_overflow_caches_skip :
  Lookahead.candidate project_float norm_float lookahead_overflow_example 0
  = Ok (1, (infinity, infinity))
  ∧ Lookahead.candidate project_float norm_float lookahead_overflow_example 1
    = Ok (0, (infinity, infinity))
  ∧ Lookahead.select_row_index project_float norm_float
      lookahead_overflow_example None [] = Ok (-1, Some (-1))
  ∧ Lookahead.select_row_index project_float norm_float
      lookahead_overflow_example (Some (-1)) [] = Ok (-1, None).
Proof. repeat split; vm_compute; reflexivity. Qed.

Example lookahead_binary64_two_calls :
  Lookahead.select_row_index project_float norm_float
    lookahead_float_example None [] = Ok (1, Some 0)
  ∧ Lookahead.select_row_index project_float norm_float
      lookahead_float_example (Some 0) [] = Ok (0, None).
Proof. split; vm_compute; reflexivity. Qed.

(** * Quantile *)


#[local] Instance Qle_transitive : Transitive Qle := Qle_trans.
#[local] Instance Qle_total : Total Qle.
Proof. intros x y. destruct (Qlt_le_dec x y); [left; lra|by right]. Qed.

Lemma strongly_sorted_lookup {A : Type} (R : relation A) (l : list A)
    (i j : nat) (x y : A) :
  StronglySorted R l → (i < j)%nat → l !! i = Some x → l !! j = Some y → R x y.
Proof.
  intros Hs. revert i j. induction Hs as [|a l Hs IH Hall]; intros i j Hij Hi Hj.
  - by rewrite lookup_nil in Hi.
  - destruct j as [|j]; [lia|]. simpl in Hj.
    destruct i as [|i]; simpl in Hi.
    + injection Hi as <-. rewrite Forall_forall in Hall. apply Hall.
      by eapply list_elem_of_lookup_2.
    + eapply (IH i j); [lia|done|done].
Qed.

Lemma np_sort_perm (a : list Q) : np_sort a ≡ₚ a.
Proof. apply merge_sort_Permutation. Qed.

Lemma np_sort_length (a : list Q) : length (np_sort a) = length a.
Proof. by rewrite np_sort_perm. Qed.

Lemma np_sort_sorted (a : list Q) : StronglySorted Qle (np_sort a).
Proof. apply StronglySorted_merge_sort; apply _. Qed.

Lemma np_sort_lookup_le (a : list Q) (i j : nat) (x y : Q) :
  (i ≤ j)%nat → np_sort a !! i = Some x → np_sort a !! j = Some y → (x <= y)%Q.
Proof.
  intros Hij Hi Hj. destruct (decide (i = j)) as [->|Hne].
  - rewrite Hi in Hj. injection Hj as <-. lra.
  - eapply (strongly_sorted_lookup Qle); [apply np_sort_sorted| |done|done]. lia.
Qed.

Lemma getitem_nonneg {A : Type} (l : list A) (i : Z) :
  0 ≤ i < Z.of_nat (length l) →
  ∃ x, getitem l i = Ok x ∧ l !! Z.to_nat i = Some x.
Proof.
  intros Hi. unfold getitem.
  destruct (i <? 0) eqn:E; [lia|].
  destruct (lookup_lt_is_Some_2 l (Z.to_nat i)) as [x Hx]; [lia|].
  exists x. rewrite Hx.
  destruct ((0 <=? i) && (i <? Z.of_nat (length l))) eqn:E'; [done|].
  apply andb_false_iff in E'. destruct E'; lia.
Qed.

Lemma np_quantile_eval (a : list Q) (q : Q) (previous : Z) :
  a ≠ [] → (0 <= q <= 1)%Q →
  Qfloor (q * inject_Z (Z.of_nat (length a) - 1)) = previous →
  np_quantile a q =
    (lo ← getitem (np_sort a) previous;
     hi ← getitem (np_sort a) (Z.min (previous + 1) (Z.of_nat (length a) - 1));
     Ok (lo + (hi - lo)
              * (q * inject_Z (Z.of_nat (length a) - 1) - inject_Z previous))%Q).
Proof.
  intros Ha [Hq0 Hq1] Hfloor. unfold np_quantile.
  apply Qle_bool_iff in Hq0, Hq1. rewrite Hq0, Hq1. cbn [andb negb]. cbv zeta.
  destruct (Z.of_nat (length a) =? 0) eqn:E.
  - destruct a; [done|]. simpl in E. lia.
  - by rewrite Hfloor.
Qed.

(** The quantile of order one is the largest value. *)
Lemma np_quantile_one (a : list Q) :
  a ≠ [] →
  ∃ v w, np_quantile a 1 = Ok v ∧ (v == w)%Q ∧ w ∈ a
         ∧ ∀ w', w' ∈ a → (w' <= w)%Q.
Proof.
  intros Ha.
  assert (Hn : (0 < length a)%nat) by (destruct a; [done|simpl; lia]).
  rewrite (np_quantile_eval a 1 (Z.of_nat (length a) - 1)); [|done|lra|].
  2:{ rewrite <- (Qfloor_Z (Z.of_nat (length a) - 1)) at 2.
      apply Qfloor_comp. ring. }
  destruct (getitem_nonneg (np_sort a) (Z.of_nat (length a) - 1)) as (w & Hget & Hw).
  { rewrite np_sort_length. lia. }
  rewrite Z.min_r by lia. rewrite Hget. simpl.
  eexists _, w. split; [reflexivity|]. split; [ring|]. split.
  - rewrite <- np_sort_perm. by eapply list_elem_of_lookup_2.
  - intros w' Hw'. rewrite <- np_sort_perm in Hw'.
    apply list_elem_of_lookup in Hw' as [j Hj].
    eapply np_sort_lookup_le; [|exact Hj|exact Hw].
    apply lookup_lt_Some in Hj. rewrite np_sort_length in Hj. lia.
Qed.

(** The quantile of order zero is the smallest value. *)
Lemma np_quantile_zero (a : list Q) :
  a ≠ [] →
  ∃ v w, np_quantile a 0 = Ok v ∧ (v == w)%Q ∧ w ∈ a
         ∧ ∀ w', w' ∈ a → (w <= w')%Q.
Proof.
  intros Ha.
  assert (Hn : (0 < length a)%nat) by (destruct a; [done|simpl; lia]).
  rewrite (np_quantile_eval a 0 0); [|done|lra|].
  2:{ rewrite <- (Qfloor_Z 0) at 2. apply Qfloor_comp. ring. }
  destruct (getitem_nonneg (np_sort a) 0) as (w & Hget & Hw).
  { rewrite np_sort_length. lia. }
  destruct (getitem_nonneg (np_sort a) (Z.min (0 + 1) (Z.of_nat (length a) - 1)))
    as (hi & Hget' & _).
  { rewrite np_sort_length. lia. }
  rewrite Hget, Hget'. simpl.
  eexists _, w. split; [reflexivity|]. split; [ring|]. split.
  - rewrite <- np_sort_perm. by eapply list_elem_of_lookup_2.
  - intros w' Hw'. rewrite <- np_sort_perm in Hw'.
    apply list_elem_of_lookup in Hw' as [j Hj].
    eapply np_sort_lookup_le; [|exact Hw|exact Hj]. simpl. lia.
Qed.

Lemma quantile_distance_ok (self : Base Q) (xk : list Q) (ik : Z) :
  well_formed self → 0 ≤ ik < n_rows_ self →
  ∃ r, row_residual self xk (Z.to_nat ik) = Some r
       ∧ Quantile.distance self xk ik = Ok (Qabs r)
       ∧ Quantile.threshold_distances self xk !! Z.to_nat ik = Some (Qabs r).
Proof.
  intros [Hn Hb] Hik.
  destruct (getitem_nonneg (b_ self) ik) as (bi & Hgb & Hbi); [lia|].
  destruct (getitem_nonneg (A_ self) ik) as (row & Hga & Hrow); [lia|].
  exists (bi - dot row xk)%Q.
  assert (Hres : row_residual self xk (Z.to_nat ik) = Some (bi - dot row xk)%Q).
  { unfold row_residual. rewrite Hbi. simpl. by rewrite Hrow. }
  split; [exact Hres|]. split.
  - unfold Quantile.distance. rewrite Hgb. simpl. by rewrite Hga.
  - unfold Quantile.threshold_distances. by rewrite residual_lookup, Hres.
Qed.

Lemma np_isclose_iff (d t : Q) :
  np_isclose d t = true ↔ (Qabs (d - t) <= atol + rtol * Qabs t)%Q.
Proof. unfold np_isclose. apply Qle_bool_iff. Qed.

Lemma np_isclose_eq (d t : Q) : (d == t)%Q → np_isclose d t = true.
Proof.
  intros Heq. apply np_isclose_iff. apply Qabs_Qle_condition.
  pose proof (Qabs_nonneg t). unfold atol, rtol. split; lra.
Qed.

(** The acceptance test of [Quantile._select_row_index] on a proposal in
    range, in terms of the quantile of the residual magnitudes. *)
Lemma quantile_select_unfold (self : Base Q) (p : option (list Q))
    (quantile : Q) (draw : Z) (xk : list Q) (d t : Q) :
  0 < n_rows_ self →
  Quantile.distance self xk draw = Ok d →
  np_quantile (Quantile.threshold_distances self xk) quantile = Ok t →
  Quantile.select_row_index self p quantile tt draw xk
  = Ok (if negb (Qle_bool t d) || np_isclose d t then draw else -1, tt).
Proof.
  intros Hpos Hd Ht.
  unfold Quantile.select_row_index, Random.select_row_index, Random.choice.
  destruct (n_rows_ self <=? 0) eqn:E; [lia|]. simpl.
  rewrite Hd. simpl. unfold Quantile.threshold. simpl. rewrite Ht. simpl.
  by destruct (negb (Qle_bool t d) || np_isclose d t).
Qed.

(** In exact arithmetic, with [quantile = 1], on a well-formed system, every
    proposal [draw] of the wrapped [Random] policy that is a row index is
    returned by [Quantile]. *)
Lemma quantile_one_exact (self : Base Q) (p : option (list Q))
    (draw : Z) (xk : list Q) :
  well_formed self → 0 ≤ draw < n_rows_ self →
  Quantile.select_row_index self p 1 tt draw xk = Ok (draw, tt)
  ∧ draw ≠ SKIP
  ∧ fst <$> Quantile.select_row_index self p 1 tt draw xk
    = Random.select_row_index self p draw xk.
Proof.
  intros Hwf Hdraw.
  destruct (quantile_distance_ok self xk draw Hwf Hdraw) as (r & Hr & Hd & Hin).
  destruct (np_quantile_one (Quantile.threshold_distances self xk))
    as (v & w & Hq & Hvw & Hw & Hmax).
  { intros E. by rewrite E in Hin. }
  assert (Hle : (Qabs r <= v)%Q).
  { rewrite Hvw. apply Hmax. by eapply list_elem_of_lookup_2. }
  assert (Hsel : Quantile.select_row_index self p 1 tt draw xk = Ok (draw, tt)).
  { rewrite (quantile_select_unfold self p 1 draw xk (Qabs r) v) by (done || lia).
    destruct (Qle_bool v (Qabs r)) eqn:E; simpl; [|done].
    apply Qle_bool_iff in E. rewrite np_isclose_eq; [done|lra]. }
  split; [exact Hsel|]. split; [unfold SKIP; lia|].
  rewrite Hsel. unfold Random.select_row_index, Random.choice.
  destruct (n_rows_ self <=? 0) eqn:E; [lia|done].
Qed.

(** In exact arithmetic, with [quantile = 0], on a well-formed system, the
    threshold is the least residual magnitude [lo] over all rows.  A
    proposal whose distance [d] exceeds [lo] by more than the tolerance
    [atol + rtol * lo] is rejected ([SKIP]); a proposal whose distance is
    within that tolerance of [lo], in particular one at the minimum, is
    returned. *)
Lemma quantile_zero_exact (self : Base Q)
    (p : option (list Q)) (draw : Z) (xk : list Q) :
  well_formed self → 0 ≤ draw < n_rows_ self →
  ∃ d v lo,
    Quantile.distance self xk draw = Ok d
    ∧ np_quantile (Quantile.threshold_distances self xk) 0 = Ok v
    ∧ (v == lo)%Q ∧ lo ∈ Quantile.threshold_distances self xk
    ∧ (∀ w, w ∈ Quantile.threshold_distances self xk → (lo <= w)%Q)
    ∧ (lo <= d)%Q
    ∧ ((atol + rtol * lo < d - lo)%Q →
         Quantile.select_row_index self p 0 tt draw xk = Ok (SKIP, tt))
    ∧ ((d - lo <= atol + rtol * lo)%Q →
         Quantile.select_row_index self p 0 tt draw xk = Ok (draw, tt)).
Proof.
  intros Hwf Hdraw.
  destruct (quantile_distance_ok self xk draw Hwf Hdraw) as (r & Hr & Hd & Hin).
  destruct (np_quantile_zero (Quantile.threshold_distances self xk))
    as (v & lo & Hq & Hvlo & Hlo & Hmin).
  { intros E. by rewrite E in Hin. }
  assert (Hle : (lo <= Qabs r)%Q).
  { apply Hmin. by eapply list_elem_of_lookup_2. }
  assert (Hlo0 : (0 <= lo)%Q).
  { unfold Quantile.threshold_distances, np_abs in Hlo.
    apply list_elem_of_fmap in Hlo as (y & -> & _). apply Qabs_nonneg. }
  assert (Habs_v : (Qabs v == lo)%Q) by (rewrite Hvlo; by apply Qabs_pos).
  assert (Habs_d : (Qabs (Qabs r - v) == Qabs r - lo)%Q).
  { rewrite Hvlo. apply Qabs_pos. lra. }
  exists (Qabs r), v, lo.
  split; [done|]. split; [done|]. split; [done|]. split; [done|].
  split; [done|]. split; [done|].
  rewrite (quantile_select_unfold self p 0 draw xk (Qabs r) v) by (done || lia).
  split.
  - intros Hfar.
    assert (E1 : Qle_bool v (Qabs r) = true) by (apply Qle_bool_iff; lra).
    assert (E2 : np_isclose (Qabs r) v = false).
    { destruct (np_isclose (Qabs r) v) eqn:E; [|done].
      apply np_isclose_iff in E. rewrite Habs_v, Habs_d in E. lra. }
    by rewrite E1, E2.
  - intros Hnear.
    assert (E2 : np_isclose (Qabs r) v = true).
    { apply np_isclose_iff. rewrite Habs_v, Habs_d. lra. }
    rewrite E2. by rewrite orb_true_r.
Qed.

(** With residual magnitudes [1] and [1.000001] and [quantile = 0], the
    proposal of row [1], whose distance strictly exceeds the minimum [1],
    is accepted: [np.isclose(1.000001, 1)] holds. *)
Example quantile_zero_accepts_above_minimum :
  Quantile.threshold_distances quantile_tolerance_example [0]%Q
  = [1; 1000001 # 1000000]%Q
  ∧ np_quantile (Quantile.threshold_distances quantile_tolerance_example [0]%Q) 0
    = Ok (1000000 # 1000000)%Q
  ∧ (1000000 # 1000000 == 1)%Q
  ∧ Quantile.distance quantile_tolerance_example [0]%Q 1
    = Ok (1000001 # 1000000)%Q
  ∧ (1 < 1000001 # 1000000)%Q
  ∧ Quantile.select_row_index quantile_tolerance_example None 0 tt 1 [0]%Q
    = Ok (1, tt)
  ∧ 1 ≠ SKIP.
Proof. repeat split; try reflexivity. unfold SKIP. lia. Qed.

Example quantile_zero_rejects_far_row :
  Quantile.select_row_index quantile_far_example None 0 tt 1 [0]%Q
  = Ok (SKIP, tt)
  ∧ Quantile.select_row_index quantile_far_example None 0 tt 0 [0]%Q
    = Ok (0, tt).
Proof. split; reflexivity. Qed.

(** * Quantile in binary64 *)

#[local] Instance sort_le_transitive : Transitive Binary64.sort_le.
Proof.
  intros x y z [Hy|[Hx Hxy]] [Hz|[Hy' Hyz]]; unfold Binary64.sort_le; auto.
  - congruence.
  - right. split; [done|]. by eapply float_leb_trans.
Qed.

#[local] Instance sort_le_total : Total Binary64.sort_le.
Proof.
  intros x y. unfold Binary64.sort_le.
  destruct (s_isnan y) eqn:Hy; [by left; left|].
  destruct (s_isnan x) eqn:Hx; [by right; left|].
  destruct (float_leb_total x y Hx Hy); [left|right]; right; done.
Qed.

Lemma b64_sort_perm (a : list float) : Binary64.np_sort a ≡ₚ a.
Proof. apply merge_sort_Permutation. Qed.

Lemma b64_sort_length (a : list float) :
  length (Binary64.np_sort a) = length a.
Proof. by rewrite b64_sort_perm. Qed.

Lemma b64_sort_lookup_le (a : list float) (i j : nat) (x y : float) :
  (∀ w, w ∈ a → s_isnan w = false) → (i ≤ j)%nat →
  Binary64.np_sort a !! i = Some x → Binary64.np_sort a !! j = Some y →
  (x <=? y)%float = true.
Proof.
  intros Hnan Hij Hi Hj.
  assert (Hx : s_isnan x = false).
  { apply Hnan. rewrite <- b64_sort_perm. by eapply list_elem_of_lookup_2. }
  assert (Hy : s_isnan y = false).
  { apply Hnan. rewrite <- b64_sort_perm. by eapply list_elem_of_lookup_2. }
  destruct (decide (i = j)) as [->|Hne].
  - rewrite Hi in Hj. injection Hj as <-.
    by destruct (float_leb_total x x Hx Hx).
  - assert (Hle : Binary64.sort_le x y).
    { eapply (strongly_sorted_lookup Binary64.sort_le); [|  |done|done].
      - apply StronglySorted_merge_sort; apply _.
      - lia. }
    destruct Hle as [Hy'|[_ Hle]]; [congruence|done].
Qed.

(** Arithmetic with zero, from the specification of the operations. *)
Lemma float_isnan_spec (x : float) :
  s_isnan x = true ↔ Prim2SF x = S754_nan.
Proof.
  rewrite float_isnan_eqb. unfold SFeqb.
  destruct (Prim2SF x) as [s|s| |s m e]; simpl; sf_cases;
    rewrite ?Z.compare_refl, ?Pos.compare_cont_refl; simpl; split; done.
Qed.


Lemma float_abs_add_zero (x z : float) (s : bool) :
  s_isnan (abs x) = false → Prim2SF z = S754_zero s →
  (abs x + z)%float = abs x.
Proof.
  intros Hnan Hz. apply Prim2SF_inj. rewrite add_spec, Hz.
  assert (Hnan' : Prim2SF (abs x) ≠ S754_nan).
  { intros E. apply float_isnan_spec in E. congruence. }
  rewrite abs_spec in *. unfold SF64add.
  destruct (Prim2SF x) as [s'|s'| |s' m e]; simpl in *; try done.
  by destruct s.
Qed.

Lemma float_sub_diag (x : float) :
  Binary64.isfinite x = true → Prim2SF (x - x)%float = S754_zero false.
Proof.
  unfold Binary64.isfinite. rewrite ltb_spec, abs_spec, sub_spec.
  change (Prim2SF infinity) with (S754_infinity false). unfold SF64sub.
  destruct (Prim2SF x) as [s|s| |s m e]; simpl; try done.
  - by destruct s.
  - intros _. by rewrite Z.sub_diag.
Qed.

Lemma float_lerp_zero (x y z : float) :
  Prim2SF z = S754_zero false →
  Binary64.lerp (abs x) y z = (abs x + (y - abs x) * z)%float.
Proof.
  intros Hz. unfold Binary64.lerp.
  assert (z = 0%float) as -> by by apply Prim2SF_inj.
  reflexivity.
Qed.

Lemma float_finite_not_nan (x : float) :
  Binary64.isfinite x = true → s_isnan x = false.
Proof.
  unfold Binary64.isfinite. rewrite float_isnan_eqb, ltb_spec, abs_spec.
  change (Prim2SF infinity) with (S754_infinity false).
  unfold SFltb, SFeqb.
  destruct (Prim2SF x) as [s|s| |s m e]; simpl; sf_cases;
    rewrite ?Z.compare_refl, ?Pos.compare_cont_refl; done.
Qed.

Lemma b64_of_Q_zero (g : Q) :
  Qnum g = 0 → Qden g = 1%positive → Binary64.of_Q g = 0%float.
Proof. destruct g as [n d]. simpl. intros -> ->. reflexivity. Qed.

Lemma existsb_isnan_false (a : list float) :
  (∀ w, w ∈ a → s_isnan w = false) → existsb s_isnan a = false.
Proof.
  intros Hnan. destruct (existsb s_isnan a) eqn:E; [|done].
  apply existsb_exists in E as (w & Hw & Hw').
  rewrite Hnan in Hw'; [done|]. by apply list_elem_of_In.
Qed.

Lemma existsb_isnan_true (a : list float) (w : float) :
  w ∈ a → s_isnan w = true → existsb s_isnan a = true.
Proof.
  intros Hw Hnan. apply existsb_exists. exists w.
  split; [by apply list_elem_of_In|done].
Qed.

Lemma b64_quantile_nan (a : list float) (q : Q) (w : float) :
  (0 <= q <= 1)%Q → w ∈ a → s_isnan w = true →
  Binary64.np_quantile a q = Ok nan.
Proof.
  intros [Hq0 Hq1] Hw Hnan. unfold Binary64.np_quantile.
  apply Qle_bool_iff in Hq0, Hq1. rewrite Hq0, Hq1. cbn [andb negb].
  destruct (Z.of_nat (length a) =? 0) eqn:E.
  - destruct a; [by apply elem_of_nil in Hw|simpl in E; lia].
  - by rewrite (existsb_isnan_true a w).
Qed.


Lemma Qfloor_one_mul (z : Z) : Qfloor (1 * inject_Z z) = z.
Proof. unfold Qfloor. simpl. rewrite Z.div_1_r. by destruct z. Qed.

(** The quantile of order one of an array without NaN interpolates from
    its greatest entry to itself. *)
Lemma b64_quantile_one (a : list float) :
  a ≠ [] → (∀ w, w ∈ a → s_isnan w = false) →
  ∃ hi, hi ∈ a ∧ (∀ w, w ∈ a → (w <=? hi)%float = true)
        ∧ Binary64.np_quantile a 1 = Ok (Binary64.lerp hi hi 0).
Proof.
  intros Ha Hnan.
  assert (Hn : (0 < length a)%nat) by (destruct a; [done|simpl; lia]).
  destruct (getitem_nonneg (Binary64.np_sort a) (Z.of_nat (length a) - 1))
    as (hi & Hget & Hhi).
  { rewrite b64_sort_length. lia. }
  exists hi. split; [|split].
  - rewrite <- b64_sort_perm. by eapply list_elem_of_lookup_2.
  - intros w Hw. rewrite <- b64_sort_perm in Hw.
    apply list_elem_of_lookup in Hw as [j Hj].
    eapply b64_sort_lookup_le; [exact Hnan| |exact Hj|exact Hhi].
    apply lookup_lt_Some in Hj. rewrite b64_sort_length in Hj. lia.
  - unfold Binary64.np_quantile.
    change (negb (Qle_bool 0 1 && Qle_bool 1 1)) with false. cbv iota.
    destruct (Z.of_nat (length a) =? 0) eqn:E; [lia|].
    rewrite (existsb_isnan_false a Hnan). cbv zeta.
    rewrite Qfloor_one_mul, Z.min_r by lia.
    rewrite Hget. simpl. rewrite b64_of_Q_zero; [done| |done].
    simpl. lia.
Qed.

Lemma b64_distance_ok (self : Base float) (xk : list float) (ik : Z) :
  well_formed self → 0 ≤ ik < n_rows_ self →
  ∃ d, row_magnitude self xk (Z.to_nat ik) = Some d
       ∧ Binary64.Quantile.distance self xk ik = Ok d
       ∧ d ∈ Binary64.Quantile.threshold_distances self xk.
Proof.
  intros [Hn Hb] Hik.
  destruct (getitem_nonneg (b_ self) ik) as (bi & Hgb & Hbi); [lia|].
  destruct (getitem_nonneg (A_ self) ik) as (row & Hga & Hrow); [lia|].
  exists (s_abs (s_sub bi (dot row xk))).
  assert (Hres : row_magnitude self xk (Z.to_nat ik)
                 = Some (s_abs (s_sub bi (dot row xk)))).
  { unfold row_magnitude. rewrite Hbi. simpl. by rewrite Hrow. }
  split; [exact Hres|]. split.
  - unfold Binary64.Quantile.distance. rewrite Hgb. simpl. by rewrite Hga.
  - apply (list_elem_of_lookup_2 _ (Z.to_nat ik)).
    unfold Binary64.Quantile.threshold_distances. by rewrite magnitude_lookup.
Qed.

Lemma b64_distances_elem (self : Base float) (xk : list float) (w : float) :
  w ∈ Binary64.Quantile.threshold_distances self xk ↔
  ∃ j, row_magnitude self xk j = Some w.
Proof.
  unfold Binary64.Quantile.threshold_distances.
  rewrite list_elem_of_lookup. by setoid_rewrite magnitude_lookup.
Qed.

Lemma b64_distances_abs (self : Base float) (xk : list float) (w : float) :
  w ∈ Binary64.Quantile.threshold_distances self xk → ∃ x, w = abs x.
Proof.
  unfold Binary64.Quantile.threshold_distances, np_abs.
  intros (y & -> & _)%list_elem_of_fmap. by exists y.
Qed.

(** The acceptance test of the binary64 [Quantile._select_row_index]. *)
Lemma b64_select_unfold (self : Base float) (p : option (list float))
    (quantile : Q) (draw : Z) (xk : list float) (d t : float) :
  0 < n_rows_ self →
  Binary64.Quantile.distance self xk draw = Ok d →
  Binary64.np_quantile (Binary64.Quantile.threshold_distances self xk)
    quantile = Ok t →
  Binary64.Quantile.select_row_index self p quantile draw xk
  = Ok (if (d <? t)%float || Binary64.np_isclose d t then draw else -1).
Proof.
  intros Hpos Hd Ht.
  unfold Binary64.Quantile.select_row_index, Random.select_row_index,
    Random.choice.
  destruct (n_rows_ self <=? 0) eqn:E; [lia|]. simpl.
  rewrite Hd. simpl. unfold Binary64.Quantile.threshold. rewrite Ht. simpl.
  by destruct ((d <? t)%float || Binary64.np_isclose d t).
Qed.

(** No distance passes the test against a NaN threshold. *)
Lemma b64_test_nan (d t : float) :
  s_isnan t = true → (d <? t)%float || Binary64.np_isclose d t = false.
Proof.
  intros Hnan. apply float_isnan_spec in Hnan.
  unfold Binary64.np_isclose, Binary64.isfinite.
  rewrite !ltb_spec, eqb_spec, abs_spec, Hnan.
  unfold SFltb, SFeqb. simpl.
  rewrite andb_false_r.
  by destruct (Prim2SF d).
Qed.


Lemma b64_lerp_diag (x : float) :
  Binary64.isfinite (abs x) = true →
  Binary64.lerp (abs x) (abs x) 0 = abs x.
Proof.
  intros Hfin. rewrite float_lerp_zero by reflexivity.
  assert ((abs x - abs x)%float = 0%float) as ->.
  { apply Prim2SF_inj. by rewrite float_sub_diag. }
  apply (float_abs_add_zero x _ false); [|reflexivity].
  by apply float_finite_not_nan.
Qed.


Lemma float_abs_not_finite (x : float) :
  Binary64.isfinite (abs x) = false → s_isnan (abs x) = false →
  abs x = infinity.
Proof.
  unfold Binary64.isfinite. rewrite float_isnan_eqb, ltb_spec.
  intros Hfin Hnan. apply Prim2SF_inj.
  change (Prim2SF infinity) with (S754_infinity false) in *.
  rewrite !abs_spec in *. unfold SFltb, SFeqb in *.
  destruct (Prim2SF x) as [s|s| |s m e]; simpl in *; done.
Qed.

Lemma float_abs_above_infinity (x : float) :
  (infinity <=? abs x)%float = true → abs x = infinity.
Proof.
  rewrite leb_spec. intros Hle. apply Prim2SF_inj.
  change (Prim2SF infinity) with (S754_infinity false) in *.
  rewrite abs_spec in *. unfold SFleb in *.
  destruct (Prim2SF x) as [s|s| |s m e]; simpl in *; done.
Qed.

(** C4 (binary64).  With [quantile = 1], on a well-formed system: when
    every residual magnitude at the iterate is finite, every proposal [draw]
    of the wrapped [Random] policy that is a row index is returned, so the
    result is never [SKIP] and is the result of [Random] itself; when some
    residual magnitude is infinite or NaN, the threshold is NaN and every
    proposal is rejected. *)
Theorem quantile_one_never_rejects (self : Base float)
    (p : option (list float)) (draw : Z) (xk : list float) :
  well_formed self → 0 ≤ draw < n_rows_ self →
  ((∀ (j : nat) w, row_magnitude self xk j = Some w →
      Binary64.isfinite w = true) →
   Binary64.Quantile.select_row_index self p 1 draw xk = Ok draw
   ∧ draw ≠ SKIP
   ∧ Binary64.Quantile.select_row_index self p 1 draw xk
     = Random.select_row_index self p draw xk)
  ∧ ((∃ (j : nat) w, row_magnitude self xk j = Some w
                     ∧ Binary64.isfinite w = false) →
     Binary64.Quantile.select_row_index self p 1 draw xk = Ok SKIP).
Proof.
  intros Hwf Hdraw.
  destruct (b64_distance_ok self xk draw Hwf Hdraw) as (d & Hr & Hd & Hin).
  set (ds := Binary64.Quantile.threshold_distances self xk) in *.
  assert (Hne : ds ≠ []) by (intros E; rewrite E in Hin; by apply elem_of_nil in Hin).
  split.
  - intros Hfin.
    assert (Hfin' : ∀ w, w ∈ ds → Binary64.isfinite w = true).
    { intros w [j Hj]%b64_distances_elem. by eapply Hfin. }
    assert (Hnan : ∀ w, w ∈ ds → s_isnan w = false).
    { intros w Hw. by apply float_finite_not_nan, Hfin'. }
    destruct (b64_quantile_one ds Hne Hnan) as (hi & Hhi & Hmax & Hq).
    destruct (b64_distances_abs self xk hi Hhi) as [x ->].
    rewrite b64_lerp_diag in Hq by by apply Hfin'.
    assert (Hsel :
      Binary64.Quantile.select_row_index self p 1 draw xk = Ok draw).
    { rewrite (b64_select_unfold self p 1 draw xk d (abs x)) by (done || lia).
      rewrite float_ltb_leb by (apply Hnan; done).
      unfold Binary64.np_isclose. rewrite (float_eqb_leb d (abs x)).
      rewrite (Hmax d Hin). simpl.
      destruct (abs x <=? d)%float; simpl; [|done].
      by rewrite orb_true_r. }
    split; [exact Hsel|]. split; [unfold SKIP; lia|].
    rewrite Hsel. unfold Random.select_row_index, Random.choice.
    destruct (n_rows_ self <=? 0) eqn:E; [lia|done].
  - intros (j & w & Hw & Hinf).
    assert (Hw' : w ∈ ds) by (apply b64_distances_elem; by exists j).
    assert (Hskip : ∀ t,
      Binary64.np_quantile ds 1 = Ok t → s_isnan t = true →
      Binary64.Quantile.select_row_index self p 1 draw xk = Ok SKIP).
    { intros t Hq Hnan.
      rewrite (b64_select_unfold self p 1 draw xk d t) by (done || lia).
      by rewrite b64_test_nan. }
    destruct (existsb s_isnan ds) eqn:E.
    + apply existsb_exists in E as (w' & Hw1 & Hw2).
      apply list_elem_of_In in Hw1.
      apply (Hskip nan); [|reflexivity].
      by apply (b64_quantile_nan ds 1 w').
    + assert (Hnan : ∀ w', w' ∈ ds → s_isnan w' = false).
      { intros w' Hw1. destruct (s_isnan w') eqn:E'; [|done].
        by rewrite (existsb_isnan_true ds w') in E. }
      destruct (b64_quantile_one ds Hne Hnan) as (hi & Hhi & Hmax & Hq).
      destruct (b64_distances_abs self xk hi Hhi) as [x ->].
      destruct (b64_distances_abs self xk w Hw') as [y ->].
      assert (Hy : abs y = infinity)
        by (apply float_abs_not_finite; [done|by apply Hnan]).
      assert (Hx : abs x = infinity).
      { apply float_abs_above_infinity. rewrite <- Hy. by apply Hmax. }
      rewrite Hx in Hq. by apply (Hskip _ Hq).
Qed.

Lemma quantile_one_never_rejects_witness :
  well_formed quantile_float_example
  ∧ 0 ≤ 1 < n_rows_ quantile_float_example
  ∧ Binary64.Quantile.select_row_index quantile_float_example None 1 1
      [0]%float = Ok 1
  ∧ 1 ≠ SKIP
  ∧ Binary64.Quantile.select_row_index quantile_float_example None 1 1
      [0]%float
    = Random.select_row_index quantile_float_example None 1 [0]%float.
Proof.
  assert (Hwf : well_formed quantile_float_example) by (split; reflexivity).
  assert (Hdraw : 0 ≤ 1 < n_rows_ quantile_float_example) by (simpl; lia).
  split; [exact Hwf|]. split; [exact Hdraw|].
  apply (quantile_one_never_rejects quantile_float_example None 1 [0]%float
           Hwf Hdraw).
  intros [|[|j]] w Hw; vm_compute in Hw; try discriminate;
    injection Hw as <-; reflexivity.
Defined.

(** C4, counterexample: with [b = [2^1023, 1]] and the iterate [[-2^1023]]
    the first residual overflows to infinity; the quantile of order one of
    [[inf, 2^1023]] is [inf + (inf - inf) * 0], a NaN; the proposal of row
    [1], which [Random] returns, is rejected. *)
Lemma quantile_one_rejects_on_overflow :
  Binary64.Quantile.threshold_distances quantile_overflow_example
    [-0x1p1023]%float = [infinity; 0x1p1023]%float
  ∧ Binary64.Quantile.threshold quantile_overflow_example 1
      [-0x1p1023]%float = Ok nan
  ∧ Random.select_row_index quantile_overflow_example None 1
      [-0x1p1023]%float = Ok 1
  ∧ Binary64.Quantile.select_row_index quantile_overflow_example None 1 1
      [-0x1p1023]%float = Ok SKIP.
Proof. repeat split; vm_compute; reflexivity. Qed.



(** With residual magnitudes [1, 2]: the row at the minimum is returned, the
    other one rejected.  With magnitudes [0] and the double nearest [1e-8]:
    the second row is within [atol] of the minimum and is returned. *)
Example quantile_zero_binary64_runs :
  Binary64.Quantile.select_row_index quantile_float_example None 0 0
    [0]%float = Ok 0
  ∧ Binary64.Quantile.select_row_index quantile_float_example None 0 1
      [0]%float = Ok SKIP
  ∧ Binary64.Quantile.select_row_index quantile_boundary_example None 0 1
      [0]%float = Ok 1.
Proof. repeat split; vm_compute; reflexivity. Qed.

(** * WindowedQuantile *)


Lemma np_quantile_ok (a : list Q) (q : Q) :
  a ≠ [] → (0 <= q <= 1)%Q → ∃ v, np_quantile a q = Ok v.
Proof.
  intros Ha Hq.
  assert (Hn : (0 < length a)%nat) by (destruct a; [done|simpl; lia]).
  set (n1 := Z.of_nat (length a) - 1).
  assert (Hn1 : (0 <= inject_Z n1)%Q).
  { change 0%Q with (inject_Z 0). rewrite <- Zle_Qle. unfold n1. lia. }
  assert (Hlo : 0 ≤ Qfloor (q * inject_Z n1)).
  { change 0 with (Qfloor 0). apply Qfloor_resp_le. nra. }
  assert (Hhi : Qfloor (q * inject_Z n1) ≤ n1).
  { rewrite <- (Qfloor_Z n1) at 2. apply Qfloor_resp_le. nra. }
  rewrite (np_quantile_eval a q (Qfloor (q * inject_Z n1))); [|done..].
  destruct (getitem_nonneg (np_sort a) (Qfloor (q * inject_Z n1))) as (lo & -> & _).
  { rewrite np_sort_length. unfold n1 in *. lia. }
  destruct (getitem_nonneg (np_sort a) (Z.min (Qfloor (q * inject_Z n1) + 1) n1))
    as (hi & Hhi' & _).
  { rewrite np_sort_length. unfold n1 in *. lia. }
  fold n1. rewrite Hhi'. simpl. eauto.
Qed.

Lemma recent_all (w : Z) (ds : list Q) :
  Z.of_nat (length ds) ≤ w → recent w ds = ds.
Proof.
  intros Hlen. unfold recent.
  replace (length ds - Z.to_nat w)%nat with 0%nat by lia. done.
Qed.

Lemma recent_full (w : Z) (ds : list Q) :
  0 ≤ w ≤ Z.of_nat (length ds) → length (recent w ds) = Z.to_nat w.
Proof. intros Hlen. unfold recent. rewrite length_drop. lia. Qed.

Lemma deque_append_recent (d : WindowedQuantile.deque) (hist : list Q) (x : Q) :
  0 ≤ WindowedQuantile.maxlen d →
  WindowedQuantile.items d = recent (WindowedQuantile.maxlen d) hist →
  WindowedQuantile.items (WindowedQuantile.deque_append d x)
  = recent (WindowedQuantile.maxlen d) (hist ++ [x]).
Proof.
  intros Hw Hitems. unfold WindowedQuantile.deque_append. simpl.
  rewrite Hitems. unfold recent.
  rewrite !length_app, length_drop. simpl.
  set (w := WindowedQuantile.maxlen d) in *.
  destruct (w <? Z.of_nat (length hist - (length hist - Z.to_nat w) + 1)) eqn:E.
  - apply Z.ltb_lt in E.
    assert (Hge : (Z.to_nat w ≤ length hist)%nat) by lia.
    replace (length hist + 1 - Z.to_nat w)%nat
      with ((length hist - Z.to_nat w) + 1)%nat by lia.
    rewrite <- drop_drop.
    rewrite (drop_app_le hist [x]) by lia.
    by destruct (drop (length hist - Z.to_nat w) hist ++ [x]).
  - apply Z.ltb_ge in E.
    assert (Hlt : (length hist < Z.to_nat w)%nat) by lia.
    replace (length hist - Z.to_nat w)%nat with 0%nat by lia.
    by replace (length hist + 1 - Z.to_nat w)%nat with 0%nat by lia.
Qed.

Section windowed_facts.
Variable self : Base Q.
Variable p : option (list Q).
Variable quantile : Q.
Hypothesis Hwf : well_formed self.
Hypothesis Hquantile : (0 <= quantile <= 1)%Q.

Lemma windowed_call_spec (window : WindowedQuantile.deque) (hist : list Q)
    (c : list Q * Z) :
  0 < WindowedQuantile.maxlen window →
  WindowedQuantile.items window = recent (WindowedQuantile.maxlen window) hist →
  0 ≤ c.2 < n_rows_ self →
  ∃ d threshold,
    Quantile.distance self c.1 c.2 = Ok d
    ∧ np_quantile (recent (WindowedQuantile.maxlen window) (hist ++ [d])) quantile
      = Ok threshold
    ∧ windowed_call self p quantile window c
      = Ok (accept d threshold c.2, WindowedQuantile.deque_append window d).
Proof.
  intros Hw Hitems Hdraw.
  destruct (quantile_distance_ok self c.1 c.2 Hwf Hdraw) as (r & _ & Hd & _).
  pose proof (deque_append_recent window hist (Qabs r) ltac:(lia) Hitems) as Happ.
  destruct (np_quantile_ok (recent (WindowedQuantile.maxlen window) (hist ++ [Qabs r]))
              quantile) as (threshold & Hthr); [|done|].
  { intros E. apply (f_equal length) in E. unfold recent in E.
    rewrite length_drop, length_app in E. simpl in E. lia. }
  exists (Qabs r), threshold. split; [done|]. split; [done|].
  unfold windowed_call, WindowedQuantile.select_row_index,
    Quantile.select_row_index, Random.select_row_index, Random.choice.
  destruct (n_rows_ self <=? 0) eqn:E; [lia|]. simpl.
  unfold WindowedQuantile.distance. rewrite Hd. simpl.
  unfold Quantile.threshold. simpl. unfold WindowedQuantile.threshold_distances.
  unfold WindowedQuantile.deque_append in Happ.
  cbn [WindowedQuantile.items] in Happ.
  rewrite Happ, Hthr. simpl. unfold accept, SKIP.
  by destruct (negb (Qle_bool threshold (Qabs r)) || np_isclose (Qabs r) threshold).
Qed.

Lemma windowed_run_spec (calls : list (list Q * Z))
    (window : WindowedQuantile.deque) (hist : list Q) :
  0 < WindowedQuantile.maxlen window →
  WindowedQuantile.items window = recent (WindowedQuantile.maxlen window) hist →
  Forall (λ c, 0 ≤ c.2 < n_rows_ self) calls →
  ∃ ds outs window',
    Forall2 (λ c d, Quantile.distance self c.1 c.2 = Ok d) calls ds
    ∧ run_calls (windowed_call self p quantile) window calls = Ok (outs, window')
    ∧ WindowedQuantile.maxlen window' = WindowedQuantile.maxlen window
    ∧ WindowedQuantile.items window'
      = recent (WindowedQuantile.maxlen window) (hist ++ ds)
    ∧ ∀ (k : nat) c d, calls !! k = Some c → ds !! k = Some d →
        ∃ threshold,
          np_quantile
            (recent (WindowedQuantile.maxlen window) (hist ++ take (S k) ds))
            quantile = Ok threshold
          ∧ outs !! k = Some (accept d threshold c.2).
Proof.
  revert window hist.
  induction calls as [|c calls IH]; intros window hist Hw Hitems Hall.
  - exists [], [], window. split; [constructor|]. split; [done|]. split; [done|].
    split; [by rewrite app_nil_r|]. intros k c d Hc. by rewrite lookup_nil in Hc.
  - apply Forall_cons in Hall as [Hc Hall].
    destruct (windowed_call_spec window hist c Hw Hitems Hc)
      as (d & thr & Hd & Hthr & Hcall).
    destruct (IH (WindowedQuantile.deque_append window d) (hist ++ [d]))
      as (ds & outs & window' & Hds & Hrun & Hmax & Hit & Hcalls).
    { done. }
    { simpl. apply deque_append_recent; [lia|done]. }
    { done. }
    simpl in Hmax, Hit, Hcalls.
    exists (d :: ds), (accept d thr c.2 :: outs), window'.
    split; [by constructor|]. split.
    { simpl. rewrite Hcall. simpl. by rewrite Hrun. }
    split; [done|]. split.
    { by rewrite <- app_assoc in Hit. }
    intros [|k] c' d' Hc' Hd'; simpl in Hc', Hd'.
    + injection Hc' as <-. injection Hd' as <-. exists thr. split; [|done].
      exact Hthr.
    + destruct (Hcalls k c' d' Hc' Hd') as (thr' & Hthr' & Hout).
      exists thr'. split; [|done].
      rewrite <- app_assoc in Hthr'. exact Hthr'.
Qed.

End windowed_facts.

(** C6. For [WindowedQuantile] with a window of capacity [w > 0] (the given
    [window_size], or the number of rows), on a well-formed system and
    proposals that are row indices: no call raises; writing [ds] for the
    distances computed by [_distance] at the successive calls, the call
    number [k] (from zero) compares its distance with the quantile of
    [recent w (take (k+1) ds)], the last [w] of the distances computed so
    far, and the window holds [recent w ds] after the calls.  While at most
    [w] distances have been computed these are all of them; from [w]
    distances on they are exactly the [w] most recent ones, the older ones
    having been dropped. *)
Theorem windowed_quantile_uses_recent_window (self : Base Q)
    (p : option (list Q)) (quantile : Q) (window_size : option Z)
    (calls : list (list Q * Z)) :
  well_formed self → (0 <= quantile <= 1)%Q →
  0 < default (n_rows_ self) window_size →
  Forall (λ c, 0 ≤ c.2 < n_rows_ self) calls →
  ∃ window0 ds outs window,
    WindowedQuantile.init self window_size = Ok window0
    ∧ Forall2 (λ c d, Quantile.distance self c.1 c.2 = Ok d) calls ds
    ∧ run_calls (windowed_call self p quantile) window0 calls
      = Ok (outs, window)
    ∧ WindowedQuantile.items window
      = recent (default (n_rows_ self) window_size) ds
    ∧ (∀ (k : nat) c d, calls !! k = Some c → ds !! k = Some d →
         ∃ threshold,
           np_quantile
             (recent (default (n_rows_ self) window_size) (take (S k) ds))
             quantile = Ok threshold
           ∧ outs !! k = Some (accept d threshold c.2))
    ∧ (∀ n : nat, Z.of_nat n ≤ default (n_rows_ self) window_size →
         recent (default (n_rows_ self) window_size) (take n ds) = take n ds)
    ∧ (∀ n : nat, default (n_rows_ self) window_size ≤ Z.of_nat n →
         (n ≤ length ds)%nat →
         recent (default (n_rows_ self) window_size) (take n ds)
         = drop (n - Z.to_nat (default (n_rows_ self) window_size)) (take n ds)
         ∧ length (recent (default (n_rows_ self) window_size) (take n ds))
           = Z.to_nat (default (n_rows_ self) window_size)).
Proof.
  intros Hwf Hq Hw Hall.
  set (w := default (n_rows_ self) window_size) in *.
  set (window0 := WindowedQuantile.MkDeque w []).
  assert (Hinit : WindowedQuantile.init self window_size = Ok window0).
  { unfold WindowedQuantile.init, WindowedQuantile.deque_new.
    change (match window_size with Some w0 => w0 | None => n_rows_ self end)
      with w.
    destruct (w <? 0) eqn:E; [lia|done]. }
  destruct (windowed_run_spec self p quantile Hwf Hq calls window0 [])
    as (ds & outs & window & Hds & Hrun & _ & Hitems & Hcalls); [done|done|done|].
  exists window0, ds, outs, window.
  split; [done|]. split; [done|]. split; [done|]. split; [done|].
  split; [exact Hcalls|]. split.
  - intros n Hn. apply recent_all. rewrite length_take. lia.
  - intros n Hn Hlen. split.
    + unfold recent. rewrite length_take. do 2 f_equal. lia.
    + rewrite recent_full; [done|]. rewrite length_take. lia.
Qed.

Lemma windowed_quantile_uses_recent_window_witness :
  well_formed windowed_example ∧ (0 <= 0 <= 1)%Q
  ∧ 0 < default (n_rows_ windowed_example) (Some 2)
  ∧ Forall (λ c, 0 ≤ c.2 < n_rows_ windowed_example) windowed_example_calls
  ∧ ∃ window0 ds outs window,
      WindowedQuantile.init windowed_example (Some 2) = Ok window0
      ∧ Forall2 (λ c d, Quantile.distance windowed_example c.1 c.2 = Ok d)
          windowed_example_calls ds
      ∧ run_calls (windowed_call windowed_example None 0) window0
          windowed_example_calls
        = Ok (outs, window)
      ∧ WindowedQuantile.items window
        = recent (default (n_rows_ windowed_example) (Some 2)) ds
      ∧ (∀ (k : nat) c d, windowed_example_calls !! k = Some c →
           ds !! k = Some d →
           ∃ threshold,
             np_quantile
               (recent (default (n_rows_ windowed_example) (Some 2))
                  (take (S k) ds))
               0 = Ok threshold
             ∧ outs !! k = Some (accept d threshold c.2))
      ∧ (∀ n : nat,
           Z.of_nat n ≤ default (n_rows_ windowed_example) (Some 2) →
           recent (default (n_rows_ windowed_example) (Some 2)) (take n ds)
           = take n ds)
      ∧ (∀ n : nat,
           default (n_rows_ windowed_example) (Some 2) ≤ Z.of_nat n →
           (n ≤ length ds)%nat →
           recent (default (n_rows_ windowed_example) (Some 2)) (take n ds)
           = drop (n - Z.to_nat (default (n_rows_ windowed_example) (Some 2)))
               (take n ds)
           ∧ length
               (recent (default (n_rows_ windowed_example) (Some 2)) (take n ds))
             = Z.to_nat (default (n_rows_ windowed_example) (Some 2))).
Proof.
  assert (Hwf : well_formed windowed_example) by (split; reflexivity).
  assert (Hq : (0 <= 0 <= 1)%Q) by lra.
  assert (Hw : 0 < default (n_rows_ windowed_example) (Some 2)) by (simpl; lia).
  assert (Hall : Forall (λ c, 0 ≤ c.2 < n_rows_ windowed_example)
                   windowed_example_calls).
  { repeat constructor; simpl; lia. }
  split; [exact Hwf|]. split; [exact Hq|]. split; [exact Hw|].
  split; [exact Hall|].
  exact (windowed_quantile_uses_recent_window windowed_example None 0 (Some 2)
           windowed_example_calls Hwf Hq Hw Hall).
Defined.

(** The third call is compared with the least of the last two distances
    [4, 4]; the first distance [1] has left the window. *)
Example windowed_example_run :
  run_calls (windowed_call windowed_example None 0)
    (WindowedQuantile.MkDeque 2 []) windowed_example_calls
  = Ok ([0; SKIP; 2], WindowedQuantile.MkDeque 2 [4; 4]%Q).
Proof. vm_compute. reflexivity. Qed.

(** * RandomOrthoGraph *)


Lemma drop_repeats_cons2 (x y : Z) (l : list Z) :
  drop_repeats (x :: y :: l)
  = if x =? y then drop_repeats (y :: l) else x :: drop_repeats (y :: l).
Proof. reflexivity. Qed.

Lemma drop_repeats_elem (l : list Z) (x : Z) : x ∈ drop_repeats l ↔ x ∈ l.
Proof.
  induction l as [|a l IH]; [done|].
  destruct l as [|y l]; [done|].
  rewrite drop_repeats_cons2.
  destruct (Z.eqb_spec a y) as [->|Hne].
  - rewrite IH, !elem_of_cons. tauto.
  - rewrite elem_of_cons, IH, !elem_of_cons. tauto.
Qed.

Lemma drop_repeats_sorted (l : list Z) :
  StronglySorted Z.le l → StronglySorted Z.lt (drop_repeats l).
Proof.
  induction l as [|a l IH]; intros Hs; [constructor|].
  apply StronglySorted_inv in Hs as [Hs Hall].
  destruct l as [|y l]; [repeat constructor|].
  rewrite drop_repeats_cons2.
  destruct (Z.eqb_spec a y) as [->|Hne]; [exact (IH Hs)|].
  constructor; [exact (IH Hs)|].
  apply Forall_forall. intros z Hz. rewrite drop_repeats_elem in Hz.
  rewrite Forall_forall in Hall.
  assert (a ≤ y) by (apply Hall; apply elem_of_cons; by left).
  assert (a ≤ z) by (apply Hall; done).
  apply StronglySorted_inv in Hs as [_ Hy]. rewrite Forall_forall in Hy.
  apply elem_of_cons in Hz as [->|Hz]; [lia|].
  specialize (Hy z Hz). lia.
Qed.

Lemma np_unique_elem (l : list Z) (x : Z) : x ∈ np_unique l ↔ x ∈ l.
Proof.
  unfold np_unique. rewrite drop_repeats_elem.
  by rewrite merge_sort_Permutation.
Qed.

Lemma np_unique_sorted (l : list Z) : StronglySorted Z.lt (np_unique l).
Proof.
  apply drop_repeats_sorted. apply StronglySorted_merge_sort; apply _.
Qed.

Lemma strictly_sorted_NoDup (l : list Z) : StronglySorted Z.lt l → NoDup l.
Proof.
  induction 1 as [|a l Hs IH Hall]; constructor; [|done].
  intros Hin. rewrite Forall_forall in Hall. specialize (Hall a Hin). lia.
Qed.

#[local] Instance Zlt_antisymm : AntiSymm (=) Z.lt.
Proof. intros x y ? ?. lia. Qed.

Lemma strictly_sorted_ext (l1 l2 : list Z) :
  StronglySorted Z.lt l1 → StronglySorted Z.lt l2 →
  (∀ x, x ∈ l1 ↔ x ∈ l2) → l1 = l2.
Proof.
  intros H1 H2 Hext. apply (StronglySorted_unique Z.lt); [done|done|].
  apply NoDup_Permutation; auto using strictly_sorted_NoDup.
Qed.

Lemma np_union1d_elem (a c : list Z) (x : Z) :
  x ∈ np_union1d a c ↔ x ∈ a ∨ x ∈ c.
Proof. unfold np_union1d. by rewrite np_unique_elem, elem_of_app. Qed.

Lemma np_setdiff1d_elem (a c : list Z) (x : Z) :
  x ∈ np_setdiff1d a c ↔ x ∈ a ∧ x ∉ c.
Proof. unfold np_setdiff1d. rewrite list_elem_of_filter. tauto. Qed.

Lemma np_setdiff1d_sorted (a c : list Z) :
  StronglySorted Z.lt a → StronglySorted Z.lt (np_setdiff1d a c).
Proof.
  unfold np_setdiff1d. induction 1 as [|x a Hs IH Hall]; [constructor|].
  rewrite filter_cons. case_decide; [|done].
  constructor; [done|]. apply Forall_forall. intros z Hz.
  apply list_elem_of_filter in Hz as [_ Hz].
  rewrite Forall_forall in Hall. by apply Hall.
Qed.

Section ortho_graph_facts.
Context {R : Type} `{Scalar R}.
Implicit Types (A : list (list R)) (st : RandomOrthoGraph.t R).

Lemma argwhere_from_elem (u : list R) (i j : Z) :
  j ∈ argwhere_from i u
  ↔ ∃ (k : nat) (x : R),
      j = i + Z.of_nat k ∧ u !! k = Some x ∧ s_eqb x s_zero = false.
Proof.
  revert i. induction u as [|y u IH]; intros i; simpl.
  - split; [by intros ?%elem_of_nil|]. by intros (k & x & _ & ? & _).
  - destruct (s_eqb y s_zero) eqn:E.
    + rewrite IH. split.
      * intros (k & x & -> & Hk & Hx). exists (S k), x. split; [lia|done].
      * intros ([|k] & x & -> & Hk & Hx); simpl in Hk.
        -- congruence.
        -- exists k, x. split; [lia|done].
    + rewrite elem_of_cons, IH. split.
      * intros [->|(k & x & -> & Hk & Hx)].
        -- exists 0%nat, y. split; [lia|done].
        -- exists (S k), x. split; [lia|done].
      * intros ([|k] & x & -> & Hk & Hx); simpl in Hk.
        -- left. lia.
        -- right. exists k, x. split; [lia|done].
Qed.

Lemma neighbours_elem A (i j : Z) :
  j ∈ neighbours A i
  ↔ 0 ≤ j < Z.of_nat (length A)
    ∧ is_neighbour A (Z.to_nat i) (Z.to_nat j) = true.
Proof.
  unfold neighbours. rewrite elem_of_list_to_set, list_elem_of_filter, elem_of_seqZ.
  split; intros [? ?]; (split; [done || lia|done || lia]).
Qed.

Lemma newly_selectable_neighbours A (i : Z) :
  0 ≤ i < Z.of_nat (length A) →
  ∃ v, RandomOrthoGraph.newly_selectable (matmul_T A A) i = Ok v
       ∧ (list_to_set v : gset Z) = neighbours A i.
Proof.
  intros Hi. unfold RandomOrthoGraph.newly_selectable.
  destruct (getitem_nonneg (matmul_T A A) i) as (row & Hget & Hrow).
  { unfold matmul_T. rewrite length_fmap. lia. }
  rewrite Hget. simpl. eexists. split; [reflexivity|].
  unfold matmul_T in Hrow. rewrite list_lookup_fmap in Hrow.
  destruct (A !! Z.to_nat i) as [ri|] eqn:Hri; [|done].
  injection Hrow as <-.
  apply set_eq. intros j.
  rewrite elem_of_list_to_set, neighbours_elem. unfold np_argwhere.
  rewrite argwhere_from_elem. unfold is_neighbour. rewrite Hri. split.
  - intros (k & x & -> & Hk & Hx).
    rewrite list_lookup_fmap in Hk.
    destruct (A !! k) as [rk|] eqn:Hrk; [|done]. injection Hk as <-.
    apply lookup_lt_Some in Hrk as Hlt.
    split; [lia|]. replace (Z.to_nat (0 + Z.of_nat k)) with k by lia.
    by rewrite Hrk, Hx.
  - intros [Hj Hn].
    destruct (A !! Z.to_nat j) as [rj|] eqn:Hrj; [|done].
    exists (Z.to_nat j), (dot ri rj). split; [lia|].
    rewrite list_lookup_fmap, Hrj. split; [done|].
    by apply negb_true_iff in Hn.
Qed.

Lemma build_dict_spec A (keys : list Z) :
  (∀ i, i ∈ keys → 0 ≤ i < Z.of_nat (length A)) →
  ∃ d, RandomOrthoGraph.build_dict (matmul_T A A) keys = Ok d
       ∧ ∀ i, i ∈ keys →
           ∃ v, d !! i = Some v ∧ (list_to_set v : gset Z) = neighbours A i.
Proof.
  induction keys as [|k keys IH]; intros Hkeys.
  - exists ∅. split; [done|]. by intros i ?%elem_of_nil.
  - destruct IH as (d & Hd & Hlk).
    { intros i Hi. apply Hkeys. by right. }
    destruct (newly_selectable_neighbours A k) as (v & Hv & Hset).
    { apply Hkeys. by left. }
    exists (<[k := v]> d). split.
    + simpl. rewrite Hv. simpl. by rewrite Hd.
    + intros i Hi. destruct (decide (i = k)) as [->|Hne].
      * exists v. by rewrite lookup_insert_eq.
      * rewrite lookup_insert_ne by done. apply Hlk.
        by apply elem_of_cons in Hi as [?|?].
Qed.

Lemma init_graph_inv (self : Base R) (one : R) (p0 : option (list R)) :
  well_formed self →
  ∃ st, RandomOrthoGraph.init self one p0 = Ok st ∧ graph_inv (A_ self) st.
Proof.
  intros [Hn Hb]. unfold RandomOrthoGraph.init.
  destruct (build_dict_spec (A_ self) (py_range (n_rows_ self))) as (d & Hd & Hlk).
  { intros i Hi. unfold py_range in Hi. apply elem_of_seqZ in Hi. lia. }
  rewrite Hd. simpl. eexists. split; [reflexivity|]. split; simpl.
  - intros i Hi. apply Hlk. unfold py_range. apply elem_of_seqZ. lia.
  - intros i Hi. unfold np_argwhere in Hi.
    apply argwhere_from_elem in Hi as (k & x & -> & Hk & _).
    apply lookup_lt_Some in Hk. unfold np_sub, matvec in Hk.
    rewrite length_zip_with, length_fmap in Hk. lia.
Qed.

Lemma update_selectable_spec A st (ik : Z) :
  graph_inv A st → 0 ≤ ik < Z.of_nat (length A) →
  ∃ st', RandomOrthoGraph.update_selectable st ik = Ok st'
         ∧ graph_inv A st'
         ∧ (list_to_set (RandomOrthoGraph.selectable st') : gset Z)
           = (list_to_set (RandomOrthoGraph.selectable st) ∪ neighbours A ik)
               ∖ {[ik]}
         ∧ StronglySorted Z.lt (RandomOrthoGraph.selectable st').
Proof.
  intros [Hdict Hsel] Hik.
  destruct (Hdict ik Hik) as (v & Hv & Hset).
  unfold RandomOrthoGraph.update_selectable. rewrite Hv. simpl.
  eexists. split; [reflexivity|].
  assert (Helem : ∀ x,
    x ∈ np_setdiff1d (np_union1d (RandomOrthoGraph.selectable st) v) [ik]
    ↔ (x ∈ RandomOrthoGraph.selectable st ∨ x ∈ neighbours A ik) ∧ x ≠ ik).
  { intros x. rewrite np_setdiff1d_elem, np_union1d_elem, <- Hset,
      elem_of_list_to_set, list_elem_of_singleton. tauto. }
  split; [split|split]; simpl.
  - done.
  - intros i Hi. apply Helem in Hi as [[Hi|Hi] _]; [by apply Hsel|].
    by apply neighbours_elem in Hi as [? _].
  - apply set_eq. intros x.
    rewrite elem_of_list_to_set, Helem, elem_of_difference, elem_of_union,
      elem_of_list_to_set, elem_of_singleton. tauto.
  - apply np_setdiff1d_sorted, np_unique_sorted.
Qed.

Lemma select_row_index_inv st (pick : nat) (xk : list R) (ik : Z) st' :
  RandomOrthoGraph.select_row_index st pick xk = Ok (ik, st') →
  RandomOrthoGraph.selectable st !! pick = Some ik
  ∧ RandomOrthoGraph.update_selectable st ik = Ok st'.
Proof.
  unfold RandomOrthoGraph.select_row_index, RandomOrthoGraph.choice_of.
  destruct (RandomOrthoGraph.take_indices _ _) as [w|e]; simpl; [|done].
  destruct (RandomOrthoGraph.selectable st !! pick) as [i|]; simpl; [|done].
  destruct (RandomOrthoGraph.update_selectable st i) as [s|e] eqn:E; simpl; [|done].
  intros [= <- <-]. done.
Qed.

End ortho_graph_facts.

Lemma run_calls_cons_inv {S I : Type} (step : S → I → py (Z * S)) (st : S)
    (i : I) (inputs : list I) (outs : list Z) (st' : S) :
  run_calls step st (i :: inputs) = Ok (outs, st') →
  ∃ ik st1 outs',
    step st i = Ok (ik, st1)
    ∧ run_calls step st1 inputs = Ok (outs', st')
    ∧ outs = ik :: outs'.
Proof.
  simpl. destruct (step st i) as [[ik st1]|e]; simpl; [|intros; discriminate].
  destruct (run_calls step st1 inputs) as [[outs' st2]|e] eqn:Erun; simpl;
    [|intros; discriminate].
  intros [= <- <-]. by exists ik, st1, outs'.
Qed.

Section ortho_graph_runs.
Context {R : Type} `{Scalar R}.
Implicit Types (A : list (list R)) (st : RandomOrthoGraph.t R).

Lemma ortho_call_spec A st (c : nat * list R) (ik : Z) st' :
  graph_inv A st →
  ortho_call st c = Ok (ik, st') →
  ik ∈ RandomOrthoGraph.selectable st
  ∧ RandomOrthoGraph.update_selectable st ik = Ok st'
  ∧ graph_inv A st'
  ∧ (list_to_set (RandomOrthoGraph.selectable st') : gset Z)
    = (list_to_set (RandomOrthoGraph.selectable st) ∪ neighbours A ik) ∖ {[ik]}
  ∧ StronglySorted Z.lt (RandomOrthoGraph.selectable st').
Proof.
  intros Hinv Hcall.
  apply (select_row_index_inv st c.1 c.2) in Hcall as [Hpick Hupd].
  assert (Hin : ik ∈ RandomOrthoGraph.selectable st)
    by (by eapply list_elem_of_lookup_2).
  destruct (update_selectable_spec A st ik Hinv) as (st1 & Hupd1 & Hinv1 & Hset & Hsorted).
  { destruct Hinv as [_ Hsel]. by apply Hsel. }
  rewrite Hupd in Hupd1. injection Hupd1 as <-.
  split; [exact Hin|]. split; [exact Hupd|]. split; [exact Hinv1|].
  split; [exact Hset|exact Hsorted].
Qed.

Lemma run_preserves_graph_inv A (calls : list (nat * list R)) st
    (outs : list Z) st' :
  graph_inv A st →
  run_calls ortho_call st calls = Ok (outs, st') →
  graph_inv A st'.
Proof.
  revert st outs. induction calls as [|c calls IH]; intros st outs Hinv Hrun.
  - simpl in Hrun. by injection Hrun as <- <-.
  - apply run_calls_cons_inv in Hrun as (ik & st1 & outs' & Hcall & Hrun & ->).
    destruct (ortho_call_spec A st c ik st1 Hinv Hcall) as (_ & _ & Hinv1 & _).
    by eapply IH.
Qed.

(** A row that is not selectable stays so until a later selection has it
    as a neighbour. *)
Lemma absent_until_neighbour A (calls : list (nat * list R)) st
    (outs : list Z) st' (ik : Z) :
  graph_inv A st →
  ik ∉ RandomOrthoGraph.selectable st →
  run_calls ortho_call st calls = Ok (outs, st') →
  ik ∈ RandomOrthoGraph.selectable st' →
  ∃ ik', ik' ∈ outs ∧ ik' ≠ ik ∧ ik ∈ neighbours A ik'.
Proof.
  revert st outs. induction calls as [|c calls IH]; intros st outs Hinv Hout Hrun Hin.
  - simpl in Hrun. injection Hrun as <- <-. done.
  - apply run_calls_cons_inv in Hrun as (i1 & st1 & outs' & Hcall & Hrun & ->).
    destruct (ortho_call_spec A st c i1 st1 Hinv Hcall)
      as (Hi1 & _ & Hinv1 & Hset & _).
    destruct (decide (ik ∈ RandomOrthoGraph.selectable st1)) as [Hyes|Hno].
    + exists i1. split; [by left|].
      assert (Hmem : ik ∈ (list_to_set (RandomOrthoGraph.selectable st1) : gset Z))
        by (by apply elem_of_list_to_set).
      rewrite Hset, elem_of_difference, elem_of_union, elem_of_list_to_set in Hmem.
      destruct Hmem as [[?|?] _]; [done|].
      split; [|done]. intros ->. done.
    + destruct (IH st1 outs' Hinv1 Hno Hrun Hin) as (ik' & Hik' & Hne & Hnb).
      exists ik'. split; [by right|done].
Qed.

(** C7. On a well-formed system, for every state [st] reached from
    [__init__] by calls of [_select_row_index], a call that returns [ik]
    drew [ik] from the selectable rows and leaves, as a set,
    [(selectable ∪ neighbours of ik) \ {ik}], the neighbours of [ik] being
    the rows [j] with [G[ik,j] ≠ 0] for [G = A·Aᵀ].  Afterwards [ik] is not
    selectable, the selectable array has no duplicates, the update gives
    the same state from any array holding the same set of selectable rows
    (whatever its order or repetitions), and [ik] becomes selectable again
    only after a later call returns a row, other than [ik], that has [ik]
    as a neighbour. *)
Theorem ortho_graph_selectable_update (self : Base R) (one : R)
    (p0 : option (list R)) (st0 : RandomOrthoGraph.t R)
    (before : list (nat * list R)) (outs : list Z) (st : RandomOrthoGraph.t R)
    (c : nat * list R) (ik : Z) (st' : RandomOrthoGraph.t R) :
  well_formed self →
  RandomOrthoGraph.init self one p0 = Ok st0 →
  run_calls ortho_call st0 before = Ok (outs, st) →
  ortho_call st c = Ok (ik, st') →
  ik ∈ RandomOrthoGraph.selectable st
  ∧ (list_to_set (RandomOrthoGraph.selectable st') : gset Z)
    = (list_to_set (RandomOrthoGraph.selectable st) ∪ neighbours (A_ self) ik)
        ∖ {[ik]}
  ∧ (ik ∉ RandomOrthoGraph.selectable st')
  ∧ NoDup (RandomOrthoGraph.selectable st')
  ∧ (∀ sel2 : list Z,
       ((list_to_set sel2 : gset Z)
        = list_to_set (RandomOrthoGraph.selectable st)) →
       RandomOrthoGraph.update_selectable (with_selectable st sel2) ik = Ok st')
  ∧ (∀ (after : list (nat * list R)) (outs2 : list Z)
       (st'' : RandomOrthoGraph.t R),
       run_calls ortho_call st' after = Ok (outs2, st'') →
       ik ∈ RandomOrthoGraph.selectable st'' →
       ∃ ik', ik' ∈ outs2 ∧ ik' ≠ ik ∧ ik ∈ neighbours (A_ self) ik').
Proof.
  intros Hwf Hinit Hbefore Hcall.
  destruct (init_graph_inv self one p0 Hwf) as (st0' & Hinit' & Hinv0).
  rewrite Hinit in Hinit'. injection Hinit' as <-.
  pose proof (run_preserves_graph_inv _ _ _ _ _ Hinv0 Hbefore) as Hinv.
  destruct (ortho_call_spec _ st c ik st' Hinv Hcall)
    as (Hin & Hupd & Hinv' & Hset & Hsorted).
  assert (Hout : ik ∉ RandomOrthoGraph.selectable st').
  { intros Hmem. apply (elem_of_list_to_set (C := gset Z)) in Hmem.
    rewrite Hset, elem_of_difference, elem_of_singleton in Hmem.
    by destruct Hmem. }
  split; [done|]. split; [done|]. split; [done|].
  split; [by apply strictly_sorted_NoDup|]. split.
  - intros sel2 Hsame.
    assert (Hinv2 : graph_inv (A_ self) (with_selectable st sel2)).
    { destruct Hinv as [Hdict Hsel]. split; [exact Hdict|]. simpl.
      intros i Hi. apply Hsel.
      apply (elem_of_list_to_set (C := gset Z)). rewrite <- Hsame.
      by apply elem_of_list_to_set. }
    destruct (update_selectable_spec (A_ self) (with_selectable st sel2) ik Hinv2)
      as (st2 & Hupd2 & _ & Hset2 & Hsorted2).
    { destruct Hinv as [_ Hsel]. by apply Hsel. }
    rewrite Hupd2. f_equal.
    assert (Hlists : RandomOrthoGraph.selectable st2
                     = RandomOrthoGraph.selectable st').
    { apply strictly_sorted_ext; [done|done|]. intros x.
      rewrite <- !(elem_of_list_to_set (C := gset Z)).
      rewrite Hset2, Hset. simpl. by rewrite Hsame. }
    unfold RandomOrthoGraph.update_selectable in Hupd, Hupd2.
    simpl in Hupd2.
    destruct (RandomOrthoGraph.i_to_newly_selectable st !! ik) as [v|];
      simpl in Hupd, Hupd2; [|done].
    injection Hupd as <-. injection Hupd2 as <-. simpl in Hlists.
    by rewrite Hlists.
  - intros after outs2 st'' Hrun Hmem.
    by eapply absent_until_neighbour.
Qed.

End ortho_graph_runs.

Lemma ortho_graph_selectable_update_witness :
  well_formed ortho_example
  ∧ RandomOrthoGraph.init ortho_example 1%Q None = Ok ortho_example_st0
  ∧ run_calls ortho_call ortho_example_st0 [] = Ok ([], ortho_example_st0)
  ∧ ortho_call ortho_example_st0 (0%nat, []) = Ok (1, ortho_example_st1)
  ∧ 1 ∈ RandomOrthoGraph.selectable ortho_example_st0
  ∧ (list_to_set (RandomOrthoGraph.selectable ortho_example_st1) : gset Z)
    = (list_to_set (RandomOrthoGraph.selectable ortho_example_st0)
       ∪ neighbours (A_ ortho_example) 1) ∖ {[1]}
  ∧ (1 ∉ RandomOrthoGraph.selectable ortho_example_st1)
  ∧ NoDup (RandomOrthoGraph.selectable ortho_example_st1)
  ∧ (∀ sel2 : list Z,
       ((list_to_set sel2 : gset Z)
        = list_to_set (RandomOrthoGraph.selectable ortho_example_st0)) →
       RandomOrthoGraph.update_selectable
         (with_selectable ortho_example_st0 sel2) 1
       = Ok ortho_example_st1)
  ∧ (∀ (after : list (nat * list Q)) (outs2 : list Z)
       (st'' : RandomOrthoGraph.t Q),
       run_calls ortho_call ortho_example_st1 after = Ok (outs2, st'') →
       1 ∈ RandomOrthoGraph.selectable st'' →
       ∃ ik', ik' ∈ outs2 ∧ ik' ≠ 1 ∧ 1 ∈ neighbours (A_ ortho_example) ik').
Proof.
  assert (Hwf : well_formed ortho_example) by (split; reflexivity).
  assert (Hinit : RandomOrthoGraph.init ortho_example 1%Q None
                  = Ok ortho_example_st0) by (vm_compute; reflexivity).
  assert (Hrun : run_calls ortho_call ortho_example_st0 []
                 = Ok ([], ortho_example_st0)) by reflexivity.
  assert (Hcall : ortho_call ortho_example_st0 (0%nat, [])
                  = Ok (1, ortho_example_st1)) by (vm_compute; reflexivity).
  split; [exact Hwf|]. split; [exact Hinit|]. split; [exact Hrun|].
  split; [exact Hcall|].
  exact (ortho_graph_selectable_update ortho_example 1%Q None
           ortho_example_st0 [] [] ortho_example_st0 (0%nat, []) 1
           ortho_example_st1 Hwf Hinit Hrun Hcall).
Defined.

(** Rows [1] and [2] are violated at the start; selecting row [1] leaves
    [2]; selecting row [2] then makes its neighbours [0] and [1] selectable
    (again, for row [1]). *)
Example ortho_example_run :
  RandomOrthoGraph.selectable ortho_example_st0 = [1; 2]
  ∧ fst <$> run_calls ortho_call ortho_example_st0
              [(0%nat, []); (0%nat, [])] = Ok [1; 2]
  ∧ (RandomOrthoGraph.selectable ∘ snd)
      <$> run_calls ortho_call ortho_example_st0 [(0%nat, []); (0%nat, [])]
    = Ok [0; 1].
Proof. repeat split; vm_compute; reflexivity. Qed.

(** * SVRandom *)

Lemma np_sum_acc (acc : Q) (l : list Q) :
  (foldl Qplus acc l == acc + foldr Qplus 0 l)%Q.
Proof.
  revert acc. induction l as [|x l IH]; intros acc; simpl.
  - ring.
  - rewrite IH. ring.
Qed.

Lemma np_sum_foldr (l : list Q) : (np_sum l == foldr Qplus 0 l)%Q.
Proof.
  unfold np_sum. change (foldl s_add s_zero) with (foldl Qplus 0%Q).
  by rewrite np_sum_acc, Qplus_0_l.
Qed.

Lemma foldr_squares (norms : list Q) :
  (foldr Qplus 0 ((λ r, r * r) <$> norms) == sum_of_squares norms)%Q.
Proof.
  induction norms as [|r norms IH]; [reflexivity|].
  rewrite fmap_cons. cbn [foldr sum_of_squares]. by rewrite IH.
Qed.

Lemma np_sum_squares (norms : list Q) :
  (np_sum ((λ r, r * r) <$> norms) == sum_of_squares norms)%Q.
Proof. by rewrite np_sum_foldr, foldr_squares. Qed.

Lemma sum_of_squares_nonneg (norms : list Q) : (0 <= sum_of_squares norms)%Q.
Proof.
  induction norms as [|r norms IH]; simpl; [lra|]. nra.
Qed.







Lemma np_sum_zeros (k : nat) :
  np_sum (replicate k (0 * 0)%float) = 0%float.
Proof.
  unfold np_sum. simpl.
  induction k as [|k IH]; simpl; [reflexivity|].
  change (0 + 0 * 0)%float with 0%float. exact IH.
Qed.

(** C9 (amended). In binary64 arithmetic, [SVRandom.__init__] on row norms
    that are all zero raises nothing and falls back on nothing: the sum of
    squares is [0] and every entry of the distribution is [0/0], that is
    NaN. *)
Theorem sv_random_zero_norms_give_nan (A : list (list float))
    (b x0 xk : list float) (n_rows : Z) (k : nat) :
  SVRandom.init (MkBase A b x0 xk n_rows (replicate k 0%float))
  = replicate k nan
  ∧ Forall (λ pi, is_nan pi = true)
      (SVRandom.init (MkBase A b x0 xk n_rows (replicate k 0%float))).
Proof.
  assert (Hp : SVRandom.init (MkBase A b x0 xk n_rows (replicate k 0%float))
               = replicate k nan).
  { unfold SVRandom.init. simpl. rewrite !fmap_replicate.
    rewrite np_sum_zeros. reflexivity. }
  split; [exact Hp|]. rewrite Hp.
  apply Forall_forall. intros x Hx. apply elem_of_replicate in Hx as [-> _].
  reflexivity.
Qed.

(** With two rows of norm zero the construction returns the distribution
    [[nan, nan]]: no exception, no uniform distribution. *)
Lemma sv_random_zero_norms_nan :
  SVRandom.init (MkBase [[0; 0]; [0; 0]] [1; 1] [0; 0] [0; 0] 2 [0; 0])%float
  = [nan; nan]
  ∧ Forall (λ pi, is_nan pi = true)
      (SVRandom.init
         (MkBase [[0; 0]; [0; 0]] [1; 1] [0; 0] [0; 0] 2 [0; 0])%float)
  ∧ (SVRandom.init (MkBase [[0; 0]; [0; 0]] [1; 1] [0; 0] [0; 0] 2 [0; 0])%float
     ≠ [1 / 2; 1 / 2]%float).
Proof.
  split; [reflexivity|]. split; [by repeat constructor|].
  vm_compute. intros E. discriminate E.
Qed.

(** * The argument of the greedy strategies *)

(** C10. [MaxDistance] and [Lookahead] do not read their argument: with the
    same solver state (matrix, right-hand side, stored iterate) and the
    same cache, any two arguments give the same result. *)
Theorem greedy_selection_ignores_argument {R : Type} `{Scalar R}
    (update_iterate : Base R → list R → Z → list R) (norm : list R → R)
    (self : Base R) (next_i : option Z) (xk xk' : list R) :
  MaxDistance.select_row_index self xk = MaxDistance.select_row_index self xk'
  ∧ Lookahead.select_row_index update_iterate norm self next_i xk
    = Lookahead.select_row_index update_iterate norm self next_i xk'.
Proof. split; reflexivity. Qed.

(** The stored iterate, on the other hand, is read: the same argument with
    two stored iterates gives two selections, and [Quantile], which reads
    its argument, separates two arguments. *)
Example selection_reads_stored_iterate :
  MaxDistance.select_row_index
    (MkBase [[1; 0]; [0; 1]]%Q [1; 2]%Q [0; 0]%Q [0; 0]%Q 2 []) [7; 7]%Q
  = Ok 1
  ∧ MaxDistance.select_row_index
      (MkBase [[1; 0]; [0; 1]]%Q [1; 2]%Q [0; 0]%Q [0; 2]%Q 2 []) [7; 7]%Q
    = Ok 0
  ∧ Quantile.select_row_index
      (MkBase [[1; 0]; [0; 1]]%Q [1; 2]%Q [0; 0]%Q [0; 0]%Q 2 [])
      None 0 tt 1 [0; 0]%Q
    = Ok (SKIP, tt)
  ∧ Quantile.select_row_index
      (MkBase [[1; 0]; [0; 1]]%Q [1; 2]%Q [0; 0]%Q [0; 0]%Q 2 [])
      None 0 tt 1 [1; 2]%Q
    = Ok (1, tt).
Proof. repeat split; reflexivity. Qed.

(** * Further properties of Cyclic, MaxDistance and Lookahead *)

Lemma cyclic_run_state {R : Type} (xk : list R) (xks : list (list R))
    (m r : Z) (outs : list Z) (st' : Cyclic.t) :
  0 < m →
  run_calls Cyclic.select_row_index (Cyclic.Mk m r) (xk :: xks)
  = Ok (outs, st') →
  st' = Cyclic.Mk m ((r + 1 + Z.of_nat (length xks)) `mod` m).
Proof.
  intros Hm. revert xk r outs.
  induction xks as [|x xks IH]; intros xk r outs Hrun;
    apply run_calls_cons_inv in Hrun as (ik & s1 & outs' & Hcall & Hrun & ->);
    rewrite cyclic_select_ok in Hcall by done; injection Hcall as <- <-.
  - simpl in Hrun. injection Hrun as <- <-. do 2 f_equal. simpl. lia.
  - rewrite (IH _ _ _ Hrun). f_equal.
    replace ((1 + r) `mod` m + 1 + Z.of_nat (length xks))
      with ((1 + r) `mod` m + (1 + Z.of_nat (length xks))) by lia.
    rewrite Zplus_mod_idemp_l. f_equal. simpl length. lia.
Qed.

(** X1. Whatever index a [Cyclic] strategy over [m > 0] rows has stored (also
    one outside [-1 .. m-1]), no call raises, the call number [j] returns
    [(r + 1 + j) mod m], every index returned is a row, and the index stored
    afterwards is the one the last call returned.  With [m = 0] the first
    call raises [ZeroDivisionError]. *)
Theorem cyclic_from_any_state {R : Type} (m r : Z) (xk : list R)
    (xks : list (list R)) :
  0 ≤ m →
  (m = 0 →
     run_calls Cyclic.select_row_index (Cyclic.Mk m r) (xk :: xks)
     = Error ZeroDivisionError)
  ∧ (0 < m →
     ∃ outs st',
       run_calls Cyclic.select_row_index (Cyclic.Mk m r) (xk :: xks)
       = Ok (outs, st')
       ∧ length outs = S (length xks)
       ∧ (∀ j : nat, (j ≤ length xks)%nat →
            outs !! j = Some ((r + 1 + Z.of_nat j) `mod` m))
       ∧ Forall (λ i, 0 ≤ i < m) outs
       ∧ Cyclic.base_n_rows st' = m
       ∧ outs !! length xks = Some (Cyclic.row_index st')).
Proof.
  intros Hm. split.
  - intros ->. reflexivity.
  - intros Hpos.
    destruct (cyclic_run_lookup (xk :: xks) m r Hpos)
      as (outs & st' & Hrun & Hlen & Hlk).
    exists outs, st'. split; [exact Hrun|]. split; [exact Hlen|].
    assert (Hnth : ∀ j : nat, (j ≤ length xks)%nat →
              outs !! j = Some ((r + 1 + Z.of_nat j) `mod` m)).
    { intros j Hj. apply Hlk. simpl. lia. }
    split; [exact Hnth|]. split.
    { apply Forall_lookup_2. intros j i Hi.
      assert (Hj : (j ≤ length xks)%nat).
      { apply lookup_lt_Some in Hi. simpl in Hlen. lia. }
      rewrite Hnth in Hi by done. injection Hi as <-.
      by apply Z.mod_pos_bound. }
    rewrite (cyclic_run_state xk xks m r outs st' Hpos Hrun). simpl.
    split; [done|]. by apply Hnth.
Qed.

Lemma cyclic_from_any_state_witness :
  0 ≤ 3
  ∧ (3 = 0 →
       run_calls Cyclic.select_row_index (Cyclic.Mk 3 7)
         (([] : list Q) :: [[]; []])
       = Error ZeroDivisionError)
  ∧ (0 < 3 →
       ∃ outs st',
         run_calls Cyclic.select_row_index (Cyclic.Mk 3 7)
           (([] : list Q) :: [[]; []])
         = Ok (outs, st')
         ∧ length outs = S (length [([] : list Q); []])
         ∧ (∀ j : nat, (j ≤ length [([] : list Q); []])%nat →
              outs !! j = Some ((7 + 1 + Z.of_nat j) `mod` 3))
         ∧ Forall (λ i, 0 ≤ i < 3) outs
         ∧ Cyclic.base_n_rows st' = 3
         ∧ outs !! length [([] : list Q); []] = Some (Cyclic.row_index st')).
Proof.
  split; [lia|].
  apply (cyclic_from_any_state 3 7 ([] : list Q) [[]; []]). lia.
Defined.

(** X2. On a system without rows [MaxDistance] raises [ValueError] (the
    largest entry of an empty residual does not exist). *)
Theorem max_distance_no_rows (self : Base Q) (xk : list Q) :
  A_ self = [] ∨ b_ self = [] →
  MaxDistance.select_row_index self xk = Error ValueError.
Proof.
  intros Hempty. unfold MaxDistance.select_row_index.
  assert (Hres : np_abs (np_sub (b_ self) (matvec (A_ self) (xk_ self))) = []).
  { apply length_zero_iff_nil. unfold np_abs, np_sub, matvec.
    rewrite length_fmap, length_zip_with, length_fmap.
    destruct Hempty as [-> | ->]; simpl; lia. }
  by rewrite Hres.
Qed.

Lemma max_distance_no_rows_witness :
  (A_ (MkBase [] [] [0]%Q [0]%Q 0 []) = []
   ∨ b_ (MkBase [] [] [0]%Q [0]%Q 0 []) = [])
  ∧ MaxDistance.select_row_index (MkBase [] [] [0]%Q [0]%Q 0 []) [0]%Q
    = Error ValueError.
Proof.
  assert (Hempty : A_ (MkBase [] [] [0]%Q [0]%Q 0 []) = []
                   ∨ b_ (MkBase [] [] [0]%Q [0]%Q 0 []) = [])
    by (left; reflexivity).
  split; [exact Hempty|].
  exact (max_distance_no_rows (MkBase [] [] [0]%Q [0]%Q 0 []) [0]%Q Hempty).
Defined.

(** X3. On a well-formed system with at least one row, when the residual
    magnitudes at the stored iterate are all equal, in particular when the
    stored iterate solves every equation, [MaxDistance] returns row [0]. *)
Theorem max_distance_all_equal_selects_first (self : Base Q) (xk : list Q)
    (c : Q) :
  well_formed self → 0 < n_rows_ self →
  (∀ (j : nat) rj, row_residual self (xk_ self) j = Some rj →
     (Qabs rj == c)%Q) →
  MaxDistance.select_row_index self xk = Ok 0.
Proof.
  intros [Hn Hb] Hpos Hall.
  set (l := np_abs (np_sub (b_ self) (matvec (A_ self) (xk_ self)))).
  assert (Hlen : length l = length (A_ self)) by by apply residual_length.
  destruct (np_argmax_spec l) as (i & v & Hsel & Hv & _ & Hfirst).
  { intros E. rewrite E in Hlen. simpl in Hlen. lia. }
  unfold MaxDistance.select_row_index. fold l. rewrite Hsel.
  destruct i as [|i]; [done|]. exfalso.
  destruct (lookup_lt_is_Some_2 l 0%nat) as [w Hw]; [lia|].
  pose proof (Hfirst 0%nat w ltac:(lia) Hw) as Hlt.
  unfold l in Hv, Hw. rewrite residual_lookup in Hv, Hw.
  destruct (row_residual self (xk_ self) (S i)) as [ri|] eqn:Hri; [|done].
  destruct (row_residual self (xk_ self) 0) as [r0|] eqn:Hr0; [|done].
  injection Hv as <-. injection Hw as <-.
  rewrite (Hall _ _ Hri), (Hall _ _ Hr0) in Hlt. lra.
Qed.

Lemma max_distance_all_equal_selects_first_witness :
  well_formed identity_example ∧ 0 < n_rows_ identity_example
  ∧ (∀ (j : nat) rj,
       row_residual identity_example (xk_ identity_example) j = Some rj →
       (Qabs rj == 1)%Q)
  ∧ MaxDistance.select_row_index identity_example [] = Ok 0.
Proof.
  assert (Hwf : well_formed identity_example) by (split; reflexivity).
  assert (Hpos : 0 < n_rows_ identity_example) by (simpl; lia).
  assert (Hall : ∀ (j : nat) rj,
            row_residual identity_example (xk_ identity_example) j = Some rj →
            (Qabs rj == 1)%Q).
  { intros [|[|j]] rj Hj; vm_compute in Hj; [| |discriminate];
      injection Hj as <-; reflexivity. }
  split; [exact Hwf|]. split; [exact Hpos|]. split; [exact Hall|].
  exact (max_distance_all_equal_selects_first identity_example [] 1%Q
           Hwf Hpos Hall).
Defined.

Section lookahead_more.
Variable update_iterate : Base Q → list Q → Z → list Q.
Variable norm : list Q → Q.

(** X4. On a solver without rows, a call of [Lookahead] with an empty cache
    does not raise: it returns [-1] and caches [-1], which the following
    call returns in turn. *)
Theorem lookahead_no_rows (self self' : Base Q) (xk xk' : list Q) :
  n_rows_ self ≤ 0 →
  Lookahead.select_row_index update_iterate norm self None xk
  = Ok (-1, Some (-1))
  ∧ Lookahead.select_row_index update_iterate norm self' (Some (-1)) xk'
    = Ok (-1, None).
Proof.
  intros Hn. split; [|reflexivity].
  unfold Lookahead.select_row_index, Lookahead.search, py_range.
  assert (Hrange : seqZ 0 (n_rows_ self) = []).
  { apply length_zero_iff_nil. rewrite length_seqZ. lia. }
  by rewrite Hrange.
Qed.

Lemma candidate_in_range (self : Base Q) (ik ik2 : Z) (key : Q * Q) :
  well_formed self →
  Lookahead.candidate update_iterate norm self ik = Ok (ik2, key) →
  0 ≤ ik2 < n_rows_ self.
Proof.
  intros [Hn Hb]. unfold Lookahead.candidate.
  set (next_xk := update_iterate self (xk_ self) ik).
  set (l := np_abs (np_sub (b_ self) (matvec (A_ self) next_xk))).
  pose proof (residual_length self next_xk Hb) as Hlen. fold l in Hlen.
  destruct l as [|x l'] eqn:El; [simpl; intros; discriminate|].
  destruct (np_argmax_spec (x :: l')) as (i & v & Hsel & Hv & _); [done|].
  rewrite Hsel. simpl. intros [= <- _].
  apply lookup_lt_Some in Hv. lia.
Qed.

(** X5. In exact arithmetic (every norm is a number, none infinite or NaN),
    on a well-formed system with at least one row, both indices a search of
    [Lookahead] produces, the one it returns and the one it caches for the
    following call, are row indices, never [-1]. *)
Theorem lookahead_search_returns_rows (self : Base Q) (xk : list Q) :
  well_formed self → 0 < n_rows_ self →
  ∃ i i2,
    Lookahead.select_row_index update_iterate norm self None xk
    = Ok (i, Some i2)
    ∧ 0 ≤ i < n_rows_ self ∧ 0 ≤ i2 < n_rows_ self
    ∧ i ≠ SKIP ∧ i2 ≠ SKIP.
Proof.
  intros Hwf Hpos.
  destruct (search_finds_first_least update_iterate norm self Hwf Hpos)
    as (acc & Hsearch & best_i & next_i & key & -> & Hbi & Hcand & _).
  pose proof (candidate_in_range self best_i next_i key Hwf Hcand) as Hi2.
  exists best_i, next_i. unfold Lookahead.select_row_index. rewrite Hsearch.
  unfold SKIP. simpl. repeat split; lia.
Qed.

End lookahead_more.

Lemma lookahead_no_rows_witness :
  n_rows_ (MkBase [] [] [0]%Q [0]%Q 0 []) ≤ 0
  ∧ Lookahead.select_row_index project sq_norm (MkBase [] [] [0]%Q [0]%Q 0 [])
      None [0]%Q
    = Ok (-1, Some (-1))
  ∧ Lookahead.select_row_index project sq_norm identity_example (Some (-1))
      [0; 0]%Q
    = Ok (-1, None).
Proof.
  assert (Hn : n_rows_ (MkBase [] [] [0]%Q [0]%Q 0 []) ≤ 0) by (simpl; lia).
  split; [exact Hn|].
  exact (lookahead_no_rows project sq_norm (MkBase [] [] [0]%Q [0]%Q 0 [])
           identity_example [0]%Q [0; 0]%Q Hn).
Defined.

Lemma lookahead_search_returns_rows_witness :
  well_formed identity_example ∧ 0 < n_rows_ identity_example
  ∧ ∃ i i2,
      Lookahead.select_row_index project sq_norm identity_example None []
      = Ok (i, Some i2)
      ∧ 0 ≤ i < n_rows_ identity_example
      ∧ 0 ≤ i2 < n_rows_ identity_example
      ∧ i ≠ SKIP ∧ i2 ≠ SKIP.
Proof.
  assert (Hwf : well_formed identity_example) by (split; reflexivity).
  assert (Hpos : 0 < n_rows_ identity_example) by (simpl; lia).
  split; [exact Hwf|]. split; [exact Hpos|].
  exact (lookahead_search_returns_rows project sq_norm identity_example []
           Hwf Hpos).
Defined.

Lemma run_calls_cons_ok {S I : Type} (step : S → I → py (Z * S)) (st st1 : S)
    (i : I) (inputs : list I) (ik : Z) (outs : list Z) (st' : S) :
  step st i = Ok (ik, st1) →
  run_calls step st1 inputs = Ok (outs, st') →
  run_calls step st (i :: inputs) = Ok (ik :: outs, st').
Proof. intros Hstep Hrun. simpl. rewrite Hstep. simpl. by rewrite Hrun. Qed.

Section lookahead_runs.
Variable update_iterate : Base Q → list Q → Z → list Q.
Variable norm : list Q → Q.

Lemma searches_succ (next_i : option Z) (i2 : Z) (k : nat) :
  searches None (S k) = searches (Some i2) k
  ∧ searches (Some i2) (S k) = searches None k.
Proof.
  unfold searches. by rewrite Nat.even_succ, Nat.odd_succ.
Qed.

(** X6. Calls of [Lookahead] come in pairs.  In exact arithmetic (every
    norm is a number, none infinite or NaN), on well-formed systems with at
    least one row (the solver state may change from call to call), no call
    raises; the calls that find the cache empty are every other one; each
    of them returns a row [i] and is followed by a call that returns the
    second step [i2] computed for [i] at the time of the search, whatever
    the state of the solver by then; and the cache is empty again after
    each such pair. *)
Theorem lookahead_calls_come_in_pairs (calls : list (Base Q * list Q))
    (next_i : option Z) :
  Forall (λ c, well_formed c.1 ∧ 0 < n_rows_ c.1) calls →
  ∃ outs st',
    run_calls (lookahead_call update_iterate norm) next_i calls
    = Ok (outs, st')
    ∧ length outs = length calls
    ∧ (st' = None ↔ searches next_i (length calls) = true)
    ∧ (∀ t, next_i = Some t → calls ≠ [] → outs !! 0%nat = Some t)
    ∧ ∀ (k : nat) c i,
        calls !! k = Some c → outs !! k = Some i →
        searches next_i k = true →
        ∃ i2 key,
          Lookahead.candidate update_iterate norm c.1 i = Ok (i2, key)
          ∧ 0 ≤ i < n_rows_ c.1
          ∧ ∀ i', outs !! S k = Some i' → i' = i2.
Proof.
  revert next_i. induction calls as [|c calls IH]; intros next_i Hall.
  - exists [], next_i. split; [done|]. split; [done|]. split.
    { destruct next_i; simpl; split; done. }
    split; [done|]. intros k c i Hc. by rewrite lookup_nil in Hc.
  - apply Forall_cons in Hall as [[Hwf Hpos] Hall].
    destruct next_i as [t|].
    + destruct (IH None Hall) as (outs & st' & Hrun & Hlen & Hst & _ & Hcalls).
      exists (t :: outs), st'. split.
      { by apply (run_calls_cons_ok _ _ None). }
      split; [simpl; by rewrite Hlen|]. split.
      { simpl length. by rewrite (proj2 (searches_succ None t _)). }
      split; [by intros ? [= ->] _|].
      intros [|k] c' i Hc' Hi Hs; [done|]. simpl in Hc', Hi.
      rewrite (proj2 (searches_succ None t _)) in Hs.
      apply (Hcalls k c' i Hc' Hi Hs).
    + destruct (search_finds_first_least update_iterate norm c.1 Hwf Hpos)
        as (acc & Hsearch & best_i & i2 & key & -> & Hbi & Hcand & _).
      destruct (IH (Some i2) Hall) as (outs & st' & Hrun & Hlen & Hst & Hhd & Hcalls).
      exists (best_i :: outs), st'. split.
      { apply (run_calls_cons_ok _ _ (Some i2)); [|done].
        unfold lookahead_call, Lookahead.select_row_index.
        by rewrite Hsearch. }
      split; [simpl; by rewrite Hlen|]. split.
      { simpl length. by rewrite (proj1 (searches_succ None i2 _)). }
      split; [done|].
      intros [|k] c' i Hc' Hi Hs; simpl in Hc', Hi.
      * injection Hc' as <-. injection Hi as <-.
        exists i2, key. split; [done|]. split; [done|].
        intros i' Hi'. simpl in Hi'.
        destruct calls as [|c2 calls]; [simpl in Hlen; by destruct outs|].
        rewrite (Hhd i2 eq_refl ltac:(done)) in Hi'. by injection Hi'.
      * rewrite (proj1 (searches_succ None i2 _)) in Hs.
        apply (Hcalls k c' i Hc' Hi Hs).
Qed.

End lookahead_runs.

Lemma lookahead_calls_come_in_pairs_witness :
  Forall (λ c : Base Q * list Q, well_formed c.1 ∧ 0 < n_rows_ c.1)
    [(identity_example, []); (identity_example, [])]
  ∧ ∃ outs st',
      run_calls (lookahead_call project sq_norm) None
        [(identity_example, []); (identity_example, [])]
      = Ok (outs, st')
      ∧ length outs = length [(identity_example, ([] : list Q));
                              (identity_example, [])]
      ∧ (st' = None
         ↔ searches None
             (length [(identity_example, ([] : list Q));
                      (identity_example, [])]) = true)
      ∧ (∀ t, None = Some t →
           [(identity_example, ([] : list Q)); (identity_example, [])] ≠ [] →
           outs !! 0%nat = Some t)
      ∧ ∀ (k : nat) c i,
          [(identity_example, ([] : list Q)); (identity_example, [])] !! k
          = Some c →
          outs !! k = Some i →
          searches None k = true →
          ∃ i2 key,
            Lookahead.candidate project sq_norm c.1 i = Ok (i2, key)
            ∧ 0 ≤ i < n_rows_ c.1
            ∧ ∀ i', outs !! S k = Some i' → i' = i2.
Proof.
  assert (Hall : Forall (λ c : Base Q * list Q,
                    well_formed c.1 ∧ 0 < n_rows_ c.1)
                   [(identity_example, []); (identity_example, [])]).
  { repeat constructor; simpl; lia. }
  split; [exact Hall|].
  exact (lookahead_calls_come_in_pairs project sq_norm
           [(identity_example, []); (identity_example, [])] None Hall).
Defined.

(** * Further properties of the quantile family *)

(** The shape of a quantile: an interpolation between two neighbouring
    order statistics. *)
Lemma np_quantile_form (a : list Q) (q : Q) :
  a ≠ [] → (0 <= q <= 1)%Q →
  ∃ (previous next : Z) (lo hi g v : Q),
    np_quantile a q = Ok v
    ∧ (v == lo + (hi - lo) * g)%Q
    ∧ (inject_Z previous + g == q * inject_Z (Z.of_nat (length a) - 1))%Q
    ∧ (0 <= g < 1)%Q
    ∧ 0 ≤ previous ≤ next
    ∧ next = Z.min (previous + 1) (Z.of_nat (length a) - 1)
    ∧ np_sort a !! Z.to_nat previous = Some lo
    ∧ np_sort a !! Z.to_nat next = Some hi.
Proof.
  intros Ha Hq.
  assert (Hn : (0 < length a)%nat) by (destruct a; [done|simpl; lia]).
  set (n1 := Z.of_nat (length a) - 1).
  assert (Hn1 : (0 <= inject_Z n1)%Q).
  { change 0%Q with (inject_Z 0). rewrite <- Zle_Qle. unfold n1. lia. }
  set (x := (q * inject_Z n1)%Q).
  assert (Hlo : 0 ≤ Qfloor x).
  { change 0 with (Qfloor 0). apply Qfloor_resp_le. unfold x. nra. }
  assert (Hhi : Qfloor x ≤ n1).
  { transitivity (Qfloor (inject_Z n1)); [|by rewrite Qfloor_Z].
    apply Qfloor_resp_le. unfold x. nra. }
  rewrite (np_quantile_eval a q (Qfloor x)); [|done..].
  destruct (getitem_nonneg (np_sort a) (Qfloor x)) as (lo & Hglo & Hlo').
  { rewrite np_sort_length. unfold n1 in *. lia. }
  destruct (getitem_nonneg (np_sort a) (Z.min (Qfloor x + 1) n1))
    as (hi & Hghi & Hhi').
  { rewrite np_sort_length. unfold n1 in *. lia. }
  fold n1. fold x. rewrite Hglo, Hghi. simpl.
  exists (Qfloor x), (Z.min (Qfloor x + 1) n1), lo, hi,
    (x - inject_Z (Qfloor x))%Q. eexists.
  split; [reflexivity|]. split; [reflexivity|]. split; [ring|].
  split.
  { pose proof (Qfloor_le x). pose proof (Qlt_floor x) as Hlt.
    rewrite inject_Z_plus in Hlt. change (inject_Z 1) with 1%Q in Hlt. lra. }
  unfold n1 in *. repeat split; (done || lia).
Qed.

(** A quantile lies between the order statistics it interpolates. *)
Lemma np_quantile_between (a : list Q) (q : Q) :
  a ≠ [] → (0 <= q <= 1)%Q →
  ∃ v, np_quantile a q = Ok v
       ∧ ∀ lo hi, (∀ w, w ∈ a → (lo <= w <= hi)%Q) → (lo <= v <= hi)%Q.
Proof.
  intros Ha Hq.
  destruct (np_quantile_form a q Ha Hq)
    as (i & j & si & sj & g & v & Hv & Hform & _ & Hg & Hij & _ & Hsi & Hsj).
  exists v. split; [done|]. intros lo hi Hbounds.
  assert (Hle : (si <= sj)%Q).
  { eapply np_sort_lookup_le; [|exact Hsi|exact Hsj]. lia. }
  assert (Hsi' : (lo <= si <= hi)%Q).
  { apply Hbounds. rewrite <- np_sort_perm. by eapply list_elem_of_lookup_2. }
  assert (Hsj' : (lo <= sj <= hi)%Q).
  { apply Hbounds. rewrite <- np_sort_perm. by eapply list_elem_of_lookup_2. }
  rewrite Hform. split; nra.
Qed.

(** Quantiles grow with their order. *)
Lemma np_quantile_monotone (a : list Q) (q q' : Q) :
  a ≠ [] → (0 <= q)%Q → (q <= q')%Q → (q' <= 1)%Q →
  ∃ v v', np_quantile a q = Ok v ∧ np_quantile a q' = Ok v' ∧ (v <= v')%Q.
Proof.
  intros Ha Hq0 Hqq Hq1.
  destruct (np_quantile_form a q Ha ltac:(lra))
    as (i & j & si & sj & g & v & Hv & Hform & Hpos & Hg & Hij & Hj & Hsi & Hsj).
  destruct (np_quantile_form a q' Ha ltac:(lra))
    as (i' & j' & si' & sj' & g' & v' & Hv' & Hform' & Hpos' & Hg' & Hij' & Hj'
        & Hsi' & Hsj').
  exists v, v'. split; [done|]. split; [done|].
  assert (Hn : (0 < length a)%nat) by (destruct a; [done|simpl; lia]).
  assert (Hn1 : (0 <= inject_Z (Z.of_nat (length a) - 1))%Q).
  { change 0%Q with (inject_Z 0). rewrite <- Zle_Qle. lia. }
  assert (Hle : (si <= sj)%Q).
  { eapply np_sort_lookup_le; [|exact Hsi|exact Hsj]. lia. }
  assert (Hle' : (si' <= sj')%Q).
  { eapply np_sort_lookup_le; [|exact Hsi'|exact Hsj']. lia. }
  assert (Hpp : (inject_Z i + g <= inject_Z i' + g')%Q).
  { rewrite Hpos, Hpos'. nra. }
  assert (Hii : i ≤ i').
  { apply Z.lt_succ_r. rewrite Zlt_Qlt. unfold Z.succ.
    rewrite inject_Z_plus. change (inject_Z 1) with 1%Q. lra. }
  rewrite Hform, Hform'.
  destruct (decide (i = i')) as [<-|Hne].
  - assert (j' = j) as -> by lia.
    rewrite Hsi in Hsi'. injection Hsi' as <-.
    rewrite Hsj in Hsj'. injection Hsj' as <-.
    assert (g <= g')%Q by lra. nra.
  - assert (Hjle : (sj <= si')%Q).
    { eapply np_sort_lookup_le; [|exact Hsj|exact Hsi']. lia. }
    nra.
Qed.

Lemma quantile_distances_nonempty (self : Base Q) (xk : list Q) (draw : Z) :
  well_formed self → 0 ≤ draw < n_rows_ self →
  Quantile.threshold_distances self xk ≠ [].
Proof.
  intros Hwf Hdraw.
  destruct (quantile_distance_ok self xk draw Hwf Hdraw) as (r & _ & _ & Hin).
  intros E. by rewrite E in Hin.
Qed.

(** Whatever the two overridden methods and their state, a call that does
    not raise returns the proposal or [SKIP]. *)
Lemma hooks_return_proposal_or_skip {S : Type} `{QuantileHooks S}
    (self : Base Q) (p : option (list Q)) (quantile : Q) (st : S) (draw : Z)
    (xk : list Q) (r : Z) (st' : S) :
  Quantile.select_row_index self p quantile st draw xk = Ok (r, st') →
  r = draw ∨ r = SKIP.
Proof.
  unfold Quantile.select_row_index, Random.select_row_index, Random.choice.
  destruct (n_rows_ self <=? 0) eqn:En; simpl; [intros; discriminate|].
  destruct (hook_distance self st xk draw) as [[d st1]|e] eqn:Ed; simpl;
    [|intros; discriminate].
  destruct (Quantile.threshold self quantile st1 xk) as [t|e]; simpl;
    [|intros; discriminate].
  destruct (negb (Qle_bool t d) || np_isclose d t); intros [= <- <-];
    [by left|by right].
Qed.

(** X7. For each class of the quantile family, [Quantile] (in exact
    arithmetic and in binary64), [WindowedQuantile] and [SampledQuantile], a
    call of [_select_row_index] that does not raise returns the proposal of
    the wrapped [Random] policy or [SKIP], never another row. *)
Theorem quantile_family_returns_proposal_or_skip (self : Base Q)
    (p : option (list Q)) (quantile : Q) (draw : Z) (xk : list Q)
    (window : WindowedQuantile.deque) (n_samples : Z) (sample : list Z)
    (self64 : Base float) (p64 : option (list float)) (xk64 : list float) :
  (∀ r, Quantile.select_row_index self p quantile tt draw xk = Ok (r, tt) →
        r = draw ∨ r = SKIP)
  ∧ (∀ r window',
       WindowedQuantile.select_row_index self p quantile window draw xk
       = Ok (r, window') →
       r = draw ∨ r = SKIP)
  ∧ (∀ r, SampledQuantile.select_row_index self p quantile n_samples draw
            sample xk = Ok r →
          r = draw ∨ r = SKIP)
  ∧ (∀ r, Binary64.Quantile.select_row_index self64 p64 quantile draw xk64
          = Ok r →
          r = draw ∨ r = SKIP).
Proof.
  split; [|split; [|split]].
  - intros r. apply hooks_return_proposal_or_skip.
  - intros r window'. apply hooks_return_proposal_or_skip.
  - intros r.
    unfold SampledQuantile.select_row_index, Random.select_row_index,
      Random.choice.
    destruct (n_rows_ self <=? 0); simpl; [intros; discriminate|].
    destruct (Quantile.distance self xk draw) as [d|e]; simpl;
      [|intros; discriminate].
    destruct (SampledQuantile.threshold self quantile n_samples sample xk)
      as [t|e]; simpl; [|intros; discriminate].
    destruct (negb (Qle_bool t d) || np_isclose d t); intros [= <-];
      [by left|by right].
  - intros r.
    unfold Binary64.Quantile.select_row_index, Random.select_row_index,
      Random.choice.
    destruct (n_rows_ self64 <=? 0); simpl; [intros; discriminate|].
    destruct (Binary64.Quantile.distance self64 xk64 draw) as [d|e]; simpl;
      [|intros; discriminate].
    destruct (Binary64.Quantile.threshold self64 quantile xk64) as [t|e];
      simpl; [|intros; discriminate].
    destruct ((d <? t)%float || Binary64.np_isclose d t); intros [= <-];
      [by left|by right].
Qed.

Lemma quantile_family_returns_proposal_or_skip_witness :
  Quantile.select_row_index quantile_far_example None 0 tt 1 [0]%Q
  = Ok (SKIP, tt)
  ∧ (SKIP = 1 ∨ SKIP = SKIP).
Proof.
  assert (Hsel : Quantile.select_row_index quantile_far_example None 0 tt 1
                   [0]%Q = Ok (SKIP, tt)) by reflexivity.
  split; [exact Hsel|].
  exact (proj1 (quantile_family_returns_proposal_or_skip quantile_far_example
                  None 0 1 [0]%Q (WindowedQuantile.MkDeque 2 []) 2 [0; 1]
                  quantile_float_example None [0]%float) SKIP Hsel).
Defined.

(** X8. In exact arithmetic, for every quantile in [[0, 1]], on a
    well-formed system, [Quantile] returns a proposal whose distance is the
    least of the residual magnitudes: the best-satisfied row is never
    rejected. *)
Theorem quantile_accepts_least_distance (self : Base Q)
    (p : option (list Q)) (quantile : Q) (draw : Z) (xk : list Q) (d : Q) :
  well_formed self → 0 ≤ draw < n_rows_ self → (0 <= quantile <= 1)%Q →
  Quantile.distance self xk draw = Ok d →
  (∀ w, w ∈ Quantile.threshold_distances self xk → (d <= w)%Q) →
  Quantile.select_row_index self p quantile tt draw xk = Ok (draw, tt).
Proof.
  intros Hwf Hdraw Hq Hd Hleast.
  destruct (quantile_distance_ok self xk draw Hwf Hdraw) as (r & _ & Hd' & Hin).
  rewrite Hd in Hd'. injection Hd' as ->.
  pose proof (quantile_distances_nonempty self xk draw Hwf Hdraw) as Hne.
  destruct (np_quantile_between _ quantile Hne Hq) as (t & Ht & Hbounds).
  assert (Hmax : ∃ hi, ∀ w, w ∈ Quantile.threshold_distances self xk →
            (w <= hi)%Q).
  { destruct (np_quantile_one _ Hne) as (_ & hi & _ & _ & _ & Hhi).
    by exists hi. }
  destruct Hmax as (hi & Hhi).
  destruct (Hbounds (Qabs r) hi) as [Hlo _]; [by auto|].
  rewrite (quantile_select_unfold self p quantile draw xk (Qabs r) t)
    by (done || lia).
  destruct (Qle_bool t (Qabs r)) eqn:E; simpl; [|done].
  apply Qle_bool_iff in E. rewrite np_isclose_eq; [done|lra].
Qed.

Lemma accept_test_monotone (d t t' : Q) :
  (0 <= t)%Q → (t <= t')%Q →
  negb (Qle_bool t d) || np_isclose d t = true →
  negb (Qle_bool t' d) || np_isclose d t' = true.
Proof.
  intros Ht Htt Hacc.
  destruct (Qle_bool t' d) eqn:E'; simpl; [|done].
  apply Qle_bool_iff in E'.
  assert (E : Qle_bool t d = true) by (apply Qle_bool_iff; lra).
  rewrite E in Hacc. simpl in Hacc.
  apply np_isclose_iff in Hacc. apply np_isclose_iff.
  rewrite (Qabs_pos t) in Hacc by lra.
  rewrite (Qabs_pos (d - t)) in Hacc by lra.
  rewrite (Qabs_pos t') by lra. rewrite (Qabs_pos (d - t')) by lra.
  unfold atol, rtol in *. lra.
Qed.

(** X9. In exact arithmetic, acceptance by [Quantile] is monotone in the
    quantile: on a well-formed system, a proposal returned with quantile
    [q] is returned with every larger quantile [q' <= 1], at the same
    iterate. *)
Theorem quantile_accepts_more_at_higher_quantile (self : Base Q)
    (p : option (list Q)) (q q' : Q) (draw : Z) (xk : list Q) :
  well_formed self → 0 ≤ draw < n_rows_ self →
  (0 <= q)%Q → (q <= q')%Q → (q' <= 1)%Q →
  Quantile.select_row_index self p q tt draw xk = Ok (draw, tt) →
  Quantile.select_row_index self p q' tt draw xk = Ok (draw, tt).
Proof.
  intros Hwf Hdraw Hq0 Hqq Hq1.
  destruct (quantile_distance_ok self xk draw Hwf Hdraw) as (r & _ & Hd & Hin).
  pose proof (quantile_distances_nonempty self xk draw Hwf Hdraw) as Hne.
  destruct (np_quantile_monotone _ q q' Hne Hq0 Hqq Hq1)
    as (t & t' & Ht & Ht' & Htt).
  assert (Ht0 : (0 <= t)%Q).
  { destruct (np_quantile_between _ q Hne ltac:(lra)) as (t0 & Ht0 & Hbounds).
    rewrite Ht in Ht0. injection Ht0 as <-.
    destruct (np_quantile_one _ Hne) as (_ & hi & _ & _ & _ & Hhi).
    apply (Hbounds 0%Q hi). intros w Hw. split; [|by apply Hhi].
    unfold Quantile.threshold_distances, np_abs in Hw.
    apply list_elem_of_fmap in Hw as (y & -> & _). apply Qabs_nonneg. }
  rewrite (quantile_select_unfold self p q draw xk (Qabs r) t) by (done || lia).
  rewrite (quantile_select_unfold self p q' draw xk (Qabs r) t') by (done || lia).
  destruct (negb (Qle_bool t (Qabs r)) || np_isclose (Qabs r) t) eqn:E.
  - intros _. by rewrite (accept_test_monotone (Qabs r) t t' Ht0 Htt E).
  - intros [= Hdraw']. lia.
Qed.

Lemma quantile_accepts_least_distance_witness :
  well_formed quantile_far_example ∧ 0 ≤ 0 < n_rows_ quantile_far_example
  ∧ (0 <= 1 # 2 <= 1)%Q
  ∧ Quantile.distance quantile_far_example [0]%Q 0 = Ok 1%Q
  ∧ (∀ w, w ∈ Quantile.threshold_distances quantile_far_example [0]%Q →
          (1 <= w)%Q)
  ∧ Quantile.select_row_index quantile_far_example None (1 # 2) tt 0 [0]%Q
    = Ok (0, tt).
Proof.
  assert (Hwf : well_formed quantile_far_example) by (split; reflexivity).
  assert (Hdraw : 0 ≤ 0 < n_rows_ quantile_far_example) by (simpl; lia).
  assert (Hq : (0 <= 1 # 2 <= 1)%Q) by lra.
  assert (Hd : Quantile.distance quantile_far_example [0]%Q 0 = Ok 1%Q)
    by reflexivity.
  assert (Hleast : ∀ w,
            w ∈ Quantile.threshold_distances quantile_far_example [0]%Q →
            (1 <= w)%Q).
  { assert (Hlist : Quantile.threshold_distances quantile_far_example [0]%Q
                    = [1; 2]%Q) by reflexivity.
    intros w Hw. rewrite Hlist in Hw.
    apply elem_of_cons in Hw as [->|Hw]; [lra|].
    apply list_elem_of_singleton in Hw as ->. lra. }
  split; [exact Hwf|]. split; [exact Hdraw|]. split; [exact Hq|].
  split; [exact Hd|]. split; [exact Hleast|].
  exact (quantile_accepts_least_distance quantile_far_example None (1 # 2) 0
           [0]%Q 1%Q Hwf Hdraw Hq Hd Hleast).
Defined.

Lemma quantile_accepts_more_at_higher_quantile_witness :
  well_formed quantile_far_example ∧ 0 ≤ 0 < n_rows_ quantile_far_example
  ∧ (0 <= 1 # 2)%Q ∧ (1 # 2 <= 1)%Q ∧ (1 <= 1)%Q
  ∧ Quantile.select_row_index quantile_far_example None (1 # 2) tt 0 [0]%Q
    = Ok (0, tt)
  ∧ Quantile.select_row_index quantile_far_example None 1 tt 0 [0]%Q
    = Ok (0, tt).
Proof.
  assert (Hwf : well_formed quantile_far_example) by (split; reflexivity).
  assert (Hdraw : 0 ≤ 0 < n_rows_ quantile_far_example) by (simpl; lia).
  assert (Hq0 : (0 <= 1 # 2)%Q) by lra.
  assert (Hqq : (1 # 2 <= 1)%Q) by lra.
  assert (Hq1 : (1 <= 1)%Q) by lra.
  assert (Hsel : Quantile.select_row_index quantile_far_example None (1 # 2)
                   tt 0 [0]%Q = Ok (0, tt)) by reflexivity.
  split; [exact Hwf|]. split; [exact Hdraw|]. split; [exact Hq0|].
  split; [exact Hqq|]. split; [exact Hq1|]. split; [exact Hsel|].
  exact (quantile_accepts_more_at_higher_quantile quantile_far_example None
           (1 # 2) 1 0 [0]%Q Hwf Hdraw Hq0 Hqq Hq1 Hsel).
Defined.

(** * Further properties of WindowedQuantile *)

Lemma run_calls_length {S I : Type} (step : S → I → py (Z * S)) (st : S)
    (inputs : list I) (outs : list Z) (st' : S) :
  run_calls step st inputs = Ok (outs, st') → length outs = length inputs.
Proof.
  revert st outs. induction inputs as [|i inputs IH]; intros st outs Hrun.
  - simpl in Hrun. by injection Hrun as <- _.
  - apply run_calls_cons_inv in Hrun as (ik & s1 & outs' & _ & Hrun & ->).
    simpl. f_equal. by eapply IH.
Qed.

Lemma accept_below_threshold (d t : Q) (ik : Z) :
  (d <= t)%Q → accept d t ik = ik.
Proof.
  intros Hle. unfold accept.
  destruct (Qle_bool t d) eqn:E; simpl; [|done].
  apply Qle_bool_iff in E. rewrite np_isclose_eq; [done|lra].
Qed.

Lemma newest_in_recent (w : Z) (ds : list Q) (k : nat) (d : Q) :
  0 < w → ds !! k = Some d → d ∈ recent w (take (S k) ds).
Proof.
  intros Hw Hd. apply lookup_lt_Some in Hd as Hk.
  unfold recent. rewrite length_take.
  replace (S k `min` length ds)%nat with (S k) by lia.
  apply (list_elem_of_lookup_2 _ (k - (S k - Z.to_nat w))%nat).
  rewrite lookup_drop.
  replace (S k - Z.to_nat w + (k - (S k - Z.to_nat w)))%nat with k by lia.
  by rewrite lookup_take_lt by lia.
Qed.

Lemma recent_single (w : Z) (ds : list Q) (k : nat) (d : Q) :
  0 < w → ds !! k = Some d → k = 0%nat ∨ w = 1 →
  recent w (take (S k) ds) = [d].
Proof.
  intros Hw Hd Hcase. apply lookup_lt_Some in Hd as Hk.
  unfold recent. rewrite length_take.
  replace (S k `min` length ds)%nat with (S k) by lia.
  replace (S k - Z.to_nat w)%nat with k by (destruct Hcase; lia).
  apply list_eq. intros [|i].
  - rewrite lookup_drop, Nat.add_0_r, lookup_take_lt by lia. done.
  - rewrite lookup_drop, lookup_take_ge by lia. done.
Qed.

Lemma distances_lookup (self : Base Q) (calls : list (list Q * Z))
    (ds : list Q) (k : nat) (c : list Q * Z) :
  Forall2 (λ c d, Quantile.distance self c.1 c.2 = Ok d) calls ds →
  calls !! k = Some c →
  ∃ d, ds !! k = Some d ∧ Quantile.distance self c.1 c.2 = Ok d.
Proof.
  intros Hds Hc.
  destruct (Forall2_lookup_l _ _ _ _ _ Hds Hc) as (d & Hd & Hdist).
  by exists d.
Qed.

(** X10. In exact arithmetic, with [quantile = 1] and a window of capacity
    [w > 0], [WindowedQuantile] never rejects: on a well-formed system,
    every call returns the proposal of the wrapped [Random] policy (the
    newest distance is in the window, so the threshold is at least that
    distance). *)
Theorem windowed_quantile_one_never_rejects (self : Base Q)
    (p : option (list Q)) (window_size : option Z)
    (calls : list (list Q * Z)) :
  well_formed self →
  0 < default (n_rows_ self) window_size →
  Forall (λ c, 0 ≤ c.2 < n_rows_ self) calls →
  ∃ window0 outs window,
    WindowedQuantile.init self window_size = Ok window0
    ∧ run_calls (windowed_call self p 1) window0 calls = Ok (outs, window)
    ∧ outs = snd <$> calls.
Proof.
  intros Hwf Hw Hall.
  set (w := default (n_rows_ self) window_size) in *.
  set (window0 := WindowedQuantile.MkDeque w []).
  assert (Hinit : WindowedQuantile.init self window_size = Ok window0).
  { unfold WindowedQuantile.init, WindowedQuantile.deque_new.
    change (match window_size with Some w0 => w0 | None => n_rows_ self end)
      with w.
    destruct (w <? 0) eqn:E; [lia|done]. }
  assert (Hq : (0 <= 1 <= 1)%Q) by lra.
  destruct (windowed_run_spec self p 1 Hwf Hq calls window0 [])
    as (ds & outs & window & Hds & Hrun & _ & _ & Hcalls); [done|done|done|].
  exists window0, outs, window. split; [done|]. split; [done|].
  pose proof (run_calls_length _ _ _ _ _ Hrun) as Hlen.
  apply list_eq. intros k. rewrite list_lookup_fmap.
  destruct (calls !! k) as [c|] eqn:Hc; simpl.
  - destruct (distances_lookup self calls ds k c Hds Hc) as (d & Hd & _).
    destruct (Hcalls k c d Hc Hd) as (thr & Hthr & ->). simpl in Hthr.
    f_equal. apply accept_below_threshold.
    pose proof (newest_in_recent w ds k d Hw Hd) as Hin.
    destruct (np_quantile_one (recent w (take (S k) ds)))
      as (v & m & Hv & Hvm & _ & Hmax).
    { intros E. rewrite E in Hin. by apply elem_of_nil in Hin. }
    rewrite Hthr in Hv. injection Hv as <-. rewrite Hvm. by apply Hmax.
  - apply lookup_ge_None. apply lookup_ge_None in Hc. lia.
Qed.

(** X11. In exact arithmetic, whatever the quantile in [[0, 1]],
    [WindowedQuantile] returns the proposal whenever the window holds
    nothing but the newest distance: at the first call, and at every call
    when the window has capacity [1]. *)
Theorem windowed_single_distance_never_rejects (self : Base Q)
    (p : option (list Q)) (quantile : Q) (window_size : option Z)
    (calls : list (list Q * Z)) :
  well_formed self → (0 <= quantile <= 1)%Q →
  0 < default (n_rows_ self) window_size →
  Forall (λ c, 0 ≤ c.2 < n_rows_ self) calls →
  ∃ window0 outs window,
    WindowedQuantile.init self window_size = Ok window0
    ∧ run_calls (windowed_call self p quantile) window0 calls
      = Ok (outs, window)
    ∧ ∀ (k : nat) c, calls !! k = Some c →
        k = 0%nat ∨ default (n_rows_ self) window_size = 1 →
        outs !! k = Some c.2.
Proof.
  intros Hwf Hq Hw Hall.
  set (w := default (n_rows_ self) window_size) in *.
  set (window0 := WindowedQuantile.MkDeque w []).
  assert (Hinit : WindowedQuantile.init self window_size = Ok window0).
  { unfold WindowedQuantile.init, WindowedQuantile.deque_new.
    change (match window_size with Some w0 => w0 | None => n_rows_ self end)
      with w.
    destruct (w <? 0) eqn:E; [lia|done]. }
  destruct (windowed_run_spec self p quantile Hwf Hq calls window0 [])
    as (ds & outs & window & Hds & Hrun & _ & _ & Hcalls); [done|done|done|].
  exists window0, outs, window. split; [done|]. split; [done|].
  intros k c Hc Hcase.
  destruct (distances_lookup self calls ds k c Hds Hc) as (d & Hd & _).
  destruct (Hcalls k c d Hc Hd) as (thr & Hthr & ->). simpl in Hthr.
  rewrite (recent_single w ds k d Hw Hd Hcase) in Hthr.
  f_equal. apply accept_below_threshold.
  destruct (np_quantile_between [d] quantile ltac:(done) Hq)
    as (v & Hv & Hbounds).
  rewrite Hthr in Hv. injection Hv as <-.
  destruct (Hbounds d d) as [Hlo _]; [|done].
  intros x Hx. apply list_elem_of_singleton in Hx as ->. lra.
Qed.

Lemma windowed_quantile_one_never_rejects_witness :
  well_formed windowed_example
  ∧ 0 < default (n_rows_ windowed_example) (Some 2)
  ∧ Forall (λ c, 0 ≤ c.2 < n_rows_ windowed_example) windowed_example_calls
  ∧ ∃ window0 outs window,
      WindowedQuantile.init windowed_example (Some 2) = Ok window0
      ∧ run_calls (windowed_call windowed_example None 1) window0
          windowed_example_calls
        = Ok (outs, window)
      ∧ outs = snd <$> windowed_example_calls.
Proof.
  assert (Hwf : well_formed windowed_example) by (split; reflexivity).
  assert (Hw : 0 < default (n_rows_ windowed_example) (Some 2)) by (simpl; lia).
  assert (Hall : Forall (λ c, 0 ≤ c.2 < n_rows_ windowed_example)
                   windowed_example_calls).
  { repeat constructor; simpl; lia. }
  split; [exact Hwf|]. split; [exact Hw|]. split; [exact Hall|].
  exact (windowed_quantile_one_never_rejects windowed_example None (Some 2)
           windowed_example_calls Hwf Hw Hall).
Defined.

Lemma windowed_single_distance_never_rejects_witness :
  well_formed windowed_example ∧ (0 <= 0 <= 1)%Q
  ∧ 0 < default (n_rows_ windowed_example) (Some 1)
  ∧ Forall (λ c, 0 ≤ c.2 < n_rows_ windowed_example) windowed_example_calls
  ∧ ∃ window0 outs window,
      WindowedQuantile.init windowed_example (Some 1) = Ok window0
      ∧ run_calls (windowed_call windowed_example None 0) window0
          windowed_example_calls
        = Ok (outs, window)
      ∧ ∀ (k : nat) c, windowed_example_calls !! k = Some c →
          k = 0%nat ∨ default (n_rows_ windowed_example) (Some 1) = 1 →
          outs !! k = Some c.2.
Proof.
  assert (Hwf : well_formed windowed_example) by (split; reflexivity).
  assert (Hq : (0 <= 0 <= 1)%Q) by lra.
  assert (Hw : 0 < default (n_rows_ windowed_example) (Some 1)) by (simpl; lia).
  assert (Hall : Forall (λ c, 0 ≤ c.2 < n_rows_ windowed_example)
                   windowed_example_calls).
  { repeat constructor; simpl; lia. }
  split; [exact Hwf|]. split; [exact Hq|]. split; [exact Hw|].
  split; [exact Hall|].
  exact (windowed_single_distance_never_rejects windowed_example None 0
           (Some 1) windowed_example_calls Hwf Hq Hw Hall).
Defined.

(** * SampledQuantile *)

Lemma np_take_ok {A : Type} (a : list A) (idxs : list Z) :
  (∀ i, i ∈ idxs → 0 ≤ i < Z.of_nat (length a)) →
  ∃ xs, np_take a idxs = Ok xs
        ∧ Forall2 (λ i x, a !! Z.to_nat i = Some x) idxs xs.
Proof.
  induction idxs as [|i idxs IH]; intros Hall.
  - exists []. split; [done|constructor].
  - destruct (getitem_nonneg a i) as (x & Hget & Hx).
    { apply Hall. by left. }
    destruct IH as (xs & Hxs & Hlk).
    { intros j Hj. apply Hall. by right. }
    exists (x :: xs). split; [|by constructor].
    simpl. rewrite Hget. simpl. by rewrite Hxs.
Qed.

Lemma sampled_distances_ok (self : Base Q) (n_samples : Z) (sample : list Z)
    (xk : list Q) :
  well_formed self →
  valid_sample (n_rows_ self) n_samples sample →
  ∃ ds, SampledQuantile.threshold_distances self n_samples sample xk = Ok ds
        ∧ Forall2 (λ i d, Qabs <$> row_residual self xk (Z.to_nat i) = Some d)
            sample ds.
Proof.
  intros [Hn Hb] (Hlen & Hnodup & Hrange).
  assert (Hsize : 0 ≤ n_samples ≤ n_rows_ self).
  { split; [lia|]. rewrite <- Hlen.
    assert (Hsub : sample ⊆+ seqZ 0 (n_rows_ self)).
    { apply NoDup_submseteq; [done|]. intros i Hi. apply elem_of_seqZ.
      specialize (Hrange i Hi). lia. }
    apply submseteq_length in Hsub. rewrite length_seqZ in Hsub. lia. }
  unfold SampledQuantile.threshold_distances,
    SampledQuantile.choice_without_replacement.
  destruct ((n_samples <? 0) || (n_rows_ self <? n_samples)) eqn:E.
  { apply orb_true_iff in E as [E|E]; lia. }
  simpl.
  destruct (np_take_ok (b_ self) sample) as (bs & Hbs & Hblk).
  { intros i Hi. specialize (Hrange i Hi). lia. }
  destruct (np_take_ok (A_ self) sample) as (rows & Hrows & Hrlk).
  { intros i Hi. specialize (Hrange i Hi). lia. }
  rewrite Hbs. simpl. rewrite Hrows. simpl.
  eexists. split; [reflexivity|].
  clear Hbs Hrows Hlen Hnodup Hrange E Hsize.
  revert bs rows Hblk Hrlk. induction sample as [|i sample IH];
    intros bs rows Hblk Hrlk.
  - apply Forall2_nil_inv_l in Hblk as ->.
    apply Forall2_nil_inv_l in Hrlk as ->. constructor.
  - apply Forall2_cons_inv_l in Hblk as (bi & bs' & Hbi & Hblk & ->).
    apply Forall2_cons_inv_l in Hrlk as (row & rows' & Hrow & Hrlk & ->).
    constructor; [|by apply IH].
    unfold row_residual. rewrite Hbi. simpl. by rewrite Hrow.
Qed.

Lemma valid_full_sample (n : Z) (sample : list Z) (i : Z) :
  valid_sample n n sample → 0 ≤ i < n → i ∈ sample.
Proof.
  intros (Hlen & Hnodup & Hrange) Hi.
  assert (Hsub : sample ⊆+ seqZ 0 n).
  { apply NoDup_submseteq; [done|]. intros j Hj. apply elem_of_seqZ.
    specialize (Hrange j Hj). lia. }
  assert (Hperm : sample ≡ₚ seqZ 0 n).
  { apply submseteq_length_Permutation; [done|]. rewrite length_seqZ. lia. }
  rewrite Hperm. apply elem_of_seqZ. lia.
Qed.

(** X12. In exact arithmetic, with [quantile = 1], on a well-formed
    system, [SampledQuantile] returns every proposal whose row is among the
    rows sampled for the threshold; with the default [n_samples] (all the
    rows) that is every proposal. *)
Theorem sampled_quantile_one_accepts_sampled_row (self : Base Q)
    (p : option (list Q)) (n_samples : Z) (draw : Z) (sample : list Z)
    (xk : list Q) :
  well_formed self → 0 ≤ draw < n_rows_ self →
  valid_sample (n_rows_ self) n_samples sample →
  draw ∈ sample ∨ n_samples = SampledQuantile.init self None →
  SampledQuantile.select_row_index self p 1 n_samples draw sample xk
  = Ok draw.
Proof.
  intros Hwf Hdraw Hvalid Hcase.
  assert (Hin : draw ∈ sample).
  { destruct Hcase as [?|Hfull]; [done|].
    unfold SampledQuantile.init in Hfull. subst n_samples.
    by apply (valid_full_sample (n_rows_ self)). }
  destruct (quantile_distance_ok self xk draw Hwf Hdraw) as (r & Hr & Hd & _).
  destruct (sampled_distances_ok self n_samples sample xk Hwf Hvalid)
    as (ds & Hds & Hlk).
  assert (Hmem : Qabs r ∈ ds).
  { apply list_elem_of_lookup in Hin as [k Hk].
    destruct (Forall2_lookup_l _ _ _ _ _ Hlk Hk) as (d & Hdk & Hres).
    rewrite Hr in Hres. injection Hres as <-.
    by eapply list_elem_of_lookup_2. }
  destruct (np_quantile_one ds) as (v & m & Hv & Hvm & _ & Hmax).
  { intros E. rewrite E in Hmem. by apply elem_of_nil in Hmem. }
  unfold SampledQuantile.select_row_index, Random.select_row_index,
    Random.choice.
  destruct (n_rows_ self <=? 0) eqn:En; [lia|]. simpl.
  rewrite Hd. simpl. unfold SampledQuantile.threshold. rewrite Hds. simpl.
  rewrite Hv. simpl.
  assert (Hle : (Qabs r <= v)%Q) by (rewrite Hvm; by apply Hmax).
  destruct (Qle_bool v (Qabs r)) eqn:E; simpl; [|done].
  apply Qle_bool_iff in E. rewrite np_isclose_eq; [done|lra].
Qed.

(** X13. Asking [SampledQuantile] for more samples than there are rows, or
    for a negative number of them, makes every call on a well-formed system
    raise [ValueError], whatever the proposal and the quantile. *)
Theorem sampled_quantile_bad_sample_size (self : Base Q)
    (p : option (list Q)) (quantile : Q) (n_samples : Z) (draw : Z)
    (sample : list Z) (xk : list Q) :
  well_formed self → 0 ≤ draw < n_rows_ self →
  n_samples < 0 ∨ n_rows_ self < n_samples →
  SampledQuantile.select_row_index self p quantile n_samples draw sample xk
  = Error ValueError.
Proof.
  intros Hwf Hdraw Hbad.
  destruct (quantile_distance_ok self xk draw Hwf Hdraw) as (r & _ & Hd & _).
  unfold SampledQuantile.select_row_index, Random.select_row_index,
    Random.choice.
  destruct (n_rows_ self <=? 0) eqn:En; [lia|]. simpl.
  rewrite Hd. simpl.
  unfold SampledQuantile.threshold, SampledQuantile.threshold_distances,
    SampledQuantile.choice_without_replacement.
  destruct ((n_samples <? 0) || (n_rows_ self <? n_samples)) eqn:E; [done|].
  apply orb_false_iff in E as [E1 E2]. lia.
Qed.

Lemma sampled_quantile_one_accepts_sampled_row_witness :
  well_formed quantile_far_example ∧ 0 ≤ 1 < n_rows_ quantile_far_example
  ∧ valid_sample (n_rows_ quantile_far_example) 1 [1]
  ∧ (1 ∈ [1] ∨ 1 = SampledQuantile.init quantile_far_example None)
  ∧ SampledQuantile.select_row_index quantile_far_example None 1 1 1 [1]
      [0]%Q
    = Ok 1.
Proof.
  assert (Hwf : well_formed quantile_far_example) by (split; reflexivity).
  assert (Hdraw : 0 ≤ 1 < n_rows_ quantile_far_example) by (simpl; lia).
  assert (Hvalid : valid_sample (n_rows_ quantile_far_example) 1 [1]).
  { split; [reflexivity|]. split; [apply NoDup_singleton|].
    intros i Hi. apply list_elem_of_singleton in Hi as ->. simpl. lia. }
  assert (Hcase : 1 ∈ [1] ∨ 1 = SampledQuantile.init quantile_far_example None)
    by (left; apply list_elem_of_singleton; reflexivity).
  split; [exact Hwf|]. split; [exact Hdraw|]. split; [exact Hvalid|].
  split; [exact Hcase|].
  exact (sampled_quantile_one_accepts_sampled_row quantile_far_example None 1
           1 [1] [0]%Q Hwf Hdraw Hvalid Hcase).
Defined.

Lemma sampled_quantile_bad_sample_size_witness :
  well_formed quantile_far_example ∧ 0 ≤ 1 < n_rows_ quantile_far_example
  ∧ (3 < 0 ∨ n_rows_ quantile_far_example < 3)
  ∧ SampledQuantile.select_row_index quantile_far_example None 1 3 1
      [0; 1; 1] [0]%Q
    = Error ValueError.
Proof.
  assert (Hwf : well_formed quantile_far_example) by (split; reflexivity).
  assert (Hdraw : 0 ≤ 1 < n_rows_ quantile_far_example) by (simpl; lia).
  assert (Hbad : 3 < 0 ∨ n_rows_ quantile_far_example < 3)
    by (right; simpl; lia).
  split; [exact Hwf|]. split; [exact Hdraw|]. split; [exact Hbad|].
  exact (sampled_quantile_bad_sample_size quantile_far_example None 1 3 1
           [0; 1; 1] [0]%Q Hwf Hdraw Hbad).
Defined.

(** With [quantile = 1] a proposal outside the sample can be rejected: the
    threshold is the largest of the sampled distances only. *)
Example sampled_quantile_one_can_reject :
  SampledQuantile.select_row_index quantile_far_example None 1 1 1 [0] [0]%Q
  = Ok SKIP
  ∧ Quantile.select_row_index quantile_far_example None 1 tt 1 [0]%Q
    = Ok (1, tt).
Proof. split; reflexivity. Qed.

(** * Further properties of RandomOrthoGraph *)

Section ortho_graph_more.
Context {R : Type} `{Scalar R}.
Implicit Types (A : list (list R)) (st : RandomOrthoGraph.t R).

Lemma argwhere_from_zeros (u : list R) (i : Z) :
  Forall (λ x, s_eqb x s_zero = true) u → argwhere_from i u = [].
Proof.
  intros Hall. revert i. induction Hall as [|x u Hx _ IH]; intros i; [done|].
  simpl. by rewrite Hx.
Qed.

(** X14. When the initial iterate satisfies every equation ([A @ x0 - b] has
    no non-zero entry), [__init__] on a well-formed system leaves no
    selectable row and every call of [_select_row_index] raises
    [ValueError]. *)
Theorem ortho_graph_solved_system_raises (self : Base R) (one : R)
    (p0 : option (list R)) :
  well_formed self →
  Forall (λ x, s_eqb x s_zero = true)
    (np_sub (matvec (A_ self) (x0_ self)) (b_ self)) →
  ∃ st,
    RandomOrthoGraph.init self one p0 = Ok st
    ∧ RandomOrthoGraph.selectable st = []
    ∧ ∀ (pick : nat) (xk : list R),
        RandomOrthoGraph.select_row_index st pick xk = Error ValueError.
Proof.
  intros Hwf Hzero.
  destruct (init_graph_inv self one p0 Hwf) as (st & Hinit & _).
  assert (Hsel : RandomOrthoGraph.selectable st = []).
  { unfold RandomOrthoGraph.init in Hinit.
    destruct (RandomOrthoGraph.build_dict _ _) as [d|e]; simpl in Hinit;
      [|discriminate].
    injection Hinit as <-. simpl. by apply argwhere_from_zeros. }
  exists st. split; [done|]. split; [done|].
  intros pick xk. unfold RandomOrthoGraph.select_row_index. by rewrite Hsel.
Qed.

Lemma run_avoids_isolated_row A (calls : list (nat * list R)) st
    (outs : list Z) st' (ik : Z) :
  graph_inv A st →
  (∀ j, 0 ≤ j < Z.of_nat (length A) → j ≠ ik → ik ∉ neighbours A j) →
  ik ∉ RandomOrthoGraph.selectable st →
  run_calls ortho_call st calls = Ok (outs, st') →
  ik ∉ outs.
Proof.
  intros Hinv Hiso. revert st outs Hinv.
  induction calls as [|c calls IH]; intros st outs Hinv Hout Hrun.
  - simpl in Hrun. injection Hrun as <- _. by intros ?%elem_of_nil.
  - apply run_calls_cons_inv in Hrun as (i1 & st1 & outs' & Hcall & Hrun & ->).
    destruct (ortho_call_spec A st c i1 st1 Hinv Hcall)
      as (Hi1 & _ & Hinv1 & Hset & _).
    assert (Hne : i1 ≠ ik) by (intros ->; done).
    assert (Hout1 : ik ∉ RandomOrthoGraph.selectable st1).
    { intros Hmem. apply (elem_of_list_to_set (C := gset Z)) in Hmem.
      rewrite Hset, elem_of_difference, elem_of_union, elem_of_list_to_set
        in Hmem.
      destruct Hmem as [[?|Hnb] _]; [done|].
      apply (Hiso i1); [|done|done]. destruct Hinv as [_ Hsel]. by apply Hsel. }
    intros [->|Hin]%elem_of_cons; [done|].
    by apply (IH st1 outs' Hinv1 Hout1 Hrun).
Qed.

(** X15. On a well-formed system, a row that is no neighbour of any other
    row (orthogonal to every other row of [A]) is selected at most once: after a call has returned
    it, no later call returns it. *)
Theorem ortho_graph_isolated_row_selected_once (self : Base R) (one : R)
    (p0 : option (list R)) (st0 : RandomOrthoGraph.t R)
    (before : list (nat * list R)) (outs : list Z) (st : RandomOrthoGraph.t R)
    (c : nat * list R) (ik : Z) (st' : RandomOrthoGraph.t R)
    (after : list (nat * list R)) (outs2 : list Z)
    (st'' : RandomOrthoGraph.t R) :
  well_formed self →
  RandomOrthoGraph.init self one p0 = Ok st0 →
  run_calls ortho_call st0 before = Ok (outs, st) →
  ortho_call st c = Ok (ik, st') →
  (∀ j, 0 ≤ j < n_rows_ self → j ≠ ik →
        ik ∉ neighbours (A_ self) j) →
  run_calls ortho_call st' after = Ok (outs2, st'') →
  ik ∉ outs2.
Proof.
  intros Hwf Hinit Hbefore Hcall Hiso Hafter.
  destruct (init_graph_inv self one p0 Hwf) as (st0' & Hinit' & Hinv0).
  rewrite Hinit in Hinit'. injection Hinit' as <-.
  pose proof (run_preserves_graph_inv _ _ _ _ _ Hinv0 Hbefore) as Hinv.
  destruct (ortho_call_spec _ st c ik st' Hinv Hcall)
    as (_ & _ & Hinv' & Hset & _).
  assert (Hout : ik ∉ RandomOrthoGraph.selectable st').
  { intros Hmem. apply (elem_of_list_to_set (C := gset Z)) in Hmem.
    rewrite Hset, elem_of_difference, elem_of_singleton in Hmem.
    by destruct Hmem. }
  eapply run_avoids_isolated_row; [exact Hinv'| |exact Hout|exact Hafter].
  intros j Hj. apply Hiso. destruct Hwf as [Hn _]. lia.
Qed.

Lemma run_provenance A (calls : list (nat * list R)) st (outs : list Z) st'
    (pre post : list Z) (ik : Z) :
  graph_inv A st →
  run_calls ortho_call st calls = Ok (outs, st') →
  outs = pre ++ ik :: post →
  0 ≤ ik < Z.of_nat (length A)
  ∧ (ik ∈ RandomOrthoGraph.selectable st
     ∨ ∃ ik', ik' ∈ pre ∧ ik ∈ neighbours A ik')
  ∧ last pre ≠ Some ik.
Proof.
  revert st outs pre. induction calls as [|c calls IH];
    intros st outs pre Hinv Hrun Houts.
  - simpl in Hrun. injection Hrun as <- _. by destruct pre.
  - apply run_calls_cons_inv in Hrun as (i1 & st1 & outs' & Hcall & Hrun & ->).
    destruct (ortho_call_spec A st c i1 st1 Hinv Hcall)
      as (Hi1 & _ & Hinv1 & Hset & _).
    destruct pre as [|i0 pre]; simpl in Houts; injection Houts as -> ->.
    + split; [destruct Hinv as [_ Hsel]; by apply Hsel|].
      split; [by left|done].
    + destruct (IH st1 (pre ++ ik :: post) pre Hinv1 Hrun eq_refl)
        as (Hrange & Hfrom & Hlast).
      split; [done|]. split.
      * destruct Hfrom as [Hmem|(ik' & Hik' & Hnb)].
        -- apply (elem_of_list_to_set (C := gset Z)) in Hmem.
           rewrite Hset, elem_of_difference, elem_of_union,
             elem_of_list_to_set in Hmem.
           destruct Hmem as [[?|Hnb] _]; [by left|].
           right. exists i0. split; [by left|done].
        -- right. exists ik'. split; [by right|done].
      * destruct pre as [|i2 pre]; [|exact Hlast]. simpl.
        intros [= ->].
        destruct Hfrom as [Hmem|(ik' & Hik' & _)];
          [|by apply elem_of_nil in Hik'].
        apply (elem_of_list_to_set (C := gset Z)) in Hmem.
        rewrite Hset, elem_of_difference, elem_of_singleton in Hmem.
        by destruct Hmem.
Qed.

(** X16. Every index a [RandomOrthoGraph] returns is a row index; it was
    violated by the initial iterate or is a neighbour of a row returned
    earlier; and it is not the index the previous call returned. *)
Theorem ortho_graph_selected_row_provenance (self : Base R) (one : R)
    (p0 : option (list R)) (st0 : RandomOrthoGraph.t R)
    (calls : list (nat * list R)) (outs : list Z) (st : RandomOrthoGraph.t R)
    (pre post : list Z) (ik : Z) :
  well_formed self →
  RandomOrthoGraph.init self one p0 = Ok st0 →
  run_calls ortho_call st0 calls = Ok (outs, st) →
  outs = pre ++ ik :: post →
  0 ≤ ik < n_rows_ self
  ∧ (ik ∈ np_argwhere (np_sub (matvec (A_ self) (x0_ self)) (b_ self))
     ∨ ∃ ik', ik' ∈ pre ∧ ik ∈ neighbours (A_ self) ik')
  ∧ last pre ≠ Some ik.
Proof.
  intros Hwf Hinit Hrun Houts.
  destruct (init_graph_inv self one p0 Hwf) as (st0' & Hinit' & Hinv0).
  rewrite Hinit in Hinit'. injection Hinit' as <-.
  destruct (run_provenance _ _ _ _ _ pre post ik Hinv0 Hrun Houts)
    as (Hrange & Hfrom & Hlast).
  assert (Hsel0 : RandomOrthoGraph.selectable st0
                  = np_argwhere (np_sub (matvec (A_ self) (x0_ self)) (b_ self))).
  { unfold RandomOrthoGraph.init in Hinit.
    destruct (RandomOrthoGraph.build_dict _ _) as [d|e]; simpl in Hinit;
      [|discriminate].
    by injection Hinit as <-. }
  rewrite Hsel0 in Hfrom. destruct Hwf as [Hn _].
  split; [lia|]. split; [exact Hfrom|exact Hlast].
Qed.

End ortho_graph_more.

Lemma ortho_graph_solved_system_raises_witness :
  well_formed solved_example
  ∧ Forall (λ x : Q, s_eqb x s_zero = true)
      (np_sub (matvec (A_ solved_example) (x0_ solved_example))
         (b_ solved_example))
  ∧ ∃ st,
      RandomOrthoGraph.init solved_example 1%Q None = Ok st
      ∧ RandomOrthoGraph.selectable st = []
      ∧ ∀ (pick : nat) (xk : list Q),
          RandomOrthoGraph.select_row_index st pick xk = Error ValueError.
Proof.
  assert (Hwf : well_formed solved_example) by (split; reflexivity).
  assert (Hzero : Forall (λ x : Q, s_eqb x s_zero = true)
                    (np_sub (matvec (A_ solved_example) (x0_ solved_example))
                       (b_ solved_example))).
  { repeat constructor. }
  split; [exact Hwf|]. split; [exact Hzero|].
  exact (ortho_graph_solved_system_raises solved_example 1%Q None Hwf Hzero).
Defined.

Lemma ortho_graph_isolated_row_selected_once_witness :
  well_formed identity_example
  ∧ RandomOrthoGraph.init identity_example 1%Q None = Ok identity_ortho_st0
  ∧ run_calls ortho_call identity_ortho_st0 [] = Ok ([], identity_ortho_st0)
  ∧ ortho_call identity_ortho_st0 (0%nat, []) = Ok (0, identity_ortho_st1)
  ∧ (∀ j, 0 ≤ j < n_rows_ identity_example → j ≠ 0 →
          0 ∉ neighbours (A_ identity_example) j)
  ∧ run_calls ortho_call identity_ortho_st1 [(0%nat, [])]
    = Ok ([1], identity_ortho_st2)
  ∧ 0 ∉ [1].
Proof.
  assert (Hwf : well_formed identity_example) by (split; reflexivity).
  assert (Hinit : RandomOrthoGraph.init identity_example 1%Q None
                  = Ok identity_ortho_st0) by (vm_compute; reflexivity).
  assert (Hrun : run_calls ortho_call identity_ortho_st0 []
                 = Ok ([], identity_ortho_st0)) by reflexivity.
  assert (Hcall : ortho_call identity_ortho_st0 (0%nat, [])
                  = Ok (0, identity_ortho_st1)) by (vm_compute; reflexivity).
  assert (Hiso : ∀ j, 0 ≤ j < n_rows_ identity_example → j ≠ 0 →
            0 ∉ neighbours (A_ identity_example) j).
  { intros j Hrange Hj Hin. simpl in Hrange. assert (j = 1) as -> by lia.
    rewrite neighbours_elem in Hin. destruct Hin as [_ Hn].
    vm_compute in Hn. discriminate. }
  assert (Hafter : run_calls ortho_call identity_ortho_st1 [(0%nat, [])]
                   = Ok ([1], identity_ortho_st2)) by (vm_compute; reflexivity).
  split; [exact Hwf|]. split; [exact Hinit|]. split; [exact Hrun|].
  split; [exact Hcall|]. split; [exact Hiso|]. split; [exact Hafter|].
  exact (ortho_graph_isolated_row_selected_once identity_example 1%Q None
           identity_ortho_st0 [] [] identity_ortho_st0 (0%nat, []) 0
           identity_ortho_st1 [(0%nat, [])] [1] identity_ortho_st2
           Hwf Hinit Hrun Hcall Hiso Hafter).
Defined.

Lemma ortho_graph_selected_row_provenance_witness :
  well_formed ortho_example
  ∧ RandomOrthoGraph.init ortho_example 1%Q None = Ok ortho_example_st0
  ∧ run_calls ortho_call ortho_example_st0 [(0%nat, []); (0%nat, [])]
    = Ok ([1; 2], ortho_example_st2)
  ∧ [1; 2] = [1] ++ 2 :: []
  ∧ 0 ≤ 2 < n_rows_ ortho_example
  ∧ (2 ∈ np_argwhere
           (np_sub (matvec (A_ ortho_example) (x0_ ortho_example))
              (b_ ortho_example))
     ∨ ∃ ik', ik' ∈ [1] ∧ 2 ∈ neighbours (A_ ortho_example) ik')
  ∧ last [1] ≠ Some 2.
Proof.
  assert (Hwf : well_formed ortho_example) by (split; reflexivity).
  assert (Hinit : RandomOrthoGraph.init ortho_example 1%Q None
                  = Ok ortho_example_st0) by (vm_compute; reflexivity).
  assert (Hrun : run_calls ortho_call ortho_example_st0
                   [(0%nat, []); (0%nat, [])]
                 = Ok ([1; 2], ortho_example_st2)) by (vm_compute; reflexivity).
  assert (Houts : [1; 2] = [1] ++ 2 :: []) by reflexivity.
  split; [exact Hwf|]. split; [exact Hinit|]. split; [exact Hrun|].
  split; [exact Houts|].
  exact (ortho_graph_selected_row_provenance ortho_example 1%Q None
           ortho_example_st0 [(0%nat, []); (0%nat, [])] [1; 2]
           ortho_example_st2 [1] [] 2 Hwf Hinit Hrun Houts).
Defined.

(** * Further properties of SVRandom *)

Lemma sv_random_entries (self : Base Q) :
  Forall2 (λ pi r, (pi == r * r / sum_of_squares (row_norms_ self))%Q)
    (SVRandom.init self) (row_norms_ self).
Proof.
  unfold SVRandom.init. simpl.
  apply Forall2_fmap_l, Forall2_fmap_l, Forall_Forall2_diag, Forall_forall.
  intros r _. simpl.
  pose proof (np_sum_squares (row_norms_ self)) as Htotal.
  change (np_sum ((λ r0 : Q, r0 * r0) <$> row_norms_ self))%Q
    with (np_sum ((λ r0 : Q, (r0 * r0)%Q) <$> row_norms_ self)) in Htotal.
  by rewrite Htotal.
Qed.

Lemma square_below_sum_of_squares (norms : list Q) (r : Q) :
  r ∈ norms → (r * r <= sum_of_squares norms)%Q.
Proof.
  induction norms as [|x norms IH]; [by intros ?%elem_of_nil|].
  pose proof (sum_of_squares_nonneg norms). simpl.
  intros [->|Hin]%elem_of_cons; [nra|]. specialize (IH Hin). nra.
Qed.

(** X17. When the squared row norms do not sum to zero, [SVRandom] gives
    probability zero exactly to the rows of norm zero, and no row a
    probability above one. *)
Theorem sv_random_zero_norm_rows (self : Base Q) :
  ¬ (sum_of_squares (row_norms_ self) == 0)%Q →
  Forall2 (λ pi r, ((pi == 0)%Q ↔ (r == 0)%Q) ∧ (pi <= 1)%Q)
    (SVRandom.init self) (row_norms_ self).
Proof.
  intros Hsum.
  pose proof (sum_of_squares_nonneg (row_norms_ self)) as Hnonneg.
  set (sq := sum_of_squares (row_norms_ self)) in *.
  assert (Hpos : (0 < sq)%Q) by lra.
  assert (Hlk : ∀ r, r ∈ row_norms_ self → (r * r <= sq)%Q)
    by (intros r; apply square_below_sum_of_squares).
  pose proof (sv_random_entries self) as Hentries. fold sq in Hentries.
  clearbody sq.
  induction Hentries as [|pi r ps rs Hpi _ IH]; [constructor|].
  constructor.
  - assert (Hmul : (pi * sq == r * r)%Q).
    { rewrite Hpi. field. lra. }
    assert (Hr : (r * r <= sq)%Q) by (apply Hlk; by left).
    split; [split|].
    + intros Hz. rewrite Hz in Hmul.
      assert (Hrr : (r * r == 0)%Q) by lra.
      apply Qmult_integral in Hrr. by destruct Hrr.
    + intros Hz. rewrite Hz in Hmul. nra.
    + nra.
  - apply IH. intros r' Hr'. apply Hlk. by right.
Qed.

Lemma sum_of_squares_scaled (c : Q) (norms : list Q) :
  (sum_of_squares (Qmult c <$> norms) == c * c * sum_of_squares norms)%Q.
Proof.
  induction norms as [|r norms IH]; simpl; [ring|]. rewrite IH. ring.
Qed.

(** X18. The distribution of [SVRandom] depends on the row norms only up to
    a common factor: multiplying every row norm by the same non-zero number
    leaves every probability unchanged. *)
Theorem sv_random_scale_invariant (self : Base Q) (c : Q) :
  ¬ (c == 0)%Q →
  ¬ (sum_of_squares (row_norms_ self) == 0)%Q →
  Forall2 Qeq
    (SVRandom.init
       (MkBase (A_ self) (b_ self) (x0_ self) (xk_ self) (n_rows_ self)
          (Qmult c <$> row_norms_ self)))
    (SVRandom.init self).
Proof.
  intros Hc Hsum.
  pose proof (sv_random_entries self) as Hself.
  pose proof (sv_random_entries
                (MkBase (A_ self) (b_ self) (x0_ self) (xk_ self)
                   (n_rows_ self) (Qmult c <$> row_norms_ self))) as Hscaled.
  simpl in Hscaled. apply Forall2_fmap_r in Hscaled.
  pose proof (sum_of_squares_scaled c (row_norms_ self)) as Hsq.
  set (sq := sum_of_squares (row_norms_ self)) in *.
  set (sq' := sum_of_squares (Qmult c <$> row_norms_ self)) in *.
  clearbody sq sq'.
  revert Hscaled Hself.
  generalize (SVRandom.init self).
  generalize (SVRandom.init
                (MkBase (A_ self) (b_ self) (x0_ self) (xk_ self)
                   (n_rows_ self) (Qmult c <$> row_norms_ self))).
  induction (row_norms_ self) as [|r rs IH]; intros ps' ps Hps' Hps.
  - apply Forall2_nil_inv_r in Hps' as ->.
    apply Forall2_nil_inv_r in Hps as ->. constructor.
  - apply Forall2_cons_inv_r in Hps' as (p' & ps'' & Hp' & Hps' & ->).
    apply Forall2_cons_inv_r in Hps as (p & ps0 & Hp & Hps & ->).
    constructor; [|by apply IH].
    simpl in Hp, Hp'. rewrite Hp, Hp', Hsq. field. split; lra.
Qed.

Lemma sv_random_zero_norm_rows_witness :
  ¬ (sum_of_squares (row_norms_ sv_random_example) == 0)%Q
  ∧ Forall2 (λ pi r, ((pi == 0)%Q ↔ (r == 0)%Q) ∧ (pi <= 1)%Q)
      (SVRandom.init sv_random_example) (row_norms_ sv_random_example).
Proof.
  assert (Hsum : ¬ (sum_of_squares (row_norms_ sv_random_example) == 0)%Q)
    by (intros E; vm_compute in E; discriminate).
  split; [exact Hsum|].
  exact (sv_random_zero_norm_rows sv_random_example Hsum).
Defined.

Lemma sv_random_scale_invariant_witness :
  ¬ (3 == 0)%Q
  ∧ ¬ (sum_of_squares (row_norms_ sv_random_example) == 0)%Q
  ∧ Forall2 Qeq
      (SVRandom.init
         (MkBase (A_ sv_random_example) (b_ sv_random_example)
            (x0_ sv_random_example) (xk_ sv_random_example)
            (n_rows_ sv_random_example)
            (Qmult 3 <$> row_norms_ sv_random_example)))
      (SVRandom.init sv_random_example).
Proof.
  assert (Hc : ¬ (3 == 0)%Q) by (intros E; vm_compute in E; discriminate).
  assert (Hsum : ¬ (sum_of_squares (row_norms_ sv_random_example) == 0)%Q)
    by (intros E; vm_compute in E; discriminate).
  split; [exact Hc|]. split; [exact Hsum|].
  exact (sv_random_scale_invariant sv_random_example 3 Hc Hsum).
Defined.
